(** * jishaku.features.management: the extension and bot control commands

    A shallow embedding of [ManagementFeature] (load/reload, unload, shutdown,
    jskinvite, rtt, sync) and the properties its specification states.

    The handlers are coroutines that talk to the discord.py framework.  Here
    they are functions in a small monad that threads the state of the world,
    records every framework call together with the way it returned, and
    carries Python exceptions.  The framework itself is a parameter, and so
    are the paginator, the formatting of numbers and what the handlers take
    from the interpreter's Unicode tables ([int] on a text and the digit
    class of [re]): theorems hold for every behaviour they may show. *)

From Stdlib Require Import ZArith String Ascii Lia.
From Stdlib Require Import Floats.PrimFloat.
From Stdlib Require Import Numbers.Cyclic.Int63.Uint63.
From stdpp Require Import base gmap sets list strings sorting pretty.

Local Open Scope string_scope.
Local Open Scope list_scope.
Local Open Scope Z_scope.

(** ** Python values and built-ins used by the module *)

Module Py.

(** The classes the module's [except] clauses tell apart.  [BaseOnly]
    stands for the exceptions that derive from [BaseException] but not from
    [Exception] (KeyboardInterrupt, SystemExit, asyncio.CancelledError):
    [except Exception] lets them through. *)
Inductive exn_kind : Type :=
| BaseOnly
| Plain
| HTTPException
| ValueError.

(** An exception object: its class for [except], [type(e).__name__],
    [str(e)], and what [traceback.format_exception(type(e), e,
    e.__traceback__, limit)] gives for it. *)
Record exn : Type := Exn {
  exn_kind_of : exn_kind;
  exn_name : string;
  exn_str : string;
  exn_format : nat -> list string
}.

(** The result of a call: raised or returned. *)
Definition result (X : Type) : Type := (exn + X)%type.

Definition is_Exception (e : exn) : bool :=
  match exn_kind_of e with BaseOnly => false | _ => true end.

Definition is_HTTPException (e : exn) : bool :=
  match exn_kind_of e with HTTPException => true | _ => false end.

Definition is_ValueError (e : exn) : bool :=
  match exn_kind_of e with ValueError => true | _ => false end.

(** Exceptions raised by the interpreter itself carry a one-frame trace. *)
Definition builtin_exn (k : exn_kind) (name msg : string) : exn :=
  Exn k name msg
      (fun _ => ["Traceback (most recent call last):" +:+ "
"; name +:+ ": " +:+ msg +:+ "
"]).

Definition IndexError : exn :=
  builtin_exn Plain "IndexError" "list index out of range".

Definition AssertionError : exn := builtin_exn Plain "AssertionError" "".

Definition AttributeError (cls attr : string) : exn :=
  builtin_exn Plain "AttributeError"
    ("'" +:+ cls +:+ "' object has no attribute '" +:+ attr +:+ "'").

(** The [ValueError] of [int(s)] on a bad literal, for a literal that
    [repr] shows as the string in single quotes. *)
Definition int_ValueError (s : string) : exn :=
  builtin_exn ValueError "ValueError"
    ("invalid literal for int() with base 10: '" +:+ s +:+ "'").

(** [commands.BadArgument(msg)] *)
Definition BadArgument (msg : string) : exn :=
  builtin_exn Plain "BadArgument" msg.

(** *** Strings

    A [str] is held as the bytes of its UTF-8 encoding.  The separators and
    the classes below are ASCII, and an ASCII byte is part of no longer
    sequence, so splitting, joining and comparing work on the bytes as they
    do on the characters. *)

Definition is_digit (c : ascii) : bool :=
  let n := nat_of_ascii c in (48 <=? n)%nat && (n <=? 57)%nat.

Definition is_lower (c : ascii) : bool :=
  let n := nat_of_ascii c in (97 <=? n)%nat && (n <=? 122)%nat.

(** The white space [int] strips from ASCII text: tab to carriage return,
    and the space. *)
Definition is_space (c : ascii) : bool :=
  let n := nat_of_ascii c in
  ((9 <=? n)%nat && (n <=? 13)%nat) || (n =? 32)%nat.

Definition digit_value (c : ascii) : Z := Z.of_nat (nat_of_ascii c) - 48.

(** The longest prefix whose characters satisfy [p], and the rest. *)
Fixpoint span (p : ascii -> bool) (s : string) : string * string :=
  match s with
  | EmptyString => (EmptyString, EmptyString)
  | String c r =>
      if p c then let '(a, b) := span p r in (String c a, b)
      else (EmptyString, s)
  end.

(** [s.split(sep)] for a one-character separator. *)
Fixpoint split (sep : ascii) (s : string) : list string :=
  match s with
  | EmptyString => [EmptyString]
  | String c r =>
      let l := split sep r in
      if Ascii.eqb c sep then EmptyString :: l
      else match l with
           | h :: t => String c h :: t
           | [] => [String c EmptyString]
           end
  end.

(** [sep.join(l)] *)
Fixpoint join (sep : string) (l : list string) : string :=
  match l with
  | [] => ""
  | [x] => x
  | x :: r => x +:+ sep +:+ join sep r
  end.

(** [''.join(l)] *)
Definition concat_strings (l : list string) : string :=
  fold_right String.append "" l.

Fixpoint strip_prefix (p s : string) : option string :=
  match p, s with
  | EmptyString, _ => Some s
  | String a p', String b s' =>
      if Ascii.eqb a b then strip_prefix p' s' else None
  | String _ _, EmptyString => None
  end.

(** *** Decimal literals in ASCII

    [int] and the digit class of [re] belong to the interpreter and are a
    parameter of the handlers (the class [Interpreter] below).  What follows
    reads the plain ASCII literals, and is what the demonstration bot's
    interpreter is built from. *)

(** The digits after the first one: single underscores may sit between
    digits. *)
Fixpoint int_digits (acc : Z) (after_underscore : bool) (s : string)
  : option Z :=
  match s with
  | EmptyString => if after_underscore then None else Some acc
  | String c r =>
      if is_digit c then int_digits (acc * 10 + digit_value c) false r
      else if Ascii.eqb c "_" then
             if after_underscore then None else int_digits acc true r
           else None
  end.

Definition int_unsigned (s : string) : option Z :=
  match s with
  | String c _ => if is_digit c then int_digits 0 false s else None
  | EmptyString => None
  end.

Fixpoint drop_while {A} (p : A -> bool) (l : list A) : list A :=
  match l with
  | [] => []
  | x :: r => if p x then drop_while p r else l
  end.

(** The text without the white space [int] skips at both ends. *)
Definition strip (s : string) : string :=
  let l := drop_while is_space (list_ascii_of_string s) in
  string_of_list_ascii (rev (drop_while is_space (rev l))).

(** An ASCII decimal literal: white space around, an optional sign, digits
    with single underscores between them. *)
Definition ascii_int (s : string) : option Z :=
  match strip s with
  | String "-" r => Z.opp <$> int_unsigned r
  | String "+" r => int_unsigned r
  | r => int_unsigned r
  end.

(** [l[i]] on a list, negative indices counting from the end. *)
Definition getitem {A} (l : list A) (i : Z) : result A :=
  let n := Z.of_nat (length l) in
  let j := if i <? 0 then i + n else i in
  if (0 <=? j) && (j <? n) then
    match l !! Z.to_nat j with
    | Some x => inr x
    | None => inl IndexError
    end
  else inl IndexError.

(** [l[0::2]]: what [for i in range(0, len(l), 2): l[i]] visits. *)
Fixpoint evens {A} (l : list A) : list A :=
  match l with
  | [] => []
  | [x] => [x]
  | x :: _ :: r => x :: evens r
  end.

(** [not l] for a sequence: the empty one is falsy. *)
Definition falsy {A} (l : list A) : bool :=
  match l with
  | [] => true
  | _ :: _ => false
  end.

(** [str(n)] for an [int] *)
Definition str_int (n : Z) : string := pretty n.

End Py.

Example int_plain : Py.ascii_int "007" = Some 7.
Proof. reflexivity. Qed.

Example int_signed_spaced : Py.ascii_int " -1_000 " = Some (-1000).
Proof. reflexivity. Qed.

Example int_double_underscore : Py.ascii_int "1__0" = None.
Proof. reflexivity. Qed.

Example int_word : Py.ascii_int "abc" = None.
Proof. reflexivity. Qed.

Example int_sign_then_space : Py.ascii_int "+ 1" = None.
Proof. reflexivity. Qed.

Example int_separator_is_no_space :
  Py.ascii_int (String "028" "5") = None.
Proof. reflexivity. Qed.

Example split_trailing_dot :
  Py.split "." "0.options." = ["0"; "options"; ""].
Proof. reflexivity. Qed.

Example getitem_negative : Py.getitem [1; 2; 3] (-1) = inr 3.
Proof. reflexivity. Qed.

(** ** The framework as the handlers see it *)

Definition nl : string := String "010"%char "".

(** A sent message (its identifier); a serialised command or an entry of the
    API's answer, kept opaque. *)
Definition message : Type := nat.
Definition json : Type := string.

(** What [inspections.file_loc_inspection] and [line_span_inspection] are
    given: [None], a command's callback, or the class of a cog. *)
Inductive inspect_target : Type :=
| InspectNone
| InspectCallback (callback : string)
| InspectType (cls : string).

(** The calls the handlers make, indexed by what they return.  Each may raise
    instead.  [Send] and [Edit] are [ctx.send] and [message.edit];
    [ApplicationInfo] gives the [id] of [bot.application_info()];
    [PerfCounter] is [time.perf_counter()]; the two inspections are
    [str(inspections.file_loc_inspection(t))] and
    [str(inspections.line_span_inspection(t))] of jishaku.repl. *)
Inductive op : Type -> Type :=
| Send (content : string) : op message
| Edit (m : message) (content : string) : op unit
| LoadExtension (name : string) : op unit
| ReloadExtension (name : string) : op unit
| UnloadExtension (name : string) : op unit
| Close : op unit
| ApplicationInfo : op Z
| BulkUpsertGlobal (application_id : option Z) (payload : list json)
  : op (list json)
| BulkUpsertGuild (application_id : option Z) (guild : Z)
    (payload : list json) : op (list json)
| PerfCounter : op float
| FileLocInspection (t : inspect_target) : op string
| LineSpanInspection (t : inspect_target) : op string.

(** References into the object store: list objects and command objects. *)
Definition lref : Type := nat.
Definition cref : Type := nat.

(** Attributes of the bot the handlers read; a read does not change the
    world and does not raise.  [Extensions] are the keys of
    [bot.extensions], [GuildCommandKeys] those of [tree._guild_commands], and
    [AllCommands g] is the list [tree._get_all_commands(guild=g)] hands out,
    by the address of that list object. *)
Inductive attr : Type -> Type :=
| Extensions : attr (gset string)
| ApplicationId : attr (option Z)
| Latency : attr float
| GuildCommandKeys : attr (list Z)
| AllCommands (guild : option Z) : attr lref.

(** A registered application command as the sync diagnosis looks at it:
    [name], [_children] (groups only), the keys of [_params] (commands only),
    [callback] when it has one, whether it is a [commands.Cog], its class
    name, and what [to_dict()] gives. *)
Record command_node : Type := CommandNode {
  cmd_name : string;
  cmd_class : string;
  cmd_children : option (list (string * cref));
  cmd_params : option (list string);
  cmd_callback : option string;
  cmd_is_cog : bool;
  cmd_to_dict : json
}.

(** The objects shared with the framework: command lists and command nodes,
    by address.  [st_next] is the first address no list lives at yet. *)
Record store : Type := Store {
  st_next : lref;
  st_lists : lref -> list cref;
  st_cmds : cref -> command_node
}.

(** The world: the object store and the framework's own state. *)
Record world (F : Type) : Type := World {
  w_store : store;
  w_fw : F
}.
Arguments World {F} _ _.
Arguments w_store {F} _.
Arguments w_fw {F} _.

(** How the framework answers. *)
Class Framework (F : Type) : Type := {
  fw_call : forall X, op X -> world F -> world F * Py.result X;
  fw_get : forall X, attr X -> world F -> X
}.
Arguments fw_call {F _ X} _ _.
Arguments fw_get {F _ X} _ _.

(** [commands.Paginator(prefix='', suffix='')] of discord.py: a local
    object, with [add_line], which may raise, and [pages]. *)
Class Paginator : Type := {
  pag : Type;
  pag_new : pag;
  pag_add_line : string -> bool -> pag -> Py.result pag;
  pag_pages : pag -> list string
}.

(** Float formatting and the statistics helpers: [f"{x:.2f}"], [sum] and
    [jishaku.math.mean_stddev]. *)
Class Numerics : Type := {
  format_2f : float -> string;
  py_sum : list float -> float;
  mean_stddev : list float -> float * float
}.

(** What the handlers take from the interpreter for text: [int(s)] on a
    [str], which returns the number or raises, and a [ValueError] when it
    raises; and the digit class of [re], as the longest prefix of a text
    that [\d*] matches together with what is left.  Both follow the
    interpreter's Unicode tables (every decimal digit counts, not the ASCII
    ones alone), so they are left open here: theorems hold for whatever
    they are. *)
Class Interpreter : Type := {
  py_int : string -> Py.result Z;
  py_int_raises : forall s e,
    py_int s = inl e -> Py.exn_kind_of e = Py.ValueError;
  re_digits : string -> string * string;
  re_digits_split : forall s a b, re_digits s = (a, b) -> s = a +:+ b
}.

(** The invocation context: [ctx.author.id], [ctx.invoked_with] and the
    identifier of [ctx.guild] when there is one. *)
Record ContextA : Type := Ctx {
  author_id : Z;
  invoked_with : string;
  guild : option Z
}.

(** What a run leaves behind. *)
Inductive event : Type :=
| Called {X : Type} (c : op X) (r : Py.result X)
| Line (line : string) (empty : bool) (r : Py.result unit).

Record run (F R : Type) : Type := Run {
  trace : list event;
  final : world F;
  outcome : Py.result R
}.
Arguments Run {F R} _ _ _.
Arguments trace {F R} _.
Arguments final {F R} _.
Arguments outcome {F R} _.

(** ** The monad of handlers *)

Section Monad.
Context {F : Type} {FW : Framework F}.

Definition M (R : Type) : Type := world F -> run F R.

Definition ret {R} (x : R) : M R := fun w => Run [] w (inr x).

Definition raise {R} (e : Py.exn) : M R := fun w => Run [] w (inl e).

Definition bind {A B} (k : A -> M B) (m : M A) : M B := fun w =>
  let r := m w in
  match outcome r with
  | inl e => Run (trace r) (final r) (inl e)
  | inr x =>
      let r' := k x (final r) in
      Run (trace r ++ trace r') (final r') (outcome r')
  end.

#[export] Instance M_ret : MRet M := @ret.
#[export] Instance M_bind : MBind M := @bind.

(** A pure step that may raise. *)
Definition lift {R} (r : Py.result R) : M R :=
  match r with inl e => raise e | inr x => ret x end.

(** [await] of a framework call. *)
Definition call {X} (c : op X) : M X := fun w =>
  let '(w', r) := fw_call c w in Run [Called c r] w' r.

(** An attribute read. *)
Definition get {X} (a : attr X) : M X := fun w => Run [] w (inr (fw_get a w)).

(** [try: m except <catches> as e: ...]: the exception is handed over when
    the clause catches it and travels on when it does not. *)
Definition attempt {R} (catches : Py.exn -> bool) (m : M R)
  : M (Py.result R) := fun w =>
  let r := m w in
  match outcome r with
  | inl e =>
      if catches e then Run (trace r) (final r) (inr (inl e))
      else Run (trace r) (final r) (inl e)
  | inr x => Run (trace r) (final r) (inr (inr x))
  end.

(** Reading the object store. *)
Definition read_list (r : lref) : M (list cref) := fun w =>
  Run [] w (inr (st_lists (w_store w) r)).

Definition read_cmd (c : cref) : M command_node := fun w =>
  Run [] w (inr (st_cmds (w_store w) c)).

(** [list(...)]: a new list object. *)
Definition alloc_list (l : list cref) : M lref := fun w =>
  let s := w_store w in
  let a := st_next s in
  Run [] (World (Store (S a)
                   (fun r => if decide (r = a) then l else st_lists s r)
                   (st_cmds s))
                (w_fw w))
      (inr a).

Context {PG : Paginator}.

(** [paginator.add_line(line, empty=empty)] *)
Definition add_line (line : string) (empty : bool) (p : pag) : M pag :=
  fun w =>
  match pag_add_line line empty p with
  | inl e => Run [Line line empty (inl e)] w (inl e)
  | inr p' => Run [Line line empty (inr tt)] w (inr p')
  end.

(** [for page in pages: await ctx.send(page)] *)
Fixpoint send_pages (pages : list string) : M unit :=
  match pages with
  | [] => mret tt
  | page :: rest => _ ← call (Send page); send_pages rest
  end.

End Monad.
Arguments M : clear implicits.

(** ** ManagementFeature *)

Section ManagementFeature.
Context {F : Type} {FW : Framework F} {PG : Paginator} {NM : Numerics}
        {IN : Interpreter}.

(** The guard every gated handler opens with:
    [ctx.author.id != 271140080188522497 and ctx.author.id != 982960716413825085] *)
Definition not_allowed (ctx : ContextA) : bool :=
  negb (author_id ctx =? 271140080188522497)
  && negb (author_id ctx =? 982960716413825085).

(** *** load / reload *)

(** The loop of [jsk_load] over the chained extension names. *)
Fixpoint load_each (names : list string) (paginator : pag) : M F pag :=
  match names with
  | [] => mret paginator
  | extension :: rest =>
      loaded ← get Extensions;
      let '(method, icon) :=
        if bool_decide (extension ∈ loaded)
        then (ReloadExtension, "<:pln:1002153692268593173>")
        else (LoadExtension, "<:lopn:1002153688812490842>") in
      r ← attempt Py.is_Exception (call (method extension));
      paginator ←
        match r with
        | inl exc =>
            let traceback_data := Py.concat_strings (Py.exn_format exc 1) in
            add_line (icon +:+ " `" +:+ extension +:+ "`" +:+ nl +:+ "```py"
                      +:+ nl +:+ traceback_data +:+ nl +:+ "```")
                     true paginator
        | inr _ => add_line (icon +:+ " `" +:+ extension +:+ "`") true paginator
        end;
      load_each rest paginator
  end.

Definition jsk_load (ctx : ContextA) (extensions : list (list string))
  : M F unit :=
  if not_allowed ctx then mret tt else
  let paginator := pag_new in
  (* 'jsk reload' on its own just reloads jishaku *)
  let extensions :=
    if String.eqb (invoked_with ctx) "reload" && Py.falsy extensions
    then [["jishaku"]]
    else extensions in
  paginator ← load_each (concat extensions) paginator;
  send_pages (pag_pages paginator).

(** *** unload *)

(** The loop of [jsk_unload] over the chained extension names. *)
Fixpoint unload_each (icon : string) (names : list string) (paginator : pag)
  : M F pag :=
  match names with
  | [] => mret paginator
  | extension :: rest =>
      r ← attempt Py.is_Exception (call (UnloadExtension extension));
      paginator ←
        match r with
        | inl exc =>
            let traceback_data := Py.concat_strings (Py.exn_format exc 1) in
            add_line (icon +:+ " `" +:+ extension +:+ "`" +:+ nl +:+ "```py"
                      +:+ nl +:+ traceback_data +:+ nl +:+ "```")
                     true paginator
        | inr _ => add_line (icon +:+ " `" +:+ extension +:+ "`") true paginator
        end;
      unload_each icon rest paginator
  end.

Definition jsk_unload (ctx : ContextA) (extensions : list (list string))
  : M F unit :=
  if not_allowed ctx then mret tt else
  let paginator := pag_new in
  let icon := "<:Info:1002155559098781787>" in
  paginator ← unload_each icon (concat extensions) paginator;
  send_pages (pag_pages paginator).

(** *** shutdown *)

Definition jsk_shutdown (ctx : ContextA) : M F unit :=
  if not_allowed ctx then mret tt else
  _ ← call (Send "Logging out now <:bot:1002153704645988372>");
  call Close.

(** *** jskinvite *)

Definition jsk_invite (ctx : ContextA) (perms : list string) : M F unit :=
  application_info_id ← call ApplicationInfo;
  _ ← call (Send ("Link to invite this bot:" +:+ nl
                  +:+ "https://discordapp.com/oauth2/authorize?client_id="
                  +:+ Py.str_int application_info_id
                  +:+ "&permissions=8&scope=bot"));
  mret tt.

(** *** rtt *)

Definition times_100 (x : float) : float := PrimFloat.mul x 100%float.

Definition float_of_len {A} (l : list A) : float :=
  PrimFloat.of_uint63 (Uint63.of_Z (Z.of_nat (length l))).

(** The text shown before a reading is taken, up to the websocket line. *)
Definition rtt_text (api_readings : list float) : string :=
  let text := "Calculating round-trip time..." +:+ nl +:+ nl in
  let text :=
    text +:+ Py.join nl
      (imap (fun index reading =>
               "Reading " +:+ Py.str_int (Z.of_nat index + 1) +:+ ": "
               +:+ format_2f (times_100 reading) +:+ "ms")
            api_readings) in
  match api_readings with
  | _ :: _ =>
      let '(average, stddev) := mean_stddev api_readings in
      text +:+ nl +:+ nl +:+ "Average: " +:+ format_2f (times_100 average)
      +:+ " ± " +:+ format_2f (times_100 stddev) +:+ "ms"
  | [] => text +:+ nl +:+ nl +:+ "No readings yet."
  end.

(** [for _ in range(n)] of [jsk_rtt], with its three local variables. *)
Fixpoint rtt_loop (n : nat) (message : option message)
    (api_readings websocket_readings : list float) : M F unit :=
  match n with
  | O => mret tt
  | S n' =>
      let text := rtt_text api_readings in
      text ←
        match websocket_readings with
        | _ :: _ =>
            let average :=
              PrimFloat.div (py_sum websocket_readings)
                            (float_of_len websocket_readings) in
            mret (text +:+ nl +:+ "Websocket latency: "
                  +:+ format_2f (times_100 average) +:+ "ms")
        | [] =>
            latency ← get Latency;
            mret (text +:+ nl +:+ "Websocket latency: "
                  +:+ format_2f (times_100 latency) +:+ "ms")
        end;
      sent ←
        match message with
        | Some m =>
            before ← call PerfCounter;
            _ ← call (Edit m text);
            after ← call PerfCounter;
            mret (m, api_readings ++ [PrimFloat.sub after before])
        | None =>
            before ← call PerfCounter;
            m ← call (Send text);
            after ← call PerfCounter;
            mret (m, api_readings ++ [PrimFloat.sub after before])
        end;
      latency ← get Latency;
      websocket_readings ←
        (if PrimFloat.ltb 0%float latency
         then latency ← get Latency; mret (websocket_readings ++ [latency])
         else mret websocket_readings);
      rtt_loop n' (Some sent.1) sent.2 websocket_readings
  end.

Definition jsk_rtt (ctx : ContextA) : M F unit :=
  if not_allowed ctx then mret tt else
  rtt_loop 6 None [] [].

(** *** sync *)

(** One round of [(?:\d+\.[a-z]+\.?)]: the text it takes and what is left.
    Each piece is greedy and nothing it gives back could let the round go
    on, so no backtracking is needed.  The digits are those of the
    interpreter; [[a-z]] is the ASCII range. *)
Definition slash_error_item (s : string) : option (string * string) :=
  let '(digits, r1) := re_digits s in
  match digits, r1 with
  | String _ _, String "." r2 =>
      let '(letters, r3) := Py.span Py.is_lower r2 in
      match letters, r3 with
      | String _ _, String "." r4 =>
          Some (digits +:+ "." +:+ letters +:+ ".", r4)
      | String _ _, _ => Some (digits +:+ "." +:+ letters, r3)
      | EmptyString, _ => None
      end
  | _, _ => None
  end.

(** The further rounds of the [+]: as many as match. *)
Fixpoint slash_error_items (fuel : nat) (s : string) : string :=
  match fuel with
  | O => ""
  | S fuel' =>
      match slash_error_item s with
      | Some (m, r) => m +:+ slash_error_items fuel' r
      | None => ""
      end
  end.

(** [SLASH_COMMAND_ERROR.match(line)] for
    [re.compile(r"In ((?:\d+\.[a-z]+\.?)+)")]: [group(1)] when the line
    matches. *)
Definition SLASH_COMMAND_ERROR (line : string) : option string :=
  match Py.strip_prefix "In " line with
  | Some r =>
      match slash_error_item r with
      | Some (m, r') => Some (m +:+ slash_error_items (String.length r') r')
      | None => None
      end
  | None => None
  end.

Definition MAGNET : string := "🧲".
Definition WARNING_SIGN : string := "⚠".
Definition SATELLITE_ANTENNA : string := "📡".

(** [if pool:] a list that is there and not empty. *)
Definition pool_items (pool : option lref) : M F (list cref) :=
  match pool with
  | Some r => read_list r
  | None => mret []
  end.

(** [for part_index in range(0, len(parts), 2)] of the diagnosis, over the
    parts at even positions, with [pool], [selected_command] and [name]. *)
Fixpoint walk (indices : list string) (pool : option lref)
    (selected_command : option cref) (name : string)
  : M F (option cref * string) :=
  match indices with
  | [] => mret (selected_command, name)
  | part :: rest =>
      index ← lift (py_int part);
      items ← pool_items pool;
      match items with
      | _ :: _ =>
          (* If the pool exists, this should be a subcommand *)
          selected ← lift (Py.getitem items index);
          node ← read_cmd selected;
          let name := name +:+ cmd_name node +:+ " " in
          pool ←
            match cmd_children node with
            | Some children => r ← alloc_list (children.*2); mret (Some r)
            | None => mret None
            end;
          walk rest pool (Some selected) name
      | [] =>
          (* Otherwise, the pool has been exhausted, and this likely is
             referring to a parameter *)
          params ←
            match selected_command with
            | None => raise (Py.AttributeError "NoneType" "_params")
            | Some c =>
                node ← read_cmd c;
                match cmd_params node with
                | Some keys => mret keys
                | None => raise (Py.AttributeError (cmd_class node) "_params")
                end
            end;
          param ← lift (Py.getitem params index);
          walk rest pool selected_command
               (name +:+ "(parameter: " +:+ param +:+ ") ")
      end
  end.

(** What the diagnosis inspects for the command it settled on. *)
Definition to_inspect (node : command_node) : inspect_target :=
  match cmd_callback node with
  | Some callback => InspectCallback callback
  | None => if cmd_is_cog node then InspectType (cmd_class node)
            else InspectNone
  end.

(** The [try] block run for one line of the error text: the lines it adds
    after the line itself. *)
Definition diagnose_try (slash_commands : lref) (line : string)
  : M F (list string) :=
  match SLASH_COMMAND_ERROR line with
  | None => mret []
  | Some group_1 =>
      let parts := Py.split "." group_1 in
      _ ← (if (Z.of_nat (length parts) mod 2 =? 0) then mret tt
           else raise Py.AssertionError);
      found ← walk (Py.evens parts) (Some slash_commands) None "";
      let '(selected_command, name) := found in
      match selected_command with
      | None => mret []
      | Some c =>
          node ← read_cmd c;
          r ← attempt Py.is_Exception
                (file_loc ← call (FileLocInspection (to_inspect node));
                 line_span ← call (LineSpanInspection (to_inspect node));
                 mret (MAGNET +:+ " This is likely caused by: `" +:+ name
                       +:+ "` at " +:+ file_loc +:+ ":" +:+ line_span));
          match r with
          | inr text => mret [text]
          | inl _ =>
              mret [MAGNET +:+ " This is likely caused by: `" +:+ name
                    +:+ "`"]
          end
      end
  end.

Definition couldnt_determine (diag_error : Py.exn) : string :=
  MAGNET +:+ " Couldn't determine cause: " +:+ Py.exn_name diag_error
  +:+ ": " +:+ Py.exn_str diag_error.

(** One turn of [for line in str(error).split("\n")]: what it appends to
    [error_lines]. *)
Definition diagnose_line (slash_commands : lref) (line : string)
  : M F (list string) :=
  r ← attempt Py.is_Exception (diagnose_try slash_commands line);
  match r with
  | inr added => mret (line :: added)
  | inl diag_error => mret [line; couldnt_determine diag_error]
  end.

Fixpoint diagnose (slash_commands : lref) (lines : list string)
  : M F (list string) :=
  match lines with
  | [] => mret []
  | line :: rest =>
      added ← diagnose_line slash_commands line;
      more ← diagnose slash_commands rest;
      mret (added ++ more)
  end.

(** [guilds_set]: [None] is the global target. *)
Definition target_set : Type := gset (option Z).

(** [for target in targets]: the set built, or [None] when the handler has
    sent its notice and returned. *)
Fixpoint parse_targets (ctx : ContextA) (targets : list string)
    (guilds_set : target_set) : M F (option target_set) :=
  match targets with
  | [] => mret (Some guilds_set)
  | target :: rest =>
      if String.eqb target "$" then
        parse_targets ctx rest (guilds_set ∪ {[ None ]})
      else if String.eqb target "*" then
        keys ← get GuildCommandKeys;
        parse_targets ctx rest (guilds_set ∪ list_to_set (Some <$> keys))
      else if String.eqb target "." then
        match guild ctx with
        | Some guild_id => parse_targets ctx rest (guilds_set ∪ {[ Some guild_id ]})
        | None =>
            _ ← call (Send "Can't sync guild commands without guild information");
            mret None
        end
      else
        match py_int target with
        | inr guild_id => parse_targets ctx rest (guilds_set ∪ {[ Some guild_id ]})
        | inl error =>
            if Py.is_ValueError error
            then raise (Py.BadArgument (target +:+ " is not a valid guild ID"))
            else raise error
        end
  end.

(** The sort key [(g is not None, g)], compared as Python compares tuples. *)
Definition guild_key_le (a b : option Z) : Prop :=
  match a, b with
  | None, _ => True
  | Some _, None => False
  | Some x, Some y => x ≤ y
  end.

#[export] Instance guild_key_le_dec a b : Decision (guild_key_le a b).
Proof. destruct a, b; simpl; apply _. Defined.

(** [guilds = list(guilds_set); guilds.sort(key=...)] *)
Definition sorted_guilds (guilds_set : target_set) : list (option Z) :=
  merge_sort guild_key_le (elements guilds_set).

(** [if guild:] on an optional identifier. *)
Definition guild_truthy (guild : option Z) : bool :=
  match guild with
  | Some g => negb (g =? 0)
  | None => false
  end.

(** [[command.to_dict() for command in slash_commands]] *)
Fixpoint to_dicts (commands : list cref) : M F (list json) :=
  match commands with
  | [] => mret []
  | c :: rest =>
      node ← read_cmd c;
      more ← to_dicts rest;
      mret (cmd_to_dict node :: more)
  end.

(** The body of [for guild in guilds].  Only the number of entries of the
    API's answer is used; wrapping them in [AppCommand] is taken to
    succeed. *)
Definition sync_guild (guild : option Z) (paginator : pag) : M F pag :=
  slash_commands ← get (AllCommands (if guild_truthy guild then guild else None));
  commands ← read_list slash_commands;
  payload ← to_dicts commands;
  application_id ← get ApplicationId;
  r ← attempt Py.is_HTTPException
        match guild with
        | None => call (BulkUpsertGlobal application_id payload)
        | Some g => call (BulkUpsertGuild application_id g payload)
        end;
  match r with
  | inl error =>
      (* It's diagnosis time *)
      error_lines ← diagnose slash_commands (Py.split "010" (Py.exn_str error));
      let error_text := Py.join nl error_lines in
      match guild with
      | Some g =>
          if guild_truthy guild then
            add_line (WARNING_SIGN +:+ " `" +:+ Py.str_int g +:+ "`: "
                      +:+ error_text) true paginator
          else
            add_line (WARNING_SIGN +:+ " Global: " +:+ error_text)
                     true paginator
      | None =>
          add_line (WARNING_SIGN +:+ " Global: " +:+ error_text) true paginator
      end
  | inr synced =>
      let n := Py.str_int (Z.of_nat (length synced)) in
      match guild with
      | Some g =>
          if guild_truthy guild then
            add_line (SATELLITE_ANTENNA +:+ " `" +:+ Py.str_int g
                      +:+ "` Synced " +:+ n +:+ " guild commands")
                     true paginator
          else
            add_line (SATELLITE_ANTENNA +:+ " Synced " +:+ n
                      +:+ " global commands") true paginator
      | None =>
          add_line (SATELLITE_ANTENNA +:+ " Synced " +:+ n
                    +:+ " global commands") true paginator
      end
  end.

Fixpoint sync_each (guilds : list (option Z)) (paginator : pag) : M F pag :=
  match guilds with
  | [] => mret paginator
  | guild :: rest =>
      paginator ← sync_guild guild paginator;
      sync_each rest paginator
  end.

(** [if not self.bot.application_id] *)
Definition application_id_missing (application_id : option Z) : bool :=
  match application_id with
  | Some n => n =? 0
  | None => true
  end.

Definition jsk_sync (ctx : ContextA) (targets : list string) : M F unit :=
  if not_allowed ctx then mret tt else
  application_id ← get ApplicationId;
  if application_id_missing application_id then
    _ ← call (Send "Cannot sync when application info not fetched");
    mret tt
  else
  let paginator := pag_new in
  parsed ← parse_targets ctx targets ∅;
  match parsed with
  | None => mret tt
  | Some guilds_set =>
      let guilds_set :=
        if Py.falsy targets then guilds_set ∪ {[ None ]} else guilds_set in
      let guilds := sorted_guilds guilds_set in
      paginator ← sync_each guilds paginator;
      send_pages (pag_pages paginator)
  end.

End ManagementFeature.

(** ** Reading a trace *)

(** The three extension operations. *)
Inductive ext_method : Type := Load | Reload | Unload.

(** An extension operation that was tried: which, on what, how it ended. *)
Definition ext_attempt : Type := (ext_method * string * Py.result unit)%type.

Definition ext_event {X} (c : op X) : Py.result X -> option ext_attempt :=
  match c in op X return Py.result X -> option ext_attempt with
  | LoadExtension n => fun r => Some (Load, n, r)
  | ReloadExtension n => fun r => Some (Reload, n, r)
  | UnloadExtension n => fun r => Some (Unload, n, r)
  | _ => fun _ => None
  end.

(** The extension operations of a trace, in order. *)
Definition attempts (t : list event) : list ext_attempt :=
  omap (fun ev => match ev with
                  | Called c r => ext_event c r
                  | Line _ _ _ => None
                  end) t.

(** The lines handed to the paginator, in order. *)
Definition lines (t : list event) : list string :=
  omap (fun ev => match ev with
                  | Line l _ _ => Some l
                  | Called _ _ => None
                  end) t.

Definition send_content {X} (c : op X) : option string :=
  match c with
  | Send content => Some content
  | _ => None
  end.

(** The messages sent (or tried to be sent) to the channel, in order. *)
Definition sends (t : list event) : list string :=
  omap (fun ev => match ev with
                  | Called c _ => send_content c
                  | Line _ _ _ => None
                  end) t.

Definition upsert_target {X} (c : op X) : option (option Z) :=
  match c with
  | BulkUpsertGlobal _ _ => Some None
  | BulkUpsertGuild _ g _ => Some (Some g)
  | _ => None
  end.

(** The command syncs performed, in order: [None] is the global one. *)
Definition upserts (t : list event) : list (option Z) :=
  omap (fun ev => match ev with
                  | Called c _ => upsert_target c
                  | Line _ _ _ => None
                  end) t.

(** Which [except] clause of the file stands around a call. *)
Definition caught_around {X} (c : op X) : Py.exn -> bool :=
  match c with
  | LoadExtension _ | ReloadExtension _ | UnloadExtension _ => Py.is_Exception
  | FileLocInspection _ | LineSpanInspection _ => Py.is_Exception
  | BulkUpsertGlobal _ _ | BulkUpsertGuild _ _ _ => Py.is_HTTPException
  | _ => fun _ => false
  end.

(** An event that went well, or failed in a way the file catches. *)
Definition handled (ev : event) : bool :=
  match ev with
  | Called c (inr _) => true
  | Called c (inl e) => caught_around c e
  | Line _ _ (inr _) => true
  | Line _ _ (inl _) => false
  end.

Definition is_send {X} (c : op X) : bool :=
  match c with
  | Send _ => true
  | _ => false
  end.

(** An event that does not cut the loop over the extensions short: it is
    handled, or it is a send (the sends come after the loop). *)
Definition absorbed (ev : event) : bool :=
  match ev with
  | Called c _ => is_send c || handled ev
  | Line _ _ _ => handled ev
  end.

(** A run in which every event is handled. *)
Definition settled (t : list event) : Prop :=
  Forall (λ ev, handled ev = true) t.

(** [BadArgument] for one of the targets that [int] refuses. *)
Definition bad_argument_for {IN : Interpreter} (targets : list string)
    (e : Py.exn) : Prop :=
  ∃ target, target ∈ targets ∧ (∃ error, py_int target = inl error)
            ∧ e = Py.BadArgument (target +:+ " is not a valid guild ID").

(** The icon the report line of an extension starts with. *)
Definition icon_of (m : ext_method) : string :=
  match m with
  | Load => "<:lopn:1002153688812490842>"
  | Reload => "<:pln:1002153692268593173>"
  | Unload => "<:Info:1002155559098781787>"
  end.

(** The line reported for an extension: the bare one on success, the one
    with the formatted exception (trace limited to one frame) on failure. *)
Definition report_line (a : ext_attempt) : string :=
  let '(m, extension, r) := a in
  match r with
  | inr _ => icon_of m +:+ " `" +:+ extension +:+ "`"
  | inl exc =>
      icon_of m +:+ " `" +:+ extension +:+ "`" +:+ nl +:+ "```py" +:+ nl
      +:+ Py.concat_strings (Py.exn_format exc 1) +:+ nl +:+ "```"
  end.

(** The framework call behind an extension operation. *)
Definition method_op (m : ext_method) : string → op unit :=
  match m with
  | Load => LoadExtension
  | Reload => ReloadExtension
  | Unload => UnloadExtension
  end.

(** The name an attempt was made on. *)
Definition attempt_name (a : ext_attempt) : string := a.1.2.

(** The names [jsk_load] works through: a bare [reload] means jishaku. *)
Definition load_names (ctx : ContextA) (extensions : list (list string))
  : list string :=
  if String.eqb (invoked_with ctx) "reload" && Py.falsy extensions
  then ["jishaku"]
  else concat extensions.

(** The invite message for an application id. *)
Definition invite_message (application_id : Z) : string :=
  "Link to invite this bot:" +:+ nl
  +:+ "https://discordapp.com/oauth2/authorize?client_id="
  +:+ Py.str_int application_id +:+ "&permissions=8&scope=bot".

(** A store in which everything that was there is still there: lists below
    [st_next] and all command nodes are as before. *)
Definition untouched (s s' : store) : Prop :=
  (st_next s ≤ st_next s')%nat
  ∧ (∀ r, (r < st_next s)%nat → st_lists s' r = st_lists s r)
  ∧ (∀ c, st_cmds s' c = st_cmds s c).

(** A sync target that stops the parsing: [.] outside a guild, or a word
    that is no sentinel and that [int] refuses. *)
Definition bad_target {IN : Interpreter} (ctx : ContextA) (target : string)
  : bool :=
  if String.eqb target "$" then false
  else if String.eqb target "*" then false
  else if String.eqb target "." then
         match guild ctx with Some _ => false | None => true end
  else match py_int target with inr _ => false | inl _ => true end.

(** ** A small bot to run the handlers on *)

Module Demo.

(** The bot's state: the extensions loaded, those that refuse to load, the
    application id, how many messages were sent, the text of the HTTP error
    the API answers a sync with (if any) and the guilds with commands. *)
Record bot : Type := Bot {
  loaded : list string;
  broken : list string;
  application_id : option Z;
  sent : nat;
  http_error : option string;
  guild_keys : list Z
}.

Definition ExtensionFailed (name : string) : Py.exn :=
  Py.Exn Py.Plain "ExtensionFailed"
    ("Extension '" +:+ name +:+ "' raised an error")
    (fun limit =>
       ["Traceback (most recent call last):" +:+ nl]
       ++ replicate limit ("  File <frame>" +:+ nl)
       ++ ["ExtensionFailed: Extension '" +:+ name +:+ "' raised an error"
           +:+ nl]).

Definition ExtensionNotLoaded (name : string) : Py.exn :=
  Py.Exn Py.Plain "ExtensionNotLoaded"
    ("Extension '" +:+ name +:+ "' has not been loaded.")
    (fun limit =>
       ["Traceback (most recent call last):" +:+ nl]
       ++ replicate limit ("  File <frame>" +:+ nl)
       ++ ["ExtensionNotLoaded: Extension '" +:+ name
           +:+ "' has not been loaded." +:+ nl]).

Definition ApiError (text : string) : Py.exn :=
  Py.Exn Py.HTTPException "HTTPException" text
    (fun _ => ["HTTPException: " +:+ text +:+ nl]).

Definition with_bot (w : world bot) (b : bot) : world bot :=
  World (w_store w) b.

Definition demo_call (X : Type) (c : op X) (w : world bot)
  : world bot * Py.result X :=
  let b := w_fw w in
  match c in op X return world bot * Py.result X with
  | Send _ =>
      (with_bot w (Bot (loaded b) (broken b) (application_id b) (S (sent b))
                       (http_error b) (guild_keys b)),
       inr (sent b))
  | Edit _ _ => (w, inr tt)
  | LoadExtension n =>
      if bool_decide (n ∈ broken b) then (w, inl (ExtensionFailed n))
      else (with_bot w (Bot (n :: loaded b) (broken b) (application_id b)
                            (sent b) (http_error b) (guild_keys b)),
            inr tt)
  | ReloadExtension n =>
      if bool_decide (n ∈ broken b) then (w, inl (ExtensionFailed n))
      else (w, inr tt)
  | UnloadExtension n =>
      if bool_decide (n ∈ loaded b)
      then (with_bot w (Bot (filter (λ x, x ≠ n) (loaded b)) (broken b)
                            (application_id b) (sent b) (http_error b)
                            (guild_keys b)),
            inr tt)
      else (w, inl (ExtensionNotLoaded n))
  | Close => (w, inr tt)
  | ApplicationInfo => (w, inr (default 0 (application_id b)))
  | BulkUpsertGlobal _ payload | BulkUpsertGuild _ _ payload =>
      match http_error b with
      | Some text => (w, inl (ApiError text))
      | None => (w, inr payload)
      end
  | PerfCounter => (w, inr 1%float)
  | FileLocInspection _ => (w, inr "cogs/config.py")
  | LineSpanInspection _ => (w, inr "10-20")
  end.

Definition demo_get (X : Type) (a : attr X) (w : world bot) : X :=
  let b := w_fw w in
  match a in attr X return X with
  | Extensions => list_to_set (loaded b)
  | ApplicationId => application_id b
  | Latency => 0.5%float
  | GuildCommandKeys => guild_keys b
  | AllCommands _ => 0%nat
  end.

Definition framework : Framework bot := Build_Framework bot demo_call demo_get.

(** A paginator in the manner of discord.py's, with its 2000-character
    pages: closed pages, the lines of the open page and its size. *)
Record pages_state : Type := Pages {
  closed : list string;
  current : list string;
  count : nat
}.

Definition LineTooLong : Py.exn :=
  Py.builtin_exn Py.Plain "RuntimeError" "Line exceeds maximum page size 1998".

Definition demo_add_line (line : string) (empty : bool) (p : pages_state)
  : Py.result pages_state :=
  if (1998 <? String.length line)%nat
  then inl LineTooLong
  else
    let p :=
      if (2000 <? count p + String.length line + 1)%nat
      then Pages (closed p ++ [Py.join nl (current p ++ [""])]) [""] 1%nat
      else p in
    let p := Pages (closed p) (current p ++ [line])
                   (count p + String.length line + 1)%nat in
    inr (if empty then Pages (closed p) (current p ++ [""]) (count p + 1)%nat
         else p).

Definition demo_pages (p : pages_state) : list string :=
  if (1 <? length (current p))%nat
  then closed p ++ [Py.join nl (current p ++ [""])]
  else closed p.

Definition paginator : Paginator :=
  Build_Paginator pages_state (Pages [] [""] 1%nat) demo_add_line demo_pages.

Definition numerics : Numerics :=
  Build_Numerics (fun _ => "0.00") (fold_right PrimFloat.add 0%float)
                 (fun _ => (0%float, 0%float)).

(** The interpreter of the demo knows two rows of the Unicode tables: the
    ASCII digits and the Arabic-Indic ones, U+0660 to U+0669, which UTF-8
    writes as the byte 217 followed by a byte from 160 to 169. *)
Definition is_arabic_indic (c d : ascii) : bool :=
  (nat_of_ascii c =? 217)%nat
  && (160 <=? nat_of_ascii d)%nat && (nat_of_ascii d <=? 169)%nat.

(** The longest run of digits at the head of a text, and the rest. *)
Fixpoint demo_digits (s : string) : string * string :=
  match s with
  | String c r =>
      if Py.is_digit c then
        let '(a, b) := demo_digits r in (String c a, b)
      else
        match r with
        | String d r' =>
            if is_arabic_indic c d then
              let '(a, b) := demo_digits r' in (String c (String d a), b)
            else (EmptyString, s)
        | EmptyString => (EmptyString, s)
        end
  | EmptyString => (EmptyString, EmptyString)
  end.

(** A text with its Arabic-Indic digits written in ASCII. *)
Fixpoint to_ascii_digits (s : string) : string :=
  match s with
  | String c r =>
      match r with
      | String d r' =>
          if is_arabic_indic c d
          then String (ascii_of_nat (nat_of_ascii d - 112)) (to_ascii_digits r')
          else String c (to_ascii_digits r)
      | EmptyString => s
      end
  | EmptyString => EmptyString
  end.

(** [int(s)]: the literal is read with its digits in ASCII; the error
    shows the text as it was given. *)
Definition demo_int (s : string) : Py.result Z :=
  match Py.ascii_int (to_ascii_digits s) with
  | Some n => inr n
  | None => inl (Py.int_ValueError s)
  end.

Lemma demo_int_raises (s : string) (e : Py.exn) :
  demo_int s = inl e → Py.exn_kind_of e = Py.ValueError.
Proof.
  unfold demo_int. destruct (Py.ascii_int _); [discriminate|].
  intros [= <-]. reflexivity.
Qed.

Lemma demo_digits_split (s a b : string) :
  demo_digits s = (a, b) → s = a +:+ b.
Proof.
  revert a b.
  enough (H : (∀ a b, demo_digits s = (a, b) → s = a +:+ b)
              ∧ ∀ c a b, demo_digits (String c s) = (a, b) →
                         String c s = a +:+ b) by apply H.
  induction s as [|x s [IH1 IH2]].
  - split.
    + intros a b [= <- <-]. reflexivity.
    + intros c a b. cbn. destruct (Py.is_digit c); intros [= <- <-];
        reflexivity.
  - split; [exact (IH2 x)|]. intros c a b.
    change (demo_digits (String c (String x s)))
      with (if Py.is_digit c then
              let '(a, b) := demo_digits (String x s) in (String c a, b)
            else if is_arabic_indic c x then
                   let '(a, b) := demo_digits s in (String c (String x a), b)
                 else (EmptyString, String c (String x s))).
    destruct (Py.is_digit c).
    + destruct (demo_digits (String x s)) as [a' b'] eqn:E.
      intros [= <- <-].
      change (String c (String x s) = String c (a' +:+ b')).
      f_equal. now apply IH2.
    + destruct (is_arabic_indic c x).
      * destruct (demo_digits s) as [a' b'] eqn:E. intros [= <- <-].
        change (String c (String x s) = String c (String x (a' +:+ b'))).
        do 2 f_equal. now apply IH1.
      * intros [= <- <-]. reflexivity.
Qed.

Definition interpreter : Interpreter :=
  Build_Interpreter demo_int demo_int_raises demo_digits demo_digits_split.

(** The same bot while the task running the command is being cancelled:
    every extension operation raises [asyncio.CancelledError], which is a
    [BaseException] and no [Exception]. *)
Definition CancelledError : Py.exn :=
  Py.builtin_exn Py.BaseOnly "CancelledError" "".

Definition is_extension_op {X} (c : op X) : bool :=
  match c with
  | LoadExtension _ | ReloadExtension _ | UnloadExtension _ => true
  | _ => false
  end.

Definition cancelled_call (X : Type) (c : op X) (w : world bot)
  : world bot * Py.result X :=
  if is_extension_op c then (w, inl CancelledError) else demo_call X c w.

Definition cancelled : Framework bot :=
  Build_Framework bot cancelled_call demo_get.

(** Two top-level commands: the group [config] with the subcommand [set],
    and the command [ping]. *)
Definition commands (c : cref) : command_node :=
  match c with
  | 0%nat => CommandNode "config" "Group" (Some [("set", 2%nat)]) None None
                         false "{config}"
  | 1%nat => CommandNode "ping" "Command" None (Some ["target"])
                         (Some "ping_callback") false "{ping}"
  | _ => CommandNode "set" "Command" None (Some ["key"; "value"])
                     (Some "set_callback") false "{set}"
  end.

Definition objects : store :=
  Store 1%nat (fun r => match r with 0%nat => [0%nat; 1%nat] | _ => [] end)
        commands.

Definition bot0 : bot :=
  Bot ["jishaku"; "cogs.music"] ["cogs.broken"] (Some 4242) 0%nat None [7; 3].

Definition world0 : world bot := World objects bot0.

(** The same bot when the API rejects a sync. *)
Definition world_rejecting (text : string) : world bot :=
  World objects
        (Bot ["jishaku"] [] (Some 4242) 0%nat (Some text) [7; 3]).

(** A name of 1960 characters, too long for any line naming it to fit a
    page, and a bot for which it is an extension that refuses to load. *)
Definition long_name : string :=
  Py.concat_strings (replicate 245 "cogs.big").

Definition world_long : world bot :=
  World objects (Bot ["jishaku"] [long_name] (Some 4242) 0%nat None [7; 3]).

Definition owner : ContextA := Ctx 271140080188522497 "load" (Some 55).
Definition owner_reload : ContextA := Ctx 982960716413825085 "reload" None.
Definition stranger : ContextA := Ctx 1234 "jskinvite" (Some 55).

End Demo.


(** ** How runs are put together *)

Section Pages.
Context {F : Type} {PG : Paginator}.

(** The paginator after [add_line(line, empty=True)] for each line in
    turn. *)
Fixpoint add_lines (ls : list string) (p : pag) : Py.result pag :=
  match ls with
  | [] => inr p
  | line :: rest =>
      match pag_add_line line true p with
      | inl e => inl e
      | inr p' => add_lines rest p'
      end
  end.

(** Every event lets the loop over the extensions go on. *)
Definition all_absorbed (t : list event) : Prop :=
  Forall (λ ev, absorbed ev = true) t.

(** What a loop over the extensions leaves in the trace. *)
Definition reported (names : list string) (p : pag) (r : run F pag) : Prop :=
  attempt_name <$> attempts (trace r) = names
  ∧ lines (trace r) = report_line <$> attempts (trace r)
  ∧ sends (trace r) = []
  ∧ ∃ p', outcome r = inr p' ∧ add_lines (lines (trace r)) p = inr p'.

(** What a run of load/reload or unload over [names] leaves in the trace. *)
Definition report_sent (names : list string) (r : run F unit) : Prop :=
  attempt_name <$> attempts (trace r) = names
  ∧ lines (trace r) = report_line <$> attempts (trace r)
  ∧ ∃ p, add_lines (lines (trace r)) pag_new = inr p
         ∧ sends (trace r) `prefix_of` pag_pages p
         ∧ (outcome r = inr tt → sends (trace r) = pag_pages p).

End Pages.

Section Runs.
Context {F : Type} {FW : Framework F}.

(** Every event of every run of [m] satisfies [P]. *)
Definition emits_only {R} (P : event → Prop) (m : M F R) : Prop :=
  ∀ w, Forall P (trace (m w)).

(** No run of [m] changes what was in the object store. *)
Definition keeps_store {R} (m : M F R) : Prop :=
  ∀ w, untouched (w_store w) (w_store (final (m w))).

(** When all events of a run of [m] are handled, whatever [m] raises
    satisfies [P]. *)
Definition raises_within {R} (P : Py.exn → Prop) (m : M F R) : Prop :=
  ∀ w e, settled (trace (m w)) → outcome (m w) = inl e → P e.

(** The framework leaves the object store alone. *)
Definition calls_keep_store : Prop :=
  ∀ X (c : op X) w, untouched (w_store w) (w_store (fw_call c w).1).

Definition not_upsert (ev : event) : Prop := upserts [ev] = [].

End Runs.

Section RunLemmas.
Context {F : Type} {FW : Framework F} {PG : Paginator}.

Lemma bind_inl {A B} (m : M F A) (k : A → M F B) w e :
  outcome (m w) = inl e →
  (m ≫= k) w = Run (trace (m w)) (final (m w)) (inl e).
Proof.
  intros H. unfold mbind, M_bind, bind. now rewrite H.
Qed.

Lemma bind_inr {A B} (m : M F A) (k : A → M F B) w x :
  outcome (m w) = inr x →
  (m ≫= k) w = Run (trace (m w) ++ trace (k x (final (m w))))
                   (final (k x (final (m w))))
                   (outcome (k x (final (m w)))).
Proof.
  intros H. unfold mbind, M_bind, bind. now rewrite H.
Qed.

Lemma bind_ret {A B} (x : A) (k : A → M F B) w :
  (mret x ≫= k) w = k x w.
Proof.
  unfold mbind, M_bind, bind, mret, M_ret, ret. simpl. now destruct (k x w).
Qed.

Lemma bind_get {X B} (a : attr X) (k : X → M F B) w :
  (get a ≫= k) w = k (fw_get a w) w.
Proof.
  unfold mbind, M_bind, bind, get. simpl. now destruct (k _ w).
Qed.

Lemma bind_read_list {B} r (k : list cref → M F B) w :
  (read_list r ≫= k) w = k (st_lists (w_store w) r) w.
Proof.
  unfold mbind, M_bind, bind, read_list. simpl. now destruct (k _ w).
Qed.

Lemma bind_read_cmd {B} c (k : command_node → M F B) w :
  (read_cmd c ≫= k) w = k (st_cmds (w_store w) c) w.
Proof.
  unfold mbind, M_bind, bind, read_cmd. simpl. now destruct (k _ w).
Qed.

Lemma bind_raise {A B} e (k : A → M F B) w :
  (raise e ≫= k) w = Run [] w (inl e).
Proof. reflexivity. Qed.

Lemma call_run {X} (c : op X) w :
  call c w = Run [Called c (fw_call c w).2] (fw_call c w).1 (fw_call c w).2.
Proof. unfold call. now destruct (fw_call c w). Qed.

Lemma upserts_app t1 t2 : upserts (t1 ++ t2) = upserts t1 ++ upserts t2.
Proof. apply omap_app. Qed.

Lemma sends_app t1 t2 : sends (t1 ++ t2) = sends t1 ++ sends t2.
Proof. apply omap_app. Qed.

Lemma lines_app t1 t2 : lines (t1 ++ t2) = lines t1 ++ lines t2.
Proof. apply omap_app. Qed.

Lemma attempts_app t1 t2 : attempts (t1 ++ t2) = attempts t1 ++ attempts t2.
Proof. apply omap_app. Qed.


(** *** Events of a run *)

Lemma emits_ret {R} P (x : R) : emits_only P (mret x : M F R).
Proof. intros w. constructor. Qed.

Lemma emits_raise {R} P e : emits_only P (raise e : M F R).
Proof. intros w. constructor. Qed.

Lemma emits_lift {R} P (r : Py.result R) : emits_only P (lift r : M F R).
Proof. destruct r; intros w; constructor. Qed.

Lemma emits_get {X} P (a : attr X) : emits_only P (get a).
Proof. intros w. constructor. Qed.

Lemma emits_read_list P r : emits_only P (read_list r : M F _).
Proof. intros w. constructor. Qed.

Lemma emits_read_cmd P c : emits_only P (read_cmd c : M F _).
Proof. intros w. constructor. Qed.

Lemma emits_alloc_list P l : emits_only P (alloc_list l : M F _).
Proof. intros w. constructor. Qed.

Lemma emits_call {X} (P : event → Prop) (c : op X) :
  (∀ r, P (Called c r)) → emits_only P (call c).
Proof. intros H w. rewrite call_run. simpl. auto. Qed.

Lemma emits_add_line (P : event → Prop) line empty p :
  (∀ r, P (Line line empty r)) → emits_only P (add_line line empty p : M F _).
Proof.
  intros H w. unfold add_line. destruct (pag_add_line _ _ _); simpl; auto.
Qed.

Lemma emits_bind {A B} P (m : M F A) (k : A → M F B) :
  emits_only P m → (∀ x, emits_only P (k x)) → emits_only P (m ≫= k).
Proof.
  intros Hm Hk w. destruct (outcome (m w)) as [e|x] eqn:E.
  - rewrite (bind_inl _ _ _ _ E). apply Hm.
  - rewrite (bind_inr _ _ _ _ E). simpl. apply Forall_app. split; [apply Hm|apply Hk].
Qed.

Lemma emits_attempt {R} P catches (m : M F R) :
  emits_only P m → emits_only P (attempt catches m).
Proof.
  intros Hm w. unfold attempt. specialize (Hm w).
  destruct (outcome (m w)) as [e|x]; [destruct (catches e)|]; exact Hm.
Qed.

Lemma emits_send_pages (P : event → Prop) pages :
  (∀ content r, P (Called (Send content) r)) →
  emits_only P (send_pages pages : M F _).
Proof.
  intros H. induction pages as [|page rest IH]; simpl.
  - apply emits_ret.
  - apply emits_bind; [apply emits_call; auto|auto].
Qed.

Lemma emits_no_upserts {R} (m : M F R) w :
  emits_only not_upsert m → upserts (trace (m w)) = [].
Proof.
  intros H. specialize (H w). induction H as [|ev t Hev _ IH]; [reflexivity|].
  change (ev :: t) with ([ev] ++ t). rewrite upserts_app, IH, Hev. reflexivity.
Qed.

(** *** The object store across a run *)

Lemma untouched_refl s : untouched s s.
Proof. repeat split; auto. Qed.

Lemma untouched_trans s1 s2 s3 :
  untouched s1 s2 → untouched s2 s3 → untouched s1 s3.
Proof.
  intros (Hn & Hl & Hc) (Hn' & Hl' & Hc'). repeat split.
  - lia.
  - intros r Hr. rewrite Hl' by lia. auto.
  - intros c. rewrite Hc'. auto.
Qed.

Lemma keeps_ret {R} (x : R) : keeps_store (mret x : M F R).
Proof. intros w. apply untouched_refl. Qed.

Lemma keeps_raise {R} e : keeps_store (raise e : M F R).
Proof. intros w. apply untouched_refl. Qed.

Lemma keeps_lift {R} (r : Py.result R) : keeps_store (lift r : M F R).
Proof. destruct r; intros w; apply untouched_refl. Qed.

Lemma keeps_get {X} (a : attr X) : keeps_store (get a).
Proof. intros w. apply untouched_refl. Qed.

Lemma keeps_read_list r : keeps_store (read_list r : M F _).
Proof. intros w. apply untouched_refl. Qed.

Lemma keeps_read_cmd c : keeps_store (read_cmd c : M F _).
Proof. intros w. apply untouched_refl. Qed.

Lemma keeps_alloc_list l : keeps_store (alloc_list l : M F _).
Proof.
  intros w. unfold alloc_list, untouched. simpl. repeat split.
  - lia.
  - intros r Hr. case_decide; [lia|reflexivity].
Qed.

Lemma keeps_call {X} (c : op X) : calls_keep_store → keeps_store (call c).
Proof. intros H w. rewrite call_run. simpl. apply H. Qed.

Lemma keeps_add_line line empty p : keeps_store (add_line line empty p : M F _).
Proof.
  intros w. unfold add_line. destruct (pag_add_line _ _ _); apply untouched_refl.
Qed.

Lemma keeps_bind {A B} (m : M F A) (k : A → M F B) :
  keeps_store m → (∀ x, keeps_store (k x)) → keeps_store (m ≫= k).
Proof.
  intros Hm Hk w. destruct (outcome (m w)) as [e|x] eqn:E.
  - rewrite (bind_inl _ _ _ _ E). apply Hm.
  - rewrite (bind_inr _ _ _ _ E). simpl.
    eapply untouched_trans; [apply Hm|apply Hk].
Qed.

Lemma keeps_attempt {R} catches (m : M F R) :
  keeps_store m → keeps_store (attempt catches m).
Proof.
  intros Hm w. unfold attempt. specialize (Hm w).
  destruct (outcome (m w)) as [e|x]; [destruct (catches e)|]; exact Hm.
Qed.

Lemma keeps_send_pages pages :
  calls_keep_store → keeps_store (send_pages pages : M F _).
Proof.
  intros H. induction pages as [|page rest IH]; simpl.
  - apply keeps_ret.
  - apply keeps_bind; [apply keeps_call; auto|auto].
Qed.

(** *** What a run may raise *)

Lemma within_ret {R} P (x : R) : raises_within P (mret x : M F R).
Proof. intros w e _ H. discriminate H. Qed.

Lemma within_raise {R} (P : Py.exn → Prop) e :
  P e → raises_within P (raise e : M F R).
Proof. intros H w e' _ E. simpl in E. now inversion E; subst. Qed.

Lemma within_lift {R} (P : Py.exn → Prop) (r : Py.result R) :
  (∀ e, r = inl e → P e) → raises_within P (lift r : M F R).
Proof.
  intros H w e _ E. destruct r as [e'|x]; simpl in E; [|discriminate].
  inversion E; subst. auto.
Qed.

Lemma within_get {X} P (a : attr X) : raises_within P (get a).
Proof. intros w e _ H. discriminate H. Qed.

Lemma within_read_list P r : raises_within P (read_list r : M F _).
Proof. intros w e _ H. discriminate H. Qed.

Lemma within_read_cmd P c : raises_within P (read_cmd c : M F _).
Proof. intros w e _ H. discriminate H. Qed.

Lemma within_alloc_list P l : raises_within P (alloc_list l : M F _).
Proof. intros w e _ H. discriminate H. Qed.

Lemma within_call {X} (P : Py.exn → Prop) (c : op X) :
  (∀ e, caught_around c e = true → P e) → raises_within P (call c).
Proof.
  intros H w e Ht E. unfold settled in Ht. rewrite call_run in Ht, E.
  simpl in *. apply Forall_cons in Ht as [Ht _]. rewrite E in Ht. simpl in Ht. auto.
Qed.

Lemma within_add_line P line empty p :
  raises_within P (add_line line empty p : M F _).
Proof.
  intros w e Ht E. unfold settled, add_line in *.
  destruct (pag_add_line _ _ _); simpl in *; [|discriminate].
  apply Forall_cons in Ht as [Ht _]. discriminate Ht.
Qed.

Lemma within_bind {A B} P (m : M F A) (k : A → M F B) :
  raises_within P m → (∀ x, raises_within P (k x)) →
  raises_within P (m ≫= k).
Proof.
  intros Hm Hk w e Ht E. unfold raises_within, settled in *.
  destruct (outcome (m w)) as [e'|x] eqn:E'.
  - rewrite (bind_inl _ _ _ _ E') in Ht, E. simpl in *.
    inversion E; subst. eapply Hm; eauto.
  - rewrite (bind_inr _ _ _ _ E') in Ht, E. simpl in *.
    apply Forall_app in Ht as [_ Ht]. eapply Hk; eauto.
Qed.

Lemma within_attempt {R} (P Q : Py.exn → Prop) catches (m : M F R) :
  raises_within Q m → (∀ e, Q e → catches e = false → P e) →
  raises_within P (attempt catches m).
Proof.
  intros Hm HQ w e Ht E. unfold attempt in *. specialize (Hm w).
  destruct (outcome (m w)) as [e'|x] eqn:E'; [|discriminate].
  destruct (catches e') eqn:C; simpl in *; [discriminate|].
  inversion E; subst. apply HQ; auto.
Qed.

Lemma within_weaken {R} (P Q : Py.exn → Prop) (m : M F R) :
  raises_within P m → (∀ e, P e → Q e) → raises_within Q m.
Proof. intros H HPQ w e Ht E. eapply HPQ, H; eauto. Qed.

Lemma within_send_pages P pages : raises_within P (send_pages pages : M F _).
Proof.
  induction pages as [|page rest IH]; simpl.
  - apply within_ret.
  - apply within_bind; [apply within_call; discriminate|auto].
Qed.

End RunLemmas.

(** ** The helpers of the handlers, property by property *)

Ltac split_match :=
  match goal with
  | |- context [match ?x with _ => _ end] =>
      first [is_var x | is_constructor x]; destruct x
  | |- context [match ?x with _ => _ end] => destruct x eqn:?
  end.

Ltac emits_step :=
  first
    [ assumption
    | apply emits_ret | apply emits_raise | apply emits_lift | apply emits_get
    | apply emits_read_list | apply emits_read_cmd | apply emits_alloc_list
    | apply emits_attempt
    | apply emits_bind; [|intros ?]
    | apply emits_call; intros; reflexivity
    | apply emits_add_line; intros; reflexivity
    | apply emits_send_pages; intros; reflexivity ].

Ltac keeps_step :=
  first
    [ assumption
    | apply keeps_ret | apply keeps_raise | apply keeps_lift | apply keeps_get
    | apply keeps_read_list | apply keeps_read_cmd | apply keeps_alloc_list
    | apply keeps_attempt
    | apply keeps_bind; [|intros ?]
    | apply keeps_call; assumption
    | apply keeps_add_line
    | apply keeps_send_pages; assumption ].

Ltac within_step :=
  first
    [ assumption
    | apply within_ret | apply within_raise; reflexivity | apply within_get
    | apply within_read_list | apply within_read_cmd | apply within_alloc_list
    | apply within_bind; [|intros ?]
    | apply within_add_line
    | apply within_send_pages
    | apply within_call; intros; first [discriminate | assumption] ].

Section Helpers.
Context {F : Type} {FW : Framework F} {PG : Paginator} {NM : Numerics}
        {IN : Interpreter}.

Lemma py_int_is_ValueError s e :
  py_int s = inl e → Py.is_ValueError e = true.
Proof.
  intros H. apply py_int_raises in H. unfold Py.is_ValueError.
  rewrite H. reflexivity.
Qed.

Lemma py_int_is_Exception s e :
  py_int s = inl e → Py.is_Exception e = true.
Proof.
  intros H. apply py_int_raises in H. unfold Py.is_Exception.
  rewrite H. reflexivity.
Qed.

Lemma emits_walk P indices : ∀ pool selected name,
  emits_only P (walk indices pool selected name : M F _).
Proof.
  induction indices as [|part rest IH]; intros pool selected name; simpl.
  - apply emits_ret.
  - unfold pool_items. repeat first [emits_step | apply IH | split_match].
Qed.

Lemma emits_diagnose_try sc line :
  emits_only not_upsert (diagnose_try sc line : M F _).
Proof.
  unfold diagnose_try.
  repeat first [emits_step | apply emits_walk | split_match].
Qed.

Lemma emits_diagnose sc ls : emits_only not_upsert (diagnose sc ls : M F _).
Proof.
  induction ls as [|line rest IH]; simpl; [apply emits_ret|].
  unfold diagnose_line.
  repeat first [emits_step | apply emits_diagnose_try | split_match].
Qed.

Lemma to_dicts_run commands (w : world F) :
  to_dicts commands w
  = Run [] w (inr ((λ c, cmd_to_dict (st_cmds (w_store w) c)) <$> commands)).
Proof.
  induction commands as [|c rest IH]; [reflexivity|].
  simpl to_dicts. rewrite bind_read_cmd.
  rewrite (bind_inr _ _ _ _ (f_equal outcome IH)), IH. reflexivity.
Qed.

Lemma emits_parse_targets ctx targets : ∀ guilds_set,
  emits_only not_upsert (parse_targets ctx targets guilds_set : M F _).
Proof.
  induction targets as [|target rest IH]; intros guilds_set; simpl.
  - apply emits_ret.
  - repeat first [emits_step | apply IH | split_match].
Qed.

(** The store. *)

Lemma keeps_walk indices : ∀ pool selected name,
  keeps_store (walk indices pool selected name : M F _).
Proof.
  induction indices as [|part rest IH]; intros pool selected name; simpl.
  - apply keeps_ret.
  - unfold pool_items. repeat first [keeps_step | apply IH | split_match].
Qed.

Lemma keeps_diagnose_try sc line :
  calls_keep_store → keeps_store (diagnose_try sc line : M F _).
Proof.
  intros H. unfold diagnose_try.
  repeat first [keeps_step | apply keeps_walk | split_match].
Qed.

Lemma keeps_diagnose sc ls :
  calls_keep_store → keeps_store (diagnose sc ls : M F _).
Proof.
  intros H. induction ls as [|line rest IH]; simpl; [apply keeps_ret|].
  unfold diagnose_line.
  repeat first [keeps_step | apply keeps_diagnose_try | split_match].
Qed.

Lemma keeps_to_dicts commands : keeps_store (to_dicts commands : M F _).
Proof. intros w. rewrite to_dicts_run. apply untouched_refl. Qed.

Lemma keeps_parse_targets ctx targets :
  calls_keep_store →
  ∀ guilds_set, keeps_store (parse_targets ctx targets guilds_set : M F _).
Proof.
  intros H. induction targets as [|target rest IH]; intros guilds_set; simpl.
  - apply keeps_ret.
  - repeat first [keeps_step | apply IH | split_match].
Qed.

Lemma keeps_sync_guild guild paginator :
  calls_keep_store → keeps_store (sync_guild guild paginator : M F _).
Proof.
  intros H. unfold sync_guild.
  repeat first [keeps_step | apply keeps_to_dicts | apply keeps_diagnose
               | split_match].
Qed.

Lemma keeps_sync_each guilds :
  calls_keep_store →
  ∀ paginator, keeps_store (sync_each guilds paginator : M F _).
Proof.
  intros H. induction guilds as [|guild rest IH]; intros paginator; simpl.
  - apply keeps_ret.
  - apply keeps_bind; [apply keeps_sync_guild; auto|auto].
Qed.

(** What may be raised. *)

Lemma getitem_raises {A} (l : list A) i e :
  Py.getitem l i = inl e → e = Py.IndexError.
Proof.
  unfold Py.getitem. repeat split_match; intros H; congruence.
Qed.

Lemma within_walk indices : ∀ pool selected name,
  raises_within (λ e, Py.is_Exception e = true)
                (walk indices pool selected name : M F _).
Proof.
  induction indices as [|part rest IH]; intros pool selected name; simpl.
  - apply within_ret.
  - apply within_bind.
    { apply within_lift. intros e. apply py_int_is_Exception. }
    intros index. unfold pool_items.
    repeat first
      [ within_step | apply IH | split_match
      | apply within_lift; intros e He; apply getitem_raises in He;
        subst e; reflexivity ].
Qed.

Lemma within_diagnose_try sc line :
  raises_within (λ e, Py.is_Exception e = true)
                (diagnose_try sc line : M F _).
Proof.
  unfold diagnose_try.
  destruct (SLASH_COMMAND_ERROR line) as [group_1|]; [|apply within_ret].
  apply within_bind.
  { destruct (_ =? _); [apply within_ret|apply within_raise; reflexivity]. }
  intros _. apply within_bind; [apply within_walk|].
  intros [[c|] name]; [|apply within_ret].
  apply within_bind; [apply within_read_cmd|]. intros node.
  apply within_bind.
  - apply within_attempt with (Q := λ e, Py.is_Exception e = true).
    + repeat within_step.
    + congruence.
  - intros [e|text]; apply within_ret.
Qed.

Lemma within_diagnose_line P sc line :
  raises_within P (diagnose_line sc line : M F _).
Proof.
  unfold diagnose_line. apply within_bind.
  - apply within_attempt with (Q := λ e, Py.is_Exception e = true).
    + apply within_diagnose_try.
    + congruence.
  - intros [e|added]; apply within_ret.
Qed.

Lemma within_diagnose P sc ls : raises_within P (diagnose sc ls : M F _).
Proof.
  induction ls as [|line rest IH]; simpl; [apply within_ret|].
  repeat first [apply within_diagnose_line | within_step].
Qed.

Lemma within_to_dicts P commands :
  raises_within P (to_dicts commands : M F _).
Proof. intros w e _. rewrite to_dicts_run. discriminate. Qed.

Lemma within_sync_guild P guild paginator :
  raises_within P (sync_guild guild paginator : M F _).
Proof.
  unfold sync_guild.
  do 4 (apply within_bind;
        [first [within_step | apply within_to_dicts]|intros ?]).
  apply within_bind.
  - apply within_attempt with (Q := λ e, Py.is_HTTPException e = true).
    + destruct guild; within_step.
    + congruence.
  - intros r.
    repeat first [within_step | apply within_diagnose | split_match].
Qed.

Lemma within_sync_each P guilds :
  ∀ paginator, raises_within P (sync_each guilds paginator : M F _).
Proof.
  induction guilds as [|guild rest IH]; intros paginator; simpl.
  - apply within_ret.
  - apply within_bind; [apply within_sync_guild|auto].
Qed.

Lemma within_parse_targets ctx targets : ∀ guilds_set,
  raises_within (bad_argument_for targets)
                (parse_targets ctx targets guilds_set : M F _).
Proof.
  induction targets as [|target rest IH]; intros guilds_set; simpl.
  - apply within_ret.
  - assert (Hrest : ∀ s, raises_within (bad_argument_for (target :: rest))
                           (parse_targets ctx rest s : M F _)).
    { intros s. eapply within_weaken; [apply IH|].
      intros e (t & Ht & Hi & He). exists t. split; [now right|auto]. }
    repeat first [within_step | apply Hrest | split_match].
    + apply within_raise. exists target. split; [left|eauto].
    + match goal with
      | H : py_int target = inl ?e |- _ =>
          apply py_int_is_ValueError in H; congruence
      end.
Qed.

Lemma within_load_each P names :
  ∀ paginator, raises_within P (load_each names paginator : M F _).
Proof.
  induction names as [|extension rest IH]; intros paginator; simpl.
  - apply within_ret.
  - apply within_bind; [apply within_get|]. intros loaded.
    destruct (bool_decide _).
    all: apply within_bind;
      [ apply within_attempt with (Q := λ e, Py.is_Exception e = true);
        [within_step|congruence]
      | intros r; repeat first [within_step | apply IH | split_match] ].
Qed.

Lemma within_unload_each P icon names :
  ∀ paginator, raises_within P (unload_each icon names paginator : M F _).
Proof.
  induction names as [|extension rest IH]; intros paginator; simpl.
  - apply within_ret.
  - apply within_bind;
      [ apply within_attempt with (Q := λ e, Py.is_Exception e = true);
        [within_step|congruence]
      | intros r; repeat first [within_step | apply IH | split_match] ].
Qed.

Lemma within_rtt_loop P n : ∀ message api_readings websocket_readings,
  raises_within P (rtt_loop n message api_readings websocket_readings
                   : M F _).
Proof.
  induction n as [|n IH]; intros message api ws; simpl.
  - apply within_ret.
  - repeat first [within_step | apply IH | split_match].
Qed.

End Helpers.

(** ** The properties of the specification *)

Section Claims.
Context {F : Type} {FW : Framework F} {PG : Paginator} {NM : Numerics}
        {IN : Interpreter}.

Lemma append_assoc (a b c : string) : (a +:+ b) +:+ c = a +:+ (b +:+ c).
Proof.
  induction a as [|x a IH]; [reflexivity|].
  change (String x ((a +:+ b) +:+ c) = String x (a +:+ (b +:+ c))).
  now rewrite IH.
Qed.

Lemma append_nil_r (a : string) : a +:+ "" = a.
Proof.
  induction a as [|x a IH]; [reflexivity|].
  change (String x (a +:+ "") = String x a). now rewrite IH.
Qed.

Lemma concat_strings_concat (l : list string) :
  Py.concat_strings l = String.concat "" l.
Proof.
  induction l as [|x l IH]; [reflexivity|].
  change (x +:+ Py.concat_strings l = String.concat "" (x :: l)).
  rewrite IH. destruct l as [|y l]; [apply append_nil_r|reflexivity].
Qed.

Lemma not_allowed_iff ctx :
  not_allowed ctx = true
  ↔ author_id ctx ≠ 271140080188522497 ∧ author_id ctx ≠ 982960716413825085.
Proof.
  unfold not_allowed. rewrite andb_true_iff, !negb_true_iff, !Z.eqb_neq.
  reflexivity.
Qed.

(** C1 (amended): for the handlers that open with the identity check
    (load/reload, unload, shutdown, rtt and sync), an invoking user whose
    identifier is neither 271140080188522497 nor 982960716413825085 gets no
    output and causes no call into the framework: the run has no event,
    leaves the world as it was and returns. *)
Theorem gated_handlers_ignore_strangers
    (ctx : ContextA) (extensions : list (list string))
    (targets : list string) (w : world F) :
  author_id ctx ≠ 271140080188522497 →
  author_id ctx ≠ 982960716413825085 →
  jsk_load ctx extensions w = Run [] w (inr tt)
  ∧ jsk_unload ctx extensions w = Run [] w (inr tt)
  ∧ jsk_shutdown ctx w = Run [] w (inr tt)
  ∧ jsk_rtt ctx w = Run [] w (inr tt)
  ∧ jsk_sync ctx targets w = Run [] w (inr tt).
Proof.
  intros H1 H2.
  assert (H : not_allowed ctx = true) by (apply not_allowed_iff; auto).
  unfold jsk_load, jsk_unload, jsk_shutdown, jsk_rtt, jsk_sync.
  rewrite H. repeat split.
Qed.

Lemma jsk_invite_run ctx perms (w : world F) id :
  (fw_call ApplicationInfo w).2 = inr id →
  sends (trace (jsk_invite ctx perms w)) = [invite_message id].
Proof.
  intros H. unfold jsk_invite.
  assert (E : outcome (call ApplicationInfo w) = inr id)
    by (rewrite call_run; exact H).
  rewrite (bind_inr _ _ _ _ E). cbn [trace]. rewrite sends_app.
  rewrite call_run. cbn [trace].
  set (w' := (fw_call ApplicationInfo w).1).
  destruct (outcome (call (Send (invite_message id)) w')) as [e|m] eqn:E'.
  - unfold invite_message in E'. rewrite (bind_inl _ _ _ _ E').
    cbn [trace]. rewrite call_run. reflexivity.
  - unfold invite_message in E'. rewrite (bind_inr _ _ _ _ E').
    cbn [trace]. rewrite sends_app, call_run. reflexivity.
Qed.

(** C10: the invite-link command does not look at its permission-name
    arguments.  Two invocations for which the bot reports the same
    application id send the same single message, whatever the two argument
    lists are, and that message ends in the fixed [permissions=8]; and in one
    world, changing the arguments changes nothing at all in the run. *)
Theorem invite_ignores_permission_names
    (ctx1 ctx2 : ContextA) (perms1 perms2 : list string)
    (w1 w2 : world F) (id : Z) :
  (fw_call ApplicationInfo w1).2 = inr id →
  (fw_call ApplicationInfo w2).2 = inr id →
  sends (trace (jsk_invite ctx1 perms1 w1))
  = sends (trace (jsk_invite ctx2 perms2 w2))
  ∧ sends (trace (jsk_invite ctx1 perms1 w1))
    = ["Link to invite this bot:" +:+ nl
       +:+ "https://discordapp.com/oauth2/authorize?client_id="
       +:+ Py.str_int id +:+ "&permissions=8&scope=bot"]
  ∧ jsk_invite ctx1 perms1 w1 = jsk_invite ctx1 perms2 w1.
Proof.
  intros H1 H2.
  rewrite (jsk_invite_run ctx1 perms1 w1 id H1).
  rewrite (jsk_invite_run ctx2 perms2 w2 id H2).
  repeat split.
Qed.

Lemma upserts_bind_quiet {A B} (m : M F A) (k : A → M F B) w :
  (∀ x, emits_only not_upsert (k x)) →
  upserts (trace ((m ≫= k) w)) = upserts (trace (m w)).
Proof.
  intros Hk. destruct (outcome (m w)) as [e|x] eqn:E.
  - rewrite (bind_inl _ _ _ _ E). reflexivity.
  - rewrite (bind_inr _ _ _ _ E). cbn [trace].
    rewrite upserts_app, (emits_no_upserts (k x)) by apply Hk.
    apply app_nil_r.
Qed.

Lemma upserts_sync_guild guild paginator (w : world F) :
  upserts (trace (sync_guild guild paginator w)) = [guild].
Proof.
  unfold sync_guild. rewrite bind_get, bind_read_list.
  rewrite (bind_inr _ _ _ _ (f_equal outcome (to_dicts_run _ _))).
  rewrite to_dicts_run. cbn [trace final outcome app].
  rewrite bind_get. rewrite upserts_bind_quiet.
  - unfold attempt. destruct guild as [g|]; rewrite call_run; cbn [outcome].
    all: destruct (fw_call _ w).2 as [e|data];
      [destruct (Py.is_HTTPException e)|]; reflexivity.
  - intros r.
    repeat first [emits_step | apply emits_diagnose | split_match].
Qed.

Lemma upserts_sync_each guilds : ∀ paginator (w : world F),
  upserts (trace (sync_each guilds paginator w)) `prefix_of` guilds
  ∧ (is_Some (match outcome (sync_each guilds paginator w) with
              | inr p => Some p | inl _ => None end) →
     upserts (trace (sync_each guilds paginator w)) = guilds).
Proof.
  induction guilds as [|guild rest IH]; intros paginator w; simpl.
  - split; [reflexivity|auto].
  - destruct (outcome (sync_guild guild paginator w)) as [e|p] eqn:E.
    + rewrite (bind_inl _ _ _ _ E). cbn [trace outcome].
      rewrite upserts_sync_guild. split.
      * exists rest. reflexivity.
      * intros [? [=]].
    + rewrite (bind_inr _ _ _ _ E). cbn [trace outcome].
      rewrite upserts_app, upserts_sync_guild.
      destruct (IH p (final (sync_guild guild paginator w))) as [IH1 IH2].
      split.
      * simpl. now apply prefix_cons.
      * intros H. simpl. f_equal. auto.
Qed.

Lemma sorted_guilds_global : sorted_guilds (∅ ∪ {[ None ]}) = [None].
Proof. vm_compute. reflexivity. Qed.

(** C4: when an authorized user invokes sync without targets and the
    application id is there, the target set is the singleton of the global
    sentinel, and exactly one sync is performed: the global one. *)
Theorem sync_without_targets_is_global (ctx : ContextA) (w : world F) :
  not_allowed ctx = false →
  application_id_missing (fw_get ApplicationId w) = false →
  outcome (parse_targets ctx [] ∅ w) = inr (Some ∅)
  ∧ sorted_guilds (∅ ∪ {[ None ]}) = [None]
  ∧ upserts (trace (jsk_sync ctx [] w)) = [None].
Proof.
  intros Ha Hid. split; [reflexivity|]. split; [apply sorted_guilds_global|].
  unfold jsk_sync. rewrite Ha, bind_get, Hid.
  cbn [parse_targets Py.falsy]. rewrite bind_ret, sorted_guilds_global.
  rewrite upserts_bind_quiet.
  - cbn [sync_each]. rewrite upserts_bind_quiet.
    + apply upserts_sync_guild.
    + intros p. apply emits_ret.
  - intros p. apply emits_send_pages. reflexivity.
Qed.

Lemma parse_targets_stops ctx targets : ∀ guilds_set (w : world F),
  (∃ t, t ∈ targets ∧ bad_target ctx t = true) →
  let r := parse_targets ctx targets guilds_set w in
  (∃ m, trace r
        = [Called (Send "Can't sync guild commands without guild information")
                  m]
        ∧ outcome r = match m with inl e => inl e | inr _ => inr None end)
  ∨ (trace r = []
     ∧ ∃ target, target ∈ targets
         ∧ outcome r
           = inl (Py.BadArgument (target +:+ " is not a valid guild ID"))).
Proof.
  induction targets as [|target rest IH]; intros guilds_set w (t & Ht & Hb).
  { inversion Ht. }
  assert (Hrest : bad_target ctx target = false →
                  ∃ t, t ∈ rest ∧ bad_target ctx t = true).
  { intros Hf. apply elem_of_cons in Ht as [->|Ht]; [congruence|eauto]. }
  assert (Hmore : ∀ s w',
    (∃ t, t ∈ rest ∧ bad_target ctx t = true) →
    let r := parse_targets ctx rest s w' in
    (∃ m, trace r
          = [Called (Send "Can't sync guild commands without guild information")
                    m]
          ∧ outcome r = match m with inl e => inl e | inr _ => inr None end)
    ∨ (trace r = []
       ∧ ∃ target0, target0 ∈ target :: rest
           ∧ outcome r
             = inl (Py.BadArgument (target0 +:+ " is not a valid guild ID")))).
  { intros s w' H. destruct (IH s w' H) as [?|(? & t' & ? & ?)]; [now left|].
    right. split; [auto|]. exists t'. split; [now right|auto]. }
  clear IH Ht Hb. cbv zeta in *. cbn [parse_targets].
  pose proof (eq_refl (bad_target ctx target)) as Eb.
  unfold bad_target at 2 in Eb.
  destruct (String.eqb target "$"); [apply Hmore; auto|].
  destruct (String.eqb target "*").
  { rewrite bind_get. apply Hmore; auto. }
  destruct (String.eqb target ".").
  { destruct (guild ctx); [apply Hmore; auto|]. left.
    exists (fw_call (Send "Can't sync guild commands without guild information") w).2.
    unfold mbind, M_bind, bind. rewrite call_run. cbn [outcome trace].
    destruct (fw_call _ w).2; cbn; auto using app_nil_r. }
  destruct (py_int target) as [error|n] eqn:Ei; [|apply Hmore; auto].
  rewrite (py_int_is_ValueError _ _ Ei).
  right. split; [reflexivity|]. exists target. split; [left|reflexivity].
Qed.

(** C9: when the application id is not set, or a target is [.] outside a
    guild or is no sentinel and a word [int] refuses, sync makes no
    command-sync call at all, whatever other targets were listed.  All it
    does is send one notice, or raise [BadArgument] for the offending word
    without sending anything. *)
Theorem sync_stops_before_any_sync
    (ctx : ContextA) (targets : list string) (w : world F) :
  not_allowed ctx = false →
  application_id_missing (fw_get ApplicationId w) = true
  ∨ (∃ t, t ∈ targets ∧ bad_target ctx t = true) →
  let r := jsk_sync ctx targets w in
  upserts (trace r) = []
  ∧ ((∃ notice m,
        trace r = [Called (Send notice) m]
        ∧ (notice = "Cannot sync when application info not fetched"
           ∨ notice = "Can't sync guild commands without guild information"))
     ∨ (trace r = []
        ∧ ∃ target, target ∈ targets
            ∧ outcome r
              = inl (Py.BadArgument (target +:+ " is not a valid guild ID")))).
Proof.
  intros Ha Hpre r.
  assert (Hshape :
    (∃ notice m,
        trace r = [Called (Send notice) m]
        ∧ (notice = "Cannot sync when application info not fetched"
           ∨ notice = "Can't sync guild commands without guild information"))
     ∨ (trace r = []
        ∧ ∃ target, target ∈ targets
            ∧ outcome r
              = inl (Py.BadArgument (target +:+ " is not a valid guild ID")))).
  { subst r. unfold jsk_sync. rewrite Ha, bind_get.
    destruct (application_id_missing (fw_get ApplicationId w)) eqn:Hid.
    - left. exists "Cannot sync when application info not fetched",
        (fw_call (Send "Cannot sync when application info not fetched") w).2.
      split; [|left; reflexivity].
      unfold mbind, M_bind, bind. rewrite call_run. cbn [outcome trace].
      destruct (fw_call _ w).2; cbn; auto.
    - destruct Hpre as [?|Hbad]; [discriminate|].
      destruct (parse_targets_stops ctx targets ∅ w Hbad)
        as [(m & Ht & Ho)|(Ht & target & Hin & Ho)].
      + left. eexists _, m. split; [|right; reflexivity].
        destruct m as [e|m].
        * rewrite (bind_inl _ _ _ _ Ho). exact Ht.
        * rewrite (bind_inr _ _ _ _ Ho). cbn. rewrite Ht. reflexivity.
      + right. rewrite (bind_inl _ _ _ _ Ho). cbn. eauto. }
  split; [|exact Hshape].
  destruct Hshape as [(notice & m & -> & _)|(-> & _)]; reflexivity.
Qed.

(** C8: sync writes nothing into the command tree.  As long as the
    framework's own calls leave the object store alone, every command list
    and every command node (with its children and parameters) that was in
    the store before a sync invocation is the same after it; the only change
    sync itself makes is to put new list objects at fresh addresses. *)
Theorem sync_leaves_command_tree_alone
    (ctx : ContextA) (targets : list string) (w : world F) :
  calls_keep_store →
  untouched (w_store w) (w_store (final (jsk_sync ctx targets w))).
Proof.
  intros H. revert w. change (keeps_store (jsk_sync ctx targets)).
  unfold jsk_sync.
  repeat first
    [ keeps_step | apply keeps_parse_targets | apply keeps_sync_each
    | split_match ].
Qed.

Lemma quiet_returns (m : M F unit) w :
  raises_within (λ _, False) m → settled (trace (m w)) →
  outcome (m w) = inr tt.
Proof.
  intros H Ht. destruct (outcome (m w)) as [e|[]] eqn:E; [|reflexivity].
  destruct (H w e Ht E).
Qed.

Lemma walk_trace indices pool selected name (w : world F) :
  trace (walk indices pool selected name w) = [].
Proof.
  pose proof (emits_walk (λ _, False) indices pool selected name w) as H.
  destruct (trace _); [reflexivity|]. now apply Forall_cons in H as [[] _].
Qed.

Lemma walk_raises_Exception indices pool selected name (w : world F) e :
  outcome (walk indices pool selected name w) = inl e →
  Py.is_Exception e = true.
Proof.
  intros E. apply (within_walk indices pool selected name w e); [|exact E].
  unfold settled. rewrite walk_trace. constructor.
Qed.

Lemma diagnose_line_shape sc line (w : world F) added :
  outcome (diagnose_line sc line w) = inr added →
  ∃ more, added = line :: more.
Proof.
  unfold diagnose_line, attempt, mbind, M_bind, bind. cbn.
  destruct (outcome (diagnose_try sc line w)) as [e|l]; cbn.
  - destruct (Py.is_Exception e); cbn; [|discriminate].
    intros [= <-]. eauto.
  - intros [= <-]. eauto.
Qed.

Lemma attempt_caught {R} catches (m : M F R) w e :
  outcome (m w) = inl e → catches e = true →
  attempt catches m w = Run (trace (m w)) (final (m w)) (inr (inl e)).
Proof. intros E C. unfold attempt. now rewrite E, C. Qed.

Lemma diagnose_try_fails sc line (w : world F) group_1 e :
  SLASH_COMMAND_ERROR line = Some group_1 →
  ((Z.of_nat (length (Py.split "." group_1)) mod 2 =? 0) = false
   ∧ e = Py.AssertionError)
  ∨ ((Z.of_nat (length (Py.split "." group_1)) mod 2 =? 0) = true
     ∧ outcome (walk (Py.evens (Py.split "." group_1)) (Some sc) None "" w)
       = inl e) →
  trace (diagnose_try sc line w) = []
  ∧ outcome (diagnose_try sc line w) = inl e
  ∧ Py.is_Exception e = true.
Proof.
  intros Hm [[Ha ->]|[Ha Hw]]; unfold diagnose_try; rewrite Hm, Ha.
  - rewrite bind_raise. repeat split.
  - rewrite bind_ret, (bind_inl _ _ _ _ Hw). cbn [trace outcome].
    rewrite walk_trace. repeat split. eapply walk_raises_Exception, Hw.
Qed.

(** C7 (amended): the diagnosis of one error line never raises as long as
    the inspections fail only with [Exception]s, and always keeps the line
    itself.  When the line does not have the known shape nothing is added to
    it: no notice.  When the shape is there and the walk along the index
    path fails (an odd number of parts, an index out of range, a missing
    [_params], a part [int] refuses), the one notice "Couldn't determine
    cause" with the error's type and text is added after the line. *)
Theorem diagnosis_never_raises
    (slash_commands : lref) (line : string) (w : world F) :
  (SLASH_COMMAND_ERROR line = None →
   diagnose_line slash_commands line w = Run [] w (inr [line]))
  ∧ (∀ group_1 e,
       SLASH_COMMAND_ERROR line = Some group_1 →
       ((Z.of_nat (length (Py.split "." group_1)) mod 2 =? 0) = false
        ∧ e = Py.AssertionError)
       ∨ ((Z.of_nat (length (Py.split "." group_1)) mod 2 =? 0) = true
          ∧ outcome (walk (Py.evens (Py.split "." group_1))
                          (Some slash_commands) None "" w)
            = inl e) →
       trace (diagnose_line slash_commands line w) = []
       ∧ outcome (diagnose_line slash_commands line w)
         = inr [line; couldnt_determine e])
  ∧ (settled (trace (diagnose_line slash_commands line w)) →
     ∃ added, outcome (diagnose_line slash_commands line w)
              = inr (line :: added)).
Proof.
  split; [|split].
  - intros Hm. unfold diagnose_line, diagnose_try. rewrite Hm. reflexivity.
  - intros group_1 e Hm Hfail.
    destruct (diagnose_try_fails _ _ w _ _ Hm Hfail) as (Ht & Ho & He).
    unfold diagnose_line.
    pose proof (attempt_caught Py.is_Exception _ _ _ Ho He) as Hat.
    rewrite (bind_inr _ _ _ _ (f_equal outcome Hat)), Hat.
    cbn [trace outcome final]. rewrite Ht. split; reflexivity.
  - intros Ht.
    destruct (outcome (diagnose_line slash_commands line w)) as [e|added]
      eqn:E.
    + destruct (within_diagnose_line (λ _, False) _ _ _ _ Ht E).
    + destruct (diagnose_line_shape _ _ _ _ E) as [more ->]. eauto.
Qed.

#[local] Instance guild_key_le_total : Total guild_key_le.
Proof. intros [x|] [y|]; simpl; auto. lia. Qed.

#[local] Instance guild_key_le_trans : Transitive guild_key_le.
Proof. intros [x|] [y|] [z|]; simpl; auto; try lia; tauto. Qed.

Lemma sorted_guilds_NoDup (guilds_set : target_set) :
  NoDup (sorted_guilds guilds_set).
Proof.
  unfold sorted_guilds. rewrite merge_sort_Permutation. apply NoDup_elements.
Qed.

Lemma sorted_guilds_elem (guilds_set : target_set) g :
  g ∈ sorted_guilds guilds_set ↔ g ∈ guilds_set.
Proof.
  unfold sorted_guilds. rewrite merge_sort_Permutation. apply elem_of_elements.
Qed.

Lemma sorted_guilds_sorted (guilds_set : target_set) :
  StronglySorted guild_key_le (sorted_guilds guilds_set).
Proof. apply StronglySorted_merge_sort; apply _. Qed.

Lemma all_guild_ids (l : list (option Z)) :
  StronglySorted guild_key_le l → NoDup l → None ∉ l →
  ∃ ids, StronglySorted Z.lt ids ∧ l = Some <$> ids.
Proof.
  induction l as [|[x|] l IH]; intros Hs Hd Hn.
  - exists []. split; [constructor|reflexivity].
  - apply StronglySorted_inv in Hs as [Hs Hx].
    apply NoDup_cons in Hd as [Hx' Hd].
    destruct IH as (ids & Hids & ->); [auto|auto|set_solver|].
    exists (x :: ids). split; [|reflexivity].
    constructor; [exact Hids|].
    apply Forall_forall. intros y Hy.
    assert (Hin : Some y ∈ Some <$> ids) by (apply list_elem_of_fmap_2; auto).
    rewrite Forall_forall in Hx. specialize (Hx _ Hin). simpl in Hx.
    assert (x ≠ y) by (intros ->; auto). lia.
  - exfalso. apply Hn. left.
Qed.

Lemma global_first_then_ascending (l : list (option Z)) :
  StronglySorted guild_key_le l → NoDup l →
  ∃ ids, StronglySorted Z.lt ids
         ∧ (l = Some <$> ids ∨ l = None :: (Some <$> ids)).
Proof.
  intros Hs Hd. destruct l as [|[x|] l].
  - exists []. split; [constructor|now left].
  - destruct (all_guild_ids (Some x :: l)) as (ids & ? & ?); [auto|auto| |eauto].
    apply StronglySorted_inv in Hs as [_ Hx]. rewrite Forall_forall in Hx.
    intros [[=]|Hin]%elem_of_cons. exact (Hx _ Hin).
  - apply StronglySorted_inv in Hs as [Hs _].
    apply NoDup_cons in Hd as [Hx Hd].
    destruct (all_guild_ids l) as (ids & ? & ->); eauto.
Qed.

(** C3: the sync targets are a duplicate-free collection with exactly the
    targets the words stand for, global first and the guild identifiers after
    it in ascending order; the syncs are performed in that order (all of them
    when the command returns, the first few when a failure that is not
    caught cuts it short). *)
Theorem sync_targets_deduplicated_and_ordered
    (ctx : ContextA) (targets : list string) (w : world F)
    (guilds_set : target_set) :
  not_allowed ctx = false →
  application_id_missing (fw_get ApplicationId w) = false →
  outcome (parse_targets ctx targets ∅ w) = inr (Some guilds_set) →
  let all := if Py.falsy targets then guilds_set ∪ {[ None ]}
             else guilds_set in
  let guilds := sorted_guilds all in
  let r := jsk_sync ctx targets w in
  NoDup guilds
  ∧ (∀ g, g ∈ guilds ↔ g ∈ all)
  ∧ (∃ ids, StronglySorted Z.lt ids
            ∧ (guilds = Some <$> ids ∨ guilds = None :: (Some <$> ids)))
  ∧ upserts (trace r) `prefix_of` guilds
  ∧ (outcome r = inr tt → upserts (trace r) = guilds).
Proof.
  intros Ha Hid Hp all guilds r.
  split; [apply sorted_guilds_NoDup|].
  split; [intros g; apply sorted_guilds_elem|].
  split.
  { apply global_first_then_ascending;
      [apply sorted_guilds_sorted|apply sorted_guilds_NoDup]. }
  subst r. unfold jsk_sync. rewrite Ha, bind_get, Hid.
  rewrite (bind_inr _ _ _ _ Hp). cbn [trace outcome]. fold all. fold guilds.
  rewrite upserts_app, (emits_no_upserts (parse_targets ctx targets ∅))
    by apply emits_parse_targets.
  cbn [app].
  set (w' := final (parse_targets ctx targets ∅ w)).
  rewrite upserts_bind_quiet
    by (intros p; apply emits_send_pages; reflexivity).
  destruct (upserts_sync_each guilds pag_new w') as [Hpre Hall].
  split; [exact Hpre|].
  intros Ho. apply Hall.
  destruct (outcome (sync_each guilds pag_new w')) as [e|p] eqn:E; [|eauto].
  rewrite (bind_inl _ _ _ _ E) in Ho. discriminate Ho.
Qed.


Lemma bind_assoc {A B C} (m : M F A) (f : A → M F B) (g : B → M F C) w :
  ((m ≫= f) ≫= g) w = (m ≫= λ x, f x ≫= g) w.
Proof.
  unfold mbind, M_bind, bind.
  destruct (outcome (m w)) as [e|x]; cbn; [reflexivity|].
  destruct (outcome (f x (final (m w)))) as [e|y]; cbn; [reflexivity|].
  now rewrite app_assoc.
Qed.

Lemma attempt_call_run {X} catches (c : op X) (w : world F) :
  attempt catches (call c) w
  = Run [Called c (fw_call c w).2] (fw_call c w).1
        (match (fw_call c w).2 with
         | inl e => if catches e then inr (inl e) else inl e
         | inr x => inr (inr x)
         end).
Proof.
  unfold attempt. rewrite call_run. cbn.
  destruct (fw_call c w).2 as [e|x]; [destruct (catches e)|]; reflexivity.
Qed.

Lemma add_line_run line empty p (w : world F) :
  add_line line empty p w
  = Run [Line line empty (match pag_add_line line empty p with
                          | inl e => inl e
                          | inr _ => inr tt
                          end)]
        w (pag_add_line line empty p).
Proof. unfold add_line. destruct (pag_add_line line empty p); reflexivity. Qed.

Lemma report_step {B} (m : ext_method) ext p (k : pag → M F B) (w : world F)
    (r : run F B) :
  let c := method_op m ext in
  r =
    (attempt Py.is_Exception (call c) ≫= λ r,
       match r with
       | inl exc =>
           add_line (icon_of m +:+ " `" +:+ ext +:+ "`" +:+ nl +:+ "```py"
                     +:+ nl +:+ Py.concat_strings (Py.exn_format exc 1)
                     +:+ nl +:+ "```") true p
       | inr _ => add_line (icon_of m +:+ " `" +:+ ext +:+ "`") true p
       end ≫= k) w →
  all_absorbed (trace r) →
  ∃ p', pag_add_line (report_line (m, ext, (fw_call c w).2)) true p = inr p'
        ∧ r = Run (Called c (fw_call c w).2
                   :: Line (report_line (m, ext, (fw_call c w).2)) true (inr tt)
                   :: trace (k p' (fw_call c w).1))
                  (final (k p' (fw_call c w).1))
                  (outcome (k p' (fw_call c w).1)).
Proof.
  intros c ->.
  pose proof (attempt_call_run Py.is_Exception c w) as Hat.
  assert (Hc : ∀ e, absorbed (Called c (inl e)) = Py.is_Exception e)
    by (intros e; subst c; destruct m; reflexivity).
  destruct (fw_call c w).2 as [e|[]] eqn:Hres.
  - destruct (Py.is_Exception e) eqn:He.
    + rewrite (bind_inr _ _ _ _ (f_equal outcome Hat)), Hat.
      cbn [trace final outcome report_line].
      set (l := icon_of m +:+ _).
      pose proof (add_line_run l true p (fw_call c w).1) as Hal.
      destruct (pag_add_line l true p) as [e'|p'] eqn:Hp.
      * rewrite (bind_inl _ _ _ _ (f_equal outcome Hal)), Hal.
        cbn [trace]. intros Hab.
        apply Forall_app in Hab as [_ Hab]. apply Forall_cons in Hab as [Hab _].
        discriminate Hab.
      * rewrite (bind_inr _ _ _ _ (f_equal outcome Hal)), Hal.
        cbn [trace final outcome]. intros _. exists p'. split; reflexivity.
    + rewrite (bind_inl _ _ _ _ (f_equal outcome Hat)), Hat.
      cbn [trace]. intros Hab. apply Forall_cons in Hab as [Hab _].
      rewrite Hc, He in Hab. discriminate Hab.
  - rewrite (bind_inr _ _ _ _ (f_equal outcome Hat)), Hat.
    cbn [trace final outcome report_line].
    set (l := icon_of m +:+ _).
    pose proof (add_line_run l true p (fw_call c w).1) as Hal.
    destruct (pag_add_line l true p) as [e'|p'] eqn:Hp.
    + rewrite (bind_inl _ _ _ _ (f_equal outcome Hal)), Hal.
      cbn [trace]. intros Hab.
      apply Forall_app in Hab as [_ Hab]. apply Forall_cons in Hab as [Hab _].
      discriminate Hab.
    + rewrite (bind_inr _ _ _ _ (f_equal outcome Hal)), Hal.
      cbn [trace final outcome]. intros _. exists p'. split; reflexivity.
Qed.

Lemma attempts_step m ext res l b x t :
  attempts (Called (method_op m ext) res :: Line l b x :: t)
  = (m, ext, res) :: attempts t.
Proof. destruct m; reflexivity. Qed.

Lemma lines_step m ext res l b x t :
  lines (Called (method_op m ext) res :: Line l b x :: t) = l :: lines t.
Proof. reflexivity. Qed.

Lemma sends_step m ext res l b x t :
  sends (Called (method_op m ext) res :: Line l b x :: t) = sends t.
Proof. destruct m; reflexivity. Qed.

Lemma reported_step m ext rest p p' res l (r' : run F pag) :
  l = report_line (m, ext, res) →
  pag_add_line l true p = inr p' →
  reported rest p' r' →
  reported (ext :: rest) p
    (Run (Called (method_op m ext) res :: Line l true (inr tt) :: trace r')
         (final r') (outcome r')).
Proof.
  intros -> Hadd (Hn & Hl & Hs & p'' & Ho & Hp). unfold reported.
  cbn [trace outcome].
  rewrite attempts_step, lines_step, sends_step. cbn [fmap list_fmap].
  rewrite Hn, Hl. repeat split; [exact Hs|].
  exists p''. split; [exact Ho|]. cbn [add_lines]. rewrite Hadd, <- Hl.
  exact Hp.
Qed.

Lemma load_each_run names : ∀ p (w : world F),
  all_absorbed (trace (load_each names p w)) →
  reported names p (load_each names p w).
Proof.
  induction names as [|ext rest IH]; intros p w.
  - intros _. repeat split. exists p. split; reflexivity.
  - remember (load_each (ext :: rest) p w) as r eqn:Er.
    cbn [load_each] in Er. rewrite bind_get in Er. intros Hab.
    destruct (bool_decide (ext ∈ fw_get Extensions w)).
    + destruct (report_step Reload ext p (load_each rest) w r Er Hab)
        as (p' & Hadd & ->).
      eapply reported_step; [reflexivity|exact Hadd|].
      apply IH. cbn [trace] in Hab.
      now apply Forall_cons in Hab as [_ [_ Hab]%Forall_cons].
    + destruct (report_step Load ext p (load_each rest) w r Er Hab)
        as (p' & Hadd & ->).
      eapply reported_step; [reflexivity|exact Hadd|].
      apply IH. cbn [trace] in Hab.
      now apply Forall_cons in Hab as [_ [_ Hab]%Forall_cons].
Qed.

Lemma unload_each_run names : ∀ p (w : world F),
  all_absorbed
         (trace (unload_each (icon_of Unload) names p w)) →
  reported names p (unload_each (icon_of Unload) names p w).
Proof.
  induction names as [|ext rest IH]; intros p w.
  - intros _. repeat split. exists p. split; reflexivity.
  - remember (unload_each (icon_of Unload) (ext :: rest) p w) as r eqn:Er.
    cbn [unload_each] in Er. intros Hab.
    destruct (report_step Unload ext p (unload_each (icon_of Unload) rest)
                          w r Er Hab) as (p' & Hadd & ->).
    eapply reported_step; [reflexivity|exact Hadd|].
    apply IH. cbn [trace] in Hab.
    now apply Forall_cons in Hab as [_ [_ Hab]%Forall_cons].
Qed.

Lemma send_pages_run pages : ∀ (w : world F),
  let r := send_pages pages w in
  attempts (trace r) = [] ∧ lines (trace r) = []
  ∧ sends (trace r) `prefix_of` pages
  ∧ (outcome r = inr tt → sends (trace r) = pages).
Proof.
  induction pages as [|page rest IH]; intros w.
  - cbn. repeat split; reflexivity.
  - cbv zeta. cbn [send_pages].
    destruct (fw_call (Send page) w).2 as [e|m] eqn:Hres.
    + assert (E : outcome (call (Send page) w) = inl e)
        by (rewrite call_run; exact Hres).
      rewrite (bind_inl _ _ _ _ E), call_run. cbn [trace outcome].
      repeat split; [exists rest; reflexivity|discriminate].
    + assert (E : outcome (call (Send page) w) = inr m)
        by (rewrite call_run; exact Hres).
      rewrite (bind_inr _ _ _ _ E), call_run. cbn [trace outcome final app].
      destruct (IH (fw_call (Send page) w).1) as (Ha & Hl & Hp & Ho).
      repeat split; [exact Ha|exact Hl|now apply prefix_cons|].
      intros H. cbn. f_equal. auto.
Qed.

Lemma loop_then_send names (loop : M F pag) (w : world F) :
  (all_absorbed (trace (loop w)) →
   reported names pag_new (loop w)) →
  all_absorbed
         (trace ((loop ≫= λ p, send_pages (pag_pages p)) w)) →
  report_sent names ((loop ≫= λ p, send_pages (pag_pages p)) w).
Proof.
  intros Hloop Hab.
  destruct (outcome (loop w)) as [e|p] eqn:E.
  - rewrite (bind_inl _ _ _ _ E) in Hab. cbn [trace] in Hab.
    destruct (Hloop Hab) as (_ & _ & _ & p' & Ho & _). congruence.
  - rewrite (bind_inr _ _ _ _ E) in Hab |- *. cbn [trace] in Hab.
    apply Forall_app in Hab as [Hab _].
    destruct (Hloop Hab) as (Hn & Hl & Hs & p' & Ho & Hp).
    assert (p' = p) as -> by congruence.
    destruct (send_pages_run (pag_pages p) (final (loop w)))
      as (Ha' & Hl' & Hp' & Ho').
    unfold report_sent. cbn [trace outcome].
    rewrite attempts_app, lines_app, sends_app, Ha', Hl', Hs, !app_nil_r.
    repeat split; [exact Hn|exact Hl|]. exists p. repeat split; auto.
Qed.

Lemma jsk_load_run ctx extensions (w : world F) :
  not_allowed ctx = false →
  all_absorbed (trace (jsk_load ctx extensions w)) →
  report_sent (load_names ctx extensions) (jsk_load ctx extensions w).
Proof.
  intros Ha. unfold jsk_load. rewrite Ha.
  assert (Hn : concat (if String.eqb (invoked_with ctx) "reload"
                          && Py.falsy extensions
                       then [["jishaku"]] else extensions)
               = load_names ctx extensions).
  { unfold load_names. destruct (_ && _); reflexivity. }
  rewrite Hn. apply loop_then_send, load_each_run.
Qed.

Lemma jsk_unload_run ctx extensions (w : world F) :
  not_allowed ctx = false →
  all_absorbed (trace (jsk_unload ctx extensions w)) →
  report_sent (concat extensions) (jsk_unload ctx extensions w).
Proof.
  intros Ha. unfold jsk_unload. rewrite Ha.
  apply loop_then_send, unload_each_run.
Qed.

(** C5 (amended): in load/reload and unload, for an authorized user, a
    failure of one extension that is an [Exception] does not stop the
    command as long as the paginator takes every line.  In every run in
    which each failure of an extension operation is an [Exception] and the
    paginator takes every line, each extension of the input is tried, in
    order, and a failed one gets its own line: the icon, the name and the
    exception formatted with its trace limited to one frame, the pieces
    put together without a separator.  The messages sent are pages the
    paginator makes of the lines, from the first on, and all of them when
    the command returns. *)
Theorem extension_failure_is_reported_inline
    (ctx : ContextA) (extensions : list (list string)) (w : world F) :
  not_allowed ctx = false →
  (all_absorbed (trace (jsk_load ctx extensions w)) →
   attempt_name <$> attempts (trace (jsk_load ctx extensions w))
   = load_names ctx extensions
   ∧ (∀ i m name exc,
        attempts (trace (jsk_load ctx extensions w)) !! i
        = Some (m, name, inl exc) →
        lines (trace (jsk_load ctx extensions w)) !! i
        = Some (icon_of m +:+ " `" +:+ name +:+ "`" +:+ nl +:+ "```py" +:+ nl
                +:+ String.concat "" (Py.exn_format exc 1) +:+ nl +:+ "```"))
   ∧ ∃ p, add_lines (lines (trace (jsk_load ctx extensions w))) pag_new
          = inr p
          ∧ sends (trace (jsk_load ctx extensions w)) `prefix_of` pag_pages p
          ∧ (outcome (jsk_load ctx extensions w) = inr tt →
             sends (trace (jsk_load ctx extensions w)) = pag_pages p))
  ∧ (all_absorbed (trace (jsk_unload ctx extensions w)) →
     attempt_name <$> attempts (trace (jsk_unload ctx extensions w))
     = concat extensions
     ∧ (∀ i m name exc,
          attempts (trace (jsk_unload ctx extensions w)) !! i
          = Some (m, name, inl exc) →
          lines (trace (jsk_unload ctx extensions w)) !! i
          = Some (icon_of m +:+ " `" +:+ name +:+ "`" +:+ nl +:+ "```py"
                  +:+ nl +:+ String.concat "" (Py.exn_format exc 1) +:+ nl
                  +:+ "```"))
     ∧ ∃ p, add_lines (lines (trace (jsk_unload ctx extensions w))) pag_new
            = inr p
            ∧ sends (trace (jsk_unload ctx extensions w))
              `prefix_of` pag_pages p
            ∧ (outcome (jsk_unload ctx extensions w) = inr tt →
               sends (trace (jsk_unload ctx extensions w)) = pag_pages p)).
Proof.
  intros Ha. split; intros Hab.
  - destruct (jsk_load_run ctx extensions w Ha Hab) as (Hn & Hl & Hp).
    split; [exact Hn|]. split; [|exact Hp]. intros i m name exc Hi.
    rewrite Hl, <- concat_strings_concat.
    apply (list_lookup_fmap_Some_2 report_line _ _ _ Hi).
  - destruct (jsk_unload_run ctx extensions w Ha Hab) as (Hn & Hl & Hp).
    split; [exact Hn|]. split; [|exact Hp]. intros i m name exc Hi.
    rewrite Hl, <- concat_strings_concat.
    apply (list_lookup_fmap_Some_2 report_line _ _ _ Hi).
Qed.

(** C6 (amended): for an authorized user, and in every run in which each
    failure of an extension operation is an [Exception] and the paginator
    takes every line, the report of load/reload and of unload follows the
    names worked through, one line per name and in the same order, each line
    the success line or the failure line of that name; the messages sent are
    pages the paginator makes of these lines, from the first on, and all of
    them when the command returns.  The names worked through are the names
    given, except that a bare [reload] without any name works through the
    single name jishaku. *)
Theorem extension_report_follows_the_names
    (ctx : ContextA) (extensions : list (list string)) (w : world F) :
  not_allowed ctx = false →
  (all_absorbed (trace (jsk_load ctx extensions w)) →
   report_sent (load_names ctx extensions) (jsk_load ctx extensions w))
  ∧ (all_absorbed (trace (jsk_unload ctx extensions w)) →
     report_sent (concat extensions) (jsk_unload ctx extensions w))
  ∧ (extensions ≠ [] ∨ invoked_with ctx ≠ "reload" →
     load_names ctx extensions = concat extensions)
  ∧ (extensions = [] → invoked_with ctx = "reload" →
     load_names ctx extensions = ["jishaku"]).
Proof.
  intros Ha. split; [apply jsk_load_run, Ha|].
  split; [apply jsk_unload_run, Ha|].
  unfold load_names. split.
  - intros [H|H].
    + destruct extensions; [congruence|]. now rewrite andb_false_r.
    + apply String.eqb_neq in H. now rewrite H.
  - intros -> ->. reflexivity.
Qed.

End Claims.

(** ** The properties at work on the demo bot *)

Section OnTheDemoBot.
#[local] Existing Instance Demo.framework.
#[local] Existing Instance Demo.paginator.
#[local] Existing Instance Demo.numerics.
#[local] Existing Instance Demo.interpreter.

Example slash_error_path :
  SLASH_COMMAND_ERROR "In 0.options.1.name: Invalid" = Some "0.options.1.name".
Proof. reflexivity. Qed.

Example slash_error_trailing_dot :
  SLASH_COMMAND_ERROR "In 0.options.1" = Some "0.options.".
Proof. reflexivity. Qed.

Example slash_error_no_dot_between :
  SLASH_COMMAND_ERROR "In 0.a1.b" = Some "0.a1.b".
Proof. reflexivity. Qed.

Example slash_error_other_line :
  SLASH_COMMAND_ERROR "400 Bad Request (error code: 50035)" = None.
Proof. reflexivity. Qed.

Example slash_error_other_digits :
  SLASH_COMMAND_ERROR "In ٣.options: x" = Some "٣.options"
  ∧ SLASH_COMMAND_ERROR "In 0.a٣.b" = Some "0.a٣.b".
Proof. split; reflexivity. Qed.

Example int_other_digits : py_int "٣" = inr 3 ∧ py_int "٣٤_٥" = inr 345.
Proof. split; reflexivity. Qed.

(** A word in other digits is a guild id like any other, and a word with a
    separator character before the digits is none. *)
Example sync_reads_other_digits :
  upserts (trace (jsk_sync Demo.owner ["٣"] Demo.world0)) = [Some 3]
  ∧ bad_target Demo.owner (String "028" "5") = true.
Proof. split; vm_compute; reflexivity. Qed.

Lemma demo_calls_keep_store : calls_keep_store.
Proof.
  intros X c w. destruct c; cbn; repeat case_match; apply untouched_refl.
Qed.

(** The words of a sync invocation and the set they stand for. *)
Definition demo_words : list string := ["5"; "$"; "*"; "."; "5"; "-2"].

Definition demo_set : target_set :=
  {[ Some 5; None; Some 7; Some 3; Some 55; Some (-2) ]}.

(** An answer of the API to a rejected sync. *)
Definition demo_rejection : string :=
  "400 Bad Request" +:+ nl +:+ "In 0.options.0.name: bad" +:+ nl
  +:+ "In 1.options.5.name: bad".

Lemma gated_handlers_ignore_strangers_demo :
  jsk_load Demo.stranger [["cogs.music"]] Demo.world0
  = Run [] Demo.world0 (inr tt)
  ∧ jsk_unload Demo.stranger [["cogs.music"]] Demo.world0
    = Run [] Demo.world0 (inr tt)
  ∧ jsk_shutdown Demo.stranger Demo.world0 = Run [] Demo.world0 (inr tt)
  ∧ jsk_rtt Demo.stranger Demo.world0 = Run [] Demo.world0 (inr tt)
  ∧ jsk_sync Demo.stranger ["$"] Demo.world0 = Run [] Demo.world0 (inr tt).
Proof.
  apply gated_handlers_ignore_strangers; cbn; lia.
Defined.

(** The invite-link command has no identity check: a stranger gets the
    link, after a call into the framework. *)
Lemma invite_answers_a_stranger :
  author_id Demo.stranger ≠ 271140080188522497
  ∧ author_id Demo.stranger ≠ 982960716413825085
  ∧ trace (jsk_invite Demo.stranger [] Demo.world0)
    = [Called ApplicationInfo (inr 4242);
       Called (Send (invite_message 4242)) (inr 0%nat)].
Proof.
  split; [cbn; lia|]. split; [cbn; lia|]. vm_compute. reflexivity.
Qed.

(** Sync raises out of the handler for a word [int] refuses, and
    sends nothing. *)
Lemma sync_raises_for_a_bad_word :
  trace (jsk_sync Demo.owner ["abc"] Demo.world0) = []
  ∧ outcome (jsk_sync Demo.owner ["abc"] Demo.world0)
    = inl (Py.BadArgument "abc is not a valid guild ID").
Proof. split; vm_compute; reflexivity. Qed.

Lemma sync_targets_deduplicated_and_ordered_demo :
  NoDup (sorted_guilds demo_set)
  ∧ upserts (trace (jsk_sync Demo.owner demo_words Demo.world0))
    = sorted_guilds demo_set.
Proof.
  destruct (sync_targets_deduplicated_and_ordered
              Demo.owner demo_words Demo.world0 demo_set)
    as (Hnd & _ & _ & _ & Hall).
  - vm_compute. reflexivity.
  - vm_compute. reflexivity.
  - vm_compute. reflexivity.
  - split; [exact Hnd|]. apply Hall. vm_compute. reflexivity.
Defined.

Lemma sync_without_targets_is_global_demo :
  outcome (parse_targets Demo.owner [] ∅ Demo.world0) = inr (Some ∅)
  ∧ sorted_guilds (∅ ∪ {[ None ]}) = [None]
  ∧ upserts (trace (jsk_sync Demo.owner [] Demo.world0)) = [None].
Proof.
  apply sync_without_targets_is_global; vm_compute; reflexivity.
Defined.

Lemma extension_failure_is_reported_inline_demo :
  attempt_name
    <$> attempts (trace (jsk_load Demo.owner
                           [["cogs.music"; "cogs.broken"]; ["new"]]
                           Demo.world0))
  = ["cogs.music"; "cogs.broken"; "new"].
Proof.
  pose proof (extension_failure_is_reported_inline
                Demo.owner [["cogs.music"; "cogs.broken"]; ["new"]]
                Demo.world0) as H.
  destruct H as ((H & _) & _).
  - vm_compute. reflexivity.
  - vm_compute. repeat constructor.
  - exact H.
Defined.

(** A failure that [except Exception] lets through, and a failure line the
    paginator refuses, end the command on the spot: the extensions that
    follow are not tried and nothing is sent. *)
Lemma uncaught_failure_ends_the_loading :
  (attempts (trace (jsk_load (FW := Demo.cancelled) Demo.owner
                             [["a"; "b"]] Demo.world0))
   = [(Load, "a", inl Demo.CancelledError)]
   ∧ lines (trace (jsk_load (FW := Demo.cancelled) Demo.owner
                            [["a"; "b"]] Demo.world0)) = []
   ∧ sends (trace (jsk_load (FW := Demo.cancelled) Demo.owner
                            [["a"; "b"]] Demo.world0)) = []
   ∧ outcome (jsk_load (FW := Demo.cancelled) Demo.owner
                       [["a"; "b"]] Demo.world0)
     = inl Demo.CancelledError)
  ∧ (attempts (trace (jsk_load Demo.owner [[Demo.long_name; "b"]]
                               Demo.world_long))
     = [(Load, Demo.long_name, inl (Demo.ExtensionFailed Demo.long_name))]
     ∧ sends (trace (jsk_load Demo.owner [[Demo.long_name; "b"]]
                              Demo.world_long)) = []
     ∧ outcome (jsk_load Demo.owner [[Demo.long_name; "b"]] Demo.world_long)
       = inl Demo.LineTooLong).
Proof.
  split; [split; [|split; [|split]]|split; [|split]];
    vm_compute; reflexivity.
Qed.

Lemma extension_report_follows_the_names_demo :
  report_sent ["cogs.music"; "nowhere"]
    (jsk_unload Demo.owner [["cogs.music"]; ["nowhere"]] Demo.world0).
Proof.
  pose proof (extension_report_follows_the_names
                Demo.owner [["cogs.music"]; ["nowhere"]] Demo.world0) as H.
  destruct H as (_ & H & _).
  - vm_compute. reflexivity.
  - apply H. vm_compute. repeat constructor.
Defined.

(** A bare [reload]: no name is given and one line is reported. *)
Lemma bare_reload_reports_jishaku :
  concat ([] : list (list string)) = []
  ∧ lines (trace (jsk_load Demo.owner_reload [] Demo.world0))
    = ["<:pln:1002153692268593173> `jishaku`"].
Proof. split; vm_compute; reflexivity. Qed.

Lemma diagnosis_never_raises_demo :
  trace (diagnose_line 0%nat "In 1.options.5.name: bad" Demo.world0) = []
  ∧ outcome (diagnose_line 0%nat "In 1.options.5.name: bad" Demo.world0)
    = inr ["In 1.options.5.name: bad"; couldnt_determine Py.IndexError].
Proof.
  pose proof (diagnosis_never_raises
                0%nat "In 1.options.5.name: bad" Demo.world0) as (_ & H & _).
  apply (H "1.options.5.name").
  - vm_compute. reflexivity.
  - right. split; vm_compute; reflexivity.
Defined.

(** A line without the known shape gets no notice: only the line itself is
    kept. *)
Lemma unmatched_line_gets_no_notice :
  SLASH_COMMAND_ERROR "400 Bad Request" = None
  ∧ diagnose_line 0%nat "400 Bad Request" Demo.world0
    = Run [] Demo.world0 (inr ["400 Bad Request"]).
Proof. split; vm_compute; reflexivity. Qed.

Lemma sync_leaves_command_tree_alone_demo :
  untouched (w_store (Demo.world_rejecting demo_rejection))
    (w_store (final (jsk_sync Demo.owner ["$"; "7"]
                       (Demo.world_rejecting demo_rejection)))).
Proof.
  apply sync_leaves_command_tree_alone, demo_calls_keep_store.
Defined.

Lemma sync_stops_before_any_sync_demo :
  upserts (trace (jsk_sync Demo.owner ["5"; "abc"; "$"] Demo.world0)) = [].
Proof.
  apply (sync_stops_before_any_sync Demo.owner ["5"; "abc"; "$"] Demo.world0).
  - vm_compute. reflexivity.
  - right. exists "abc". split; [|reflexivity].
    apply list_elem_of_further, list_elem_of_here.
Defined.

Lemma invite_ignores_permission_names_demo :
  sends (trace (jsk_invite Demo.stranger ["administrator"] Demo.world0))
  = sends (trace (jsk_invite Demo.owner ["send_messages"; "kick_members"]
                    (Demo.world_rejecting demo_rejection))).
Proof.
  apply (invite_ignores_permission_names
           Demo.stranger Demo.owner ["administrator"]
           ["send_messages"; "kick_members"] Demo.world0
           (Demo.world_rejecting demo_rejection) 4242);
    vm_compute; reflexivity.
Defined.

End OnTheDemoBot.

(** ** Further readings of a trace and of the inputs *)

Section MoreReadings.
Context {F : Type} {FW : Framework F} {PG : Paginator} {NM : Numerics}
        {IN : Interpreter}.

Fixpoint all_chars (p : ascii → bool) (s : string) : bool :=
  match s with
  | EmptyString => true
  | String c r => p c && all_chars p r
  end.

(** An event that returned. *)
Definition returned (ev : event) : bool :=
  match ev with
  | Called _ (inr _) => true
  | Line _ _ (inr _) => true
  | _ => false
  end.

Definition all_returned (t : list event) : Prop :=
  Forall (λ ev, returned ev = true) t.

Definition close_call {X} (c : op X) : bool :=
  match c with
  | Close => true
  | _ => false
  end.

(** How often [bot.close()] was called. *)
Definition closes (t : list event) : nat :=
  length (omap (fun ev => match ev with
                          | Called c _ =>
                              if close_call c then Some tt else None
                          | Line _ _ _ => None
                          end) t).

Definition sent_message {X} (c : op X) : Py.result X → option message :=
  match c in op X return Py.result X → option message with
  | Send _ => fun r => match r with inr m => Some m | inl _ => None end
  | _ => fun _ => None
  end.

(** The messages [ctx.send] returned. *)
Definition sent_messages (t : list event) : list message :=
  omap (fun ev => match ev with
                  | Called c r => sent_message c r
                  | Line _ _ _ => None
                  end) t.

Definition edited_message {X} (c : op X) : option message :=
  match c with
  | Edit m _ => Some m
  | _ => None
  end.

(** The messages [message.edit] was called on. *)
Definition edits (t : list event) : list message :=
  omap (fun ev => match ev with
                  | Called c _ => edited_message c
                  | Line _ _ _ => None
                  end) t.

Definition shown_content {X} (c : op X) : option string :=
  match c with
  | Send content => Some content
  | Edit _ content => Some content
  | _ => None
  end.

(** The texts put on display, by [send] or by [edit], in order. *)
Definition contents (t : list event) : list string :=
  omap (fun ev => match ev with
                  | Called c _ => shown_content c
                  | Line _ _ _ => None
                  end) t.

(** The targets one word of a sync invocation stands for. *)
Definition target_meaning (ctx : ContextA) (keys : list Z) (target : string)
  : target_set :=
  if String.eqb target "$" then {[ None ]}
  else if String.eqb target "*" then list_to_set (Some <$> keys)
  else if String.eqb target "." then
         match guild ctx with Some g => {[ Some g ]} | None => ∅ end
  else match py_int target with inr n => {[ Some n ]} | inl _ => ∅ end.

Definition upsert_result {X} (c : op X)
  : Py.result X → option (option Z * Py.result (list json)) :=
  match c in op X
        return Py.result X → option (option Z * Py.result (list json)) with
  | BulkUpsertGlobal _ _ => fun r => Some (None, r)
  | BulkUpsertGuild _ g _ => fun r => Some (Some g, r)
  | _ => fun _ => None
  end.

(** The syncs of a trace with the way each ended. *)
Definition sync_results (t : list event)
  : list (option Z * Py.result (list json)) :=
  omap (fun ev => match ev with
                  | Called c r => upsert_result c r
                  | Line _ _ _ => None
                  end) t.

(** The line reported for a sync that went through. *)
Definition synced_line (guild : option Z) (n : nat) : string :=
  match guild with
  | Some g =>
      if guild_truthy guild then
        SATELLITE_ANTENNA +:+ " `" +:+ Py.str_int g +:+ "` Synced "
        +:+ Py.str_int (Z.of_nat n) +:+ " guild commands"
      else
        SATELLITE_ANTENNA +:+ " Synced " +:+ Py.str_int (Z.of_nat n)
        +:+ " global commands"
  | None =>
      SATELLITE_ANTENNA +:+ " Synced " +:+ Py.str_int (Z.of_nat n)
      +:+ " global commands"
  end.

(** The line reported for a rejected sync, with the diagnosed error text. *)
Definition rejected_line (guild : option Z) (error_text : string) : string :=
  match guild with
  | Some g =>
      if guild_truthy guild
      then WARNING_SIGN +:+ " `" +:+ Py.str_int g +:+ "`: " +:+ error_text
      else WARNING_SIGN +:+ " Global: " +:+ error_text
  | None => WARNING_SIGN +:+ " Global: " +:+ error_text
  end.

(** An extra line goes with an error line exactly when the line has the
    known shape. *)
Definition diagnosed (line : string) (extra : list string) : Prop :=
  match SLASH_COMMAND_ERROR line with
  | None => extra = []
  | Some _ => ∃ x, extra = [x]
  end.

(** The diagnosed text of an error: the lines of [str(error)], each
    followed by the diagnosis line it gave rise to, if any, joined again. *)
Definition diagnosed_text (error : Py.exn) (extras : list (list string))
  : string :=
  Py.join nl (concat (zip_with cons (Py.split "010" (Py.exn_str error))
                                extras)).

(** A sync and the line reported for it go together: the count of what
    the API returned, or the diagnosed text of the error it raised. *)
Definition reports_sync (s : option Z * Py.result (list json))
    (line : string) : Prop :=
  match s.2 with
  | inr data => line = synced_line s.1 (length data)
  | inl error =>
      ∃ extras, Forall2 diagnosed (Py.split "010" (Py.exn_str error)) extras
                ∧ line = rejected_line s.1 (diagnosed_text error extras)
  end.

(** An event that is no extension operation and no [close]. *)
Definition no_ext_no_close (ev : event) : Prop :=
  attempts [ev] = [] ∧ closes [ev] = 0%nat.

(** Whatever [m] returns satisfies [Q]. *)
Definition returns_only {R} (Q : R → Prop) (m : M F R) : Prop :=
  ∀ w x, outcome (m w) = inr x → Q x.

(** The payload of a sync: the registered commands of the target, each
    through [to_dict()]. *)
Definition sync_commands (guild : option Z) (w : world F) : lref :=
  fw_get (AllCommands (if guild_truthy guild then guild else None)) w.

Definition sync_payload (guild : option Z) (w : world F) : list json :=
  (λ c, cmd_to_dict (st_cmds (w_store w) c))
    <$> st_lists (w_store w) (sync_commands guild w).

(** The bulk upsert made for a target. *)
Definition sync_call (guild : option Z) (w : world F) : op (list json) :=
  match guild with
  | None => BulkUpsertGlobal (fw_get ApplicationId w) (sync_payload guild w)
  | Some g =>
      BulkUpsertGuild (fw_get ApplicationId w) g (sync_payload guild w)
  end.

(** A run with one more event in front. *)
Definition after_event {R} (ev : event) (r : run F R) : run F R :=
  Run (ev :: trace r) (final r) (outcome r).

(** An event that shows in none of the readings of a sync: no line, no
    upsert, no message. *)
Definition silent (ev : event) : Prop :=
  lines [ev] = [] ∧ sync_results [ev] = [] ∧ sends [ev] = [].

(** What the loop over the sync targets leaves in the trace. *)
Definition syncs_reported (guilds : list (option Z)) (p : pag)
    (r : run F pag) : Prop :=
  (sync_results (trace r)).*1 = guilds
  ∧ Forall2 reports_sync (sync_results (trace r)) (lines (trace r))
  ∧ sends (trace r) = []
  ∧ ∃ p', outcome r = inr p' ∧ add_lines (lines (trace r)) p = inr p'.

(** What any run of a loop over the extensions leaves in the trace, cut
    short or not: the names are tried in order, a line is added only for a
    name that was tried, only the [allowed] operations are used, nothing is
    sent, and the loop returns only after the last name. *)
Definition in_step (allowed : ext_method → Prop) (names : list string)
    (r : run F pag) : Prop :=
  attempt_name <$> attempts (trace r) `prefix_of` names
  ∧ lines (trace r) `prefix_of` (report_line <$> attempts (trace r))
  ∧ Forall (λ a : ext_attempt, allowed a.1.1) (attempts (trace r))
  ∧ sends (trace r) = []
  ∧ (∀ p, outcome r = inr p →
          attempt_name <$> attempts (trace r) = names).

(** The last line of the text [jsk_rtt] shows: the mean of the websocket
    readings taken so far, or the bot's latency when there is none. *)
Definition websocket_line (websocket_readings : list float) (w : world F)
  : string :=
  match websocket_readings with
  | _ :: _ =>
      nl +:+ "Websocket latency: "
      +:+ format_2f (times_100
                       (PrimFloat.div (py_sum websocket_readings)
                                      (float_of_len websocket_readings)))
      +:+ "ms"
  | [] =>
      nl +:+ "Websocket latency: "
      +:+ format_2f (times_100 (fw_get Latency w)) +:+ "ms"
  end.

(** The request of one round of [jsk_rtt]: an edit of the message there
    is, or the first send; and the message the round leaves. *)
Definition rtt_request (current : option message) (text : string)
    (ev : event) (m' : message) : Prop :=
  match current with
  | Some m => ev = Called (Edit m text) (inr tt) ∧ m' = m
  | None => ev = Called (Send text) (inr m')
  end.

Definition perf_time {X} (c : op X) : Py.result X → option float :=
  match c in op X return Py.result X → option float with
  | PerfCounter => fun r => match r with inr t => Some t | inl _ => None end
  | _ => fun _ => None
  end.

(** What [time.perf_counter()] returned, call after call. *)
Definition perf_times (t : list event) : list float :=
  omap (fun ev => match ev with
                  | Called c r => perf_time c r
                  | Line _ _ _ => None
                  end) t.

(** [after - before] for the clock readings taken two by two. *)
Fixpoint differences (times : list float) : list float :=
  match times with
  | before :: after :: rest => PrimFloat.sub after before :: differences rest
  | _ => []
  end.

(** The round trips a run measured: the time from just before a request
    to just after it, request after request. *)
Definition round_trips (t : list event) : list float :=
  differences (perf_times t).

(** What a run of [n] rounds of [jsk_rtt] in which every call returns
    leaves in the trace: [n] texts, the [i]-th showing the readings there
    were and the first [i] round trips measured since, followed by the
    websocket line; edits of the one message. *)
Definition rtt_rounds (n : nat) (current : option message)
    (api_readings : list float) (r : run F unit) : Prop :=
  outcome r = inr tt
  ∧ length (contents (trace r)) = n
  ∧ length (round_trips (trace r)) = n
  ∧ (∀ i text, contents (trace r) !! i = Some text →
       ∃ latency,
         text = rtt_text (api_readings ++ take i (round_trips (trace r)))
                +:+ nl +:+ "Websocket latency: " +:+ latency +:+ "ms")
  ∧ match current with
    | Some m =>
        sent_messages (trace r) = [] ∧ edits (trace r) = replicate n m
    | None =>
        match n with
        | O => sent_messages (trace r) = [] ∧ edits (trace r) = []
        | S n' =>
            ∃ m, sent_messages (trace r) = [m]
                 ∧ edits (trace r) = replicate n' m
        end
    end.

(** An event that is no sync and no [close]; one that is no sync and no
    extension operation; one that is none of the three. *)
Definition no_sync_no_close (ev : event) : Prop :=
  upserts [ev] = [] ∧ closes [ev] = 0%nat.

Definition no_sync_no_ext (ev : event) : Prop :=
  upserts [ev] = [] ∧ attempts [ev] = [].

Definition plain_event (ev : event) : Prop :=
  upserts [ev] = [] ∧ attempts [ev] = [] ∧ closes [ev] = 0%nat.

End MoreReadings.

(** ** Further properties *)

Section MoreProperties.
Context {F : Type} {FW : Framework F} {PG : Paginator} {NM : Numerics}
        {IN : Interpreter}.

Lemma span_spec p (s a b : string) :
  Py.span p s = (a, b) → s = a +:+ b ∧ all_chars p a = true.
Proof.
  revert a b. induction s as [|x s IH]; intros a b; cbn.
  - intros [= <- <-]. split; reflexivity.
  - destruct (p x) eqn:Hx.
    + destruct (Py.span p s) as [a' b'] eqn:E. intros [= <- <-].
      destruct (IH a' b' eq_refl) as [-> Ha]. cbn. rewrite Hx, Ha.
      split; reflexivity.
    + intros [= <- <-]. split; reflexivity.
Qed.

Lemma strip_prefix_spec (p s r : string) :
  Py.strip_prefix p s = Some r → s = p +:+ r.
Proof.
  revert s. induction p as [|a p IH]; intros s; cbn.
  - now intros [= ->].
  - destruct s as [|b s]; [discriminate|].
    destruct (Ascii.eqb a b) eqn:E; [|discriminate].
    apply Ascii.eqb_eq in E as ->. intros H. now rewrite (IH _ H).
Qed.

Lemma path_join (a b c d : string) :
  (a +:+ "." +:+ b +:+ c) +:+ d = a +:+ String "." (b +:+ c +:+ d).
Proof. rewrite !append_assoc. reflexivity. Qed.

Lemma slash_error_item_spec (s m r : string) :
  slash_error_item s = Some (m, r) →
  s = m +:+ r
  ∧ ∃ digits letters more,
      (re_digits s).1 = digits ∧ digits ≠ "" ∧ letters ≠ ""
      ∧ all_chars Py.is_lower letters = true
      ∧ m = digits +:+ "." +:+ letters +:+ more.
Proof.
  unfold slash_error_item.
  destruct (re_digits s) as [digits r1] eqn:E1.
  pose proof (re_digits_split _ _ _ E1) as Hs. cbn [fst].
  destruct digits as [|d digits]; [discriminate|].
  destruct r1 as [|c r2]; [discriminate|].
  destruct (Ascii.eqb c ".") eqn:Ec;
    [apply Ascii.eqb_eq in Ec as ->|
     destruct c as [[] [] [] [] [] [] [] []]; try discriminate].
  destruct (Py.span Py.is_lower r2) as [letters r3] eqn:E2.
  apply span_spec in E2 as [-> Hl].
  destruct letters as [|l letters]; [discriminate|].
  assert (Hr : ∀ more r',
    r3 = more +:+ r' →
    Some (String d digits +:+ "." +:+ String l letters +:+ more, r')
    = Some (m, r) →
    s = m +:+ r
    ∧ ∃ digits0 letters0 more0,
        String d digits = digits0 ∧ digits0 ≠ "" ∧ letters0 ≠ ""
        ∧ all_chars Py.is_lower letters0 = true
        ∧ m = digits0 +:+ "." +:+ letters0 +:+ more0).
  { intros more r' -> [= <- <-]. split.
    - rewrite Hs. symmetry. apply path_join.
    - exists (String d digits), (String l letters), more.
      repeat split; try discriminate. exact Hl. }
  destruct r3 as [|c r4].
  - intros H. rewrite <- (append_nil_r (String l letters)) in H.
    apply (Hr "" "" eq_refl H).
  - destruct (Ascii.eqb c ".") eqn:Ec.
    + apply Ascii.eqb_eq in Ec as ->. intros H. apply (Hr "." r4 eq_refl H).
    + intros H.
      assert (H' : Some (String d digits +:+ "." +:+ String l letters,
                         String c r4) = Some (m, r)).
      { destruct c as [[] [] [] [] [] [] [] []]; try discriminate Ec;
          exact H. }
      rewrite <- (append_nil_r (String l letters)) in H'.
      apply (Hr "" (String c r4) eq_refl H').
Qed.

Lemma slash_error_items_spec fuel : ∀ s,
  ∃ tail, s = slash_error_items fuel s +:+ tail.
Proof.
  induction fuel as [|fuel IH]; intros s; cbn [slash_error_items].
  - exists s. reflexivity.
  - destruct (slash_error_item s) as [[m r]|] eqn:E.
    + apply slash_error_item_spec in E as (-> & _).
      destruct (IH r) as (tail & Hr). exists tail.
      rewrite append_assoc. now rewrite <- Hr.
    + exists s. reflexivity.
Qed.

Lemma length_append (a b : string) :
  String.length (a +:+ b) = (String.length a + String.length b)%nat.
Proof.
  induction a as [|x a IH]; [reflexivity|].
  change (S (String.length (a +:+ b))
          = S (String.length a + String.length b)). now rewrite IH.
Qed.

Lemma slash_error_item_shorter (s m r : string) :
  slash_error_item s = Some (m, r) →
  (String.length r < String.length s)%nat.
Proof.
  intros H. apply slash_error_item_spec in H
    as (-> & digits & letters & more & _ & Hd & _ & _ & ->).
  rewrite !length_append. destruct digits; [congruence|]. cbn. lia.
Qed.

Lemma slash_error_items_step fuel : ∀ s,
  (String.length s ≤ fuel)%nat →
  slash_error_items (S fuel) s = slash_error_items fuel s.
Proof.
  induction fuel as [|fuel IH]; intros s Hs.
  - cbn [slash_error_items].
    destruct (slash_error_item s) as [[m r]|] eqn:E; [|reflexivity].
    apply slash_error_item_shorter in E. lia.
  - change (slash_error_items (S (S fuel)) s)
      with (match slash_error_item s with
            | Some (m, r) => m +:+ slash_error_items (S fuel) r
            | None => ""
            end).
    change (slash_error_items (S fuel) s)
      with (match slash_error_item s with
            | Some (m, r) => m +:+ slash_error_items fuel r
            | None => ""
            end).
    destruct (slash_error_item s) as [[m r]|] eqn:E; [|reflexivity].
    rewrite IH; [reflexivity|]. apply slash_error_item_shorter in E. lia.
Qed.

(** The rounds of the [+] never stop for want of fuel: the length of the
    text is enough, and more changes nothing. *)
Lemma slash_error_items_enough fuel (s : string) :
  (String.length s ≤ fuel)%nat →
  slash_error_items fuel s = slash_error_items (String.length s) s.
Proof.
  induction fuel as [|fuel IH]; intros Hs.
  - replace (String.length s) with 0%nat by lia. reflexivity.
  - destruct (decide (String.length s = S fuel)) as [->|Hne]; [reflexivity|].
    rewrite slash_error_items_step by lia. apply IH. lia.
Qed.

(** X1: what [SLASH_COMMAND_ERROR] takes out of a line is the text that
    follows the leading "In ": the line is "In ", the group, and a rest.  The
    group begins with the digits [re] reads at that place, of which there is
    at least one, then a dot, then at least one lower-case ASCII letter. *)
Theorem slash_error_group_follows_In (line group_1 : string) :
  SLASH_COMMAND_ERROR line = Some group_1 →
  ∃ text rest digits letters more,
    line = "In " +:+ text
    ∧ text = group_1 +:+ rest
    ∧ (re_digits text).1 = digits ∧ digits ≠ ""
    ∧ letters ≠ "" ∧ all_chars Py.is_lower letters = true
    ∧ group_1 = digits +:+ "." +:+ letters +:+ more.
Proof.
  unfold SLASH_COMMAND_ERROR.
  destruct (Py.strip_prefix "In " line) as [r|] eqn:Ep; [|discriminate].
  apply strip_prefix_spec in Ep as ->.
  destruct (slash_error_item r) as [[m r']|] eqn:E; [|discriminate].
  apply slash_error_item_spec in E
    as (Hr & digits & letters & more & Hd & Hd' & Hl & Hl' & Hm).
  destruct (slash_error_items_spec (String.length r') r') as (tail & Ht).
  intros [= <-].
  exists r, tail, digits, letters,
    (more +:+ slash_error_items (String.length r') r').
  repeat split; auto.
  - rewrite Hr at 1. rewrite append_assoc. now rewrite <- Ht.
  - rewrite Hm, !append_assoc. reflexivity.
Qed.

Lemma split_cons (sep : ascii) (s : string) :
  ∃ h t, Py.split sep s = h :: t.
Proof.
  destruct s as [|c s]; cbn [Py.split]; [eauto|].
  destruct (Ascii.eqb c sep); [eauto|].
  destruct (Py.split sep s); eauto.
Qed.

Lemma join_split (sep : ascii) (s : string) :
  Py.join (String sep "") (Py.split sep s) = s.
Proof.
  induction s as [|c s IH]; [reflexivity|].
  cbn [Py.split]. destruct (split_cons sep s) as (h & t & Es).
  rewrite Es in IH |- *. destruct (Ascii.eqb c sep) eqn:E.
  - apply Ascii.eqb_eq in E as ->.
    change (String sep (Py.join (String sep "") (h :: t)) = String sep s).
    now rewrite IH.
  - destruct t as [|h' t].
    + cbn in IH |- *. now rewrite IH.
    + change (String c (Py.join (String sep "") (h :: h' :: t))
              = String c s).
      now rewrite IH.
Qed.

(** *** What a run returns *)

Lemma returns_ret {R} (Q : R → Prop) (x : R) :
  Q x → returns_only Q (mret x : M F R).
Proof. intros H w y [= <-]. exact H. Qed.

Lemma returns_raise {R} (Q : R → Prop) e : returns_only Q (raise e : M F R).
Proof. intros w y H. discriminate H. Qed.

Lemma returns_any {R} (m : M F R) : returns_only (λ _, True) m.
Proof. intros w y _. exact I. Qed.

Lemma returns_bind {A B} (Q' : A → Prop) (Q : B → Prop)
    (m : M F A) (k : A → M F B) :
  returns_only Q' m → (∀ x, Q' x → returns_only Q (k x)) →
  returns_only Q (m ≫= k).
Proof.
  intros Hm Hk w y. destruct (outcome (m w)) as [e|x] eqn:E.
  - rewrite (bind_inl _ _ _ _ E). discriminate.
  - rewrite (bind_inr _ _ _ _ E). cbn [outcome]. apply Hk. eapply Hm, E.
Qed.

Lemma returns_attempt {R} (Q : Py.result R → Prop) catches (m : M F R) :
  (∀ e, Q (inl e)) → returns_only (λ x, Q (inr x)) m →
  returns_only Q (attempt catches m).
Proof.
  intros He Hm w y. unfold attempt.
  destruct (outcome (m w)) as [e|x] eqn:E.
  - destruct (catches e); cbn; [|discriminate]. intros [= <-]. apply He.
  - cbn. intros [= <-]. eapply Hm, E.
Qed.

Lemma walk_keeps_selected indices : ∀ pool c name,
  returns_only (λ found, is_Some found.1)
               (walk indices pool (Some c) name : M F _).
Proof.
  induction indices as [|part rest IH]; intros pool c name.
  - apply returns_ret. cbn. eauto.
  - cbn [walk]. eapply returns_bind; [apply returns_any|]. intros index _.
    eapply returns_bind; [apply returns_any|]. intros [|item items] _.
    + eapply returns_bind; [apply returns_any|]. intros params _.
      eapply returns_bind; [apply returns_any|]. intros param _. apply IH.
    + eapply returns_bind; [apply returns_any|]. intros selected _.
      eapply returns_bind; [apply returns_any|]. intros node _.
      eapply returns_bind; [apply returns_any|]. intros pool' _. apply IH.
Qed.

Lemma walk_selects part rest pool selected name :
  returns_only (λ found, is_Some found.1)
               (walk (part :: rest) pool selected name : M F _).
Proof.
  cbn [walk]. eapply returns_bind; [apply returns_any|]. intros index _.
  eapply returns_bind; [apply returns_any|]. intros [|item items] _.
  - eapply (returns_bind (λ _, is_Some selected)).
    + destruct selected as [c|]; [|apply returns_raise].
      intros w x _. eauto.
    + intros params [c ->].
      eapply returns_bind; [apply returns_any|]. intros param _.
      apply walk_keeps_selected.
  - eapply returns_bind; [apply returns_any|]. intros sel _.
    eapply returns_bind; [apply returns_any|]. intros node _.
    eapply returns_bind; [apply returns_any|]. intros pool' _.
    apply walk_keeps_selected.
Qed.

(** X2: when the walk along a non-empty index path comes to an end, a
    command has been selected: the first step either takes a command from
    the pool or fails for want of one, and later steps never drop it. *)
Theorem walk_ends_on_a_command
    (indices : list string) (pool : option lref) (selected : option cref)
    (name : string) (w : world F) (found : option cref * string) :
  indices ≠ [] →
  outcome (walk indices pool selected name w) = inr found →
  is_Some found.1.
Proof.
  destruct indices as [|part rest]; [congruence|]. intros _.
  apply walk_selects.
Qed.

Lemma evens_split_cons (s : string) :
  ∃ part rest, Py.evens (Py.split "." s) = part :: rest.
Proof.
  destruct (split_cons "." s) as (h & t & ->).
  destruct t as [|h' t]; cbn; eauto.
Qed.

Lemma diagnose_try_one sc line group_1 :
  SLASH_COMMAND_ERROR line = Some group_1 →
  returns_only (λ added, ∃ x, added = [x])
               (diagnose_try sc line : M F _).
Proof.
  intros Hm. unfold diagnose_try. rewrite Hm.
  destruct (evens_split_cons group_1) as (part & rest & ->).
  eapply returns_bind; [apply returns_any|]. intros _ _.
  eapply returns_bind; [apply walk_selects|]. intros [sel name] [c Hc].
  cbn in Hc. subst sel.
  eapply returns_bind; [apply returns_any|]. intros node _.
  eapply returns_bind; [apply returns_any|]. intros [e|text] _.
  - apply returns_ret. eauto.
  - apply returns_ret. eauto.
Qed.

Lemma diagnose_line_diagnosed sc line (w : world F) out :
  outcome (diagnose_line sc line w) = inr out →
  ∃ extra, out = line :: extra ∧ diagnosed line extra.
Proof.
  unfold diagnosed.
  destruct (SLASH_COMMAND_ERROR line) as [group_1|] eqn:Hm.
  - pose proof (diagnose_try_one sc line group_1 Hm w) as Hone.
    unfold diagnose_line, attempt, mbind, M_bind, bind.
    destruct (outcome (diagnose_try sc line w)) as [e|added]; cbn.
    + destruct (Py.is_Exception e); cbn; [|discriminate].
      intros [= <-]. eauto.
    + intros [= <-]. destruct (Hone added eq_refl) as [x ->]. eauto.
  - unfold diagnose_line, diagnose_try. rewrite Hm. cbn.
    intros [= <-]. eauto.
Qed.

Lemma diagnose_interleaved
    (slash_commands : lref) (error_lines : list string) (w : world F)
    (out : list string) :
  outcome (diagnose slash_commands error_lines w) = inr out →
  ∃ extras, Forall2 diagnosed error_lines extras
            ∧ out = concat (zip_with cons error_lines extras).
Proof.
  revert w out.
  induction error_lines as [|line rest IH]; intros w out; cbn [diagnose].
  - intros [= <-]. exists []. split; [constructor|reflexivity].
  - destruct (outcome (diagnose_line slash_commands line w)) as [e|added]
      eqn:E1.
    { rewrite (bind_inl _ _ _ _ E1). discriminate. }
    rewrite (bind_inr _ _ _ _ E1). cbn [outcome].
    set (w1 := final (diagnose_line slash_commands line w)).
    destruct (outcome (diagnose slash_commands rest w1)) as [e|more] eqn:E2.
    { rewrite (bind_inl _ _ _ _ E2). discriminate. }
    rewrite (bind_inr _ _ _ _ E2). cbn. intros [= <-].
    destruct (diagnose_line_diagnosed _ _ _ _ E1) as (extra & -> & Hd).
    destruct (IH _ _ E2) as (extras & Hf & ->).
    exists (extra :: extras). split; [now constructor|reflexivity].
Qed.

(** X3: whenever the diagnosis of an error text returns, its lines are the
    lines of the text, in order, each one followed by exactly one diagnosis
    line when it has the known shape and by nothing when it has not. *)
Theorem diagnosis_interleaves
    (slash_commands : lref) (error_lines : list string) (w : world F)
    (out : list string) :
  outcome (diagnose slash_commands error_lines w) = inr out →
  ∃ extras, Forall2 diagnosed error_lines extras
            ∧ out = concat (zip_with cons error_lines extras).
Proof. apply diagnose_interleaved. Qed.

Lemma outcome_bind {A B} (m : M F A) (k : A → M F B) w :
  outcome ((m ≫= k) w)
  = match outcome (m w) with
    | inl e => inl e
    | inr x => outcome (k x (final (m w)))
    end.
Proof. unfold mbind, M_bind, bind. now destruct (outcome (m w)). Qed.

Lemma outcome_attempt {R} catches (m : M F R) w :
  outcome (attempt catches m w)
  = match outcome (m w) with
    | inl e => if catches e then inr (inl e) else inl e
    | inr x => inr (inr x)
    end.
Proof.
  unfold attempt. destruct (outcome (m w)) as [e|x]; [|reflexivity].
  now destruct (catches e).
Qed.

Lemma final_attempt {R} catches (m : M F R) w :
  final (attempt catches m w) = final (m w).
Proof.
  unfold attempt. destruct (outcome (m w)) as [e|x]; [|reflexivity].
  now destruct (catches e).
Qed.

Lemma outcome_call {X} (c : op X) (w : world F) :
  outcome (call c w) = (fw_call c w).2.
Proof. now rewrite call_run. Qed.

Lemma final_call {X} (c : op X) (w : world F) :
  final (call c w) = (fw_call c w).1.
Proof. now rewrite call_run. Qed.

(** X4: when the index path of an error line leads to a command, the
    diagnosis adds one line naming it: with the file and line span when both
    inspections return, with the name alone when one of them raises an
    [Exception]; an inspection failure that is no [Exception] is the only
    thing that leaves the diagnosis as an exception. *)
Theorem diagnosis_names_the_command
    (slash_commands : lref) (line group_1 : string) (w : world F)
    (c : cref) (name : string) :
  SLASH_COMMAND_ERROR line = Some group_1 →
  (Z.of_nat (length (Py.split "." group_1)) mod 2 =? 0) = true →
  outcome (walk (Py.evens (Py.split "." group_1)) (Some slash_commands)
                None "" w) = inr (Some c, name) →
  let w1 := final (walk (Py.evens (Py.split "." group_1))
                        (Some slash_commands) None "" w) in
  let target := to_inspect (st_cmds (w_store w1) c) in
  let located := fw_call (FileLocInspection target) w1 in
  let spanned := fw_call (LineSpanInspection target) located.1 in
  let short := MAGNET +:+ " This is likely caused by: `" +:+ name +:+ "`" in
  outcome (diagnose_line slash_commands line w)
  = match located.2 with
    | inr file_loc =>
        match spanned.2 with
        | inr line_span =>
            inr [line; short +:+ " at " +:+ file_loc +:+ ":" +:+ line_span]
        | inl e => if Py.is_Exception e then inr [line; short] else inl e
        end
    | inl e => if Py.is_Exception e then inr [line; short] else inl e
    end.
Proof.
  intros Hm Ha Hw w1 target located spanned short.
  assert (Hd : outcome (diagnose_try slash_commands line w)
               = match located.2 with
                 | inr file_loc =>
                     match spanned.2 with
                     | inr line_span =>
                         inr [short +:+ " at " +:+ file_loc +:+ ":"
                              +:+ line_span]
                     | inl e =>
                         if Py.is_Exception e then inr [short] else inl e
                     end
                 | inl e => if Py.is_Exception e then inr [short] else inl e
                 end).
  { unfold diagnose_try. rewrite Hm, Ha, bind_ret.
    rewrite outcome_bind, Hw. fold w1. cbn iota beta.
    rewrite bind_read_cmd. fold target.
    rewrite outcome_bind, outcome_attempt, outcome_bind, outcome_call.
    fold located. destruct located.2 as [e|file_loc] eqn:El.
    - destruct (Py.is_Exception e); reflexivity.
    - rewrite final_call. fold located.
      rewrite outcome_bind, outcome_call. fold spanned.
      destruct spanned.2 as [e|line_span].
      + destruct (Py.is_Exception e); reflexivity.
      + cbn. unfold short. rewrite !append_assoc. reflexivity. }
  unfold diagnose_line. rewrite outcome_bind, outcome_attempt, Hd.
  destruct located.2 as [e|file_loc].
  - destruct (Py.is_Exception e) eqn:He; [reflexivity|].
    rewrite He. reflexivity.
  - destruct spanned.2 as [e|line_span]; [|reflexivity].
    destruct (Py.is_Exception e) eqn:He; [reflexivity|].
    rewrite He. reflexivity.
Qed.

(** *** One sync *)

Lemma sync_guild_run guild p (w : world F) :
  let c := sync_call guild w in
  let res := fw_call c w in
  sync_guild guild p w
  = after_event (Called c res.2)
      match res.2 with
      | inr data => add_line (synced_line guild (length data)) true p res.1
      | inl e =>
          if Py.is_HTTPException e
          then (diagnose (sync_commands guild w)
                         (Py.split "010" (Py.exn_str e))
                ≫= λ error_lines,
                  add_line (rejected_line guild (Py.join nl error_lines))
                           true p) res.1
          else Run [] res.1 (inl e)
      end.
Proof.
  intros c res. subst res c. unfold sync_guild.
  rewrite bind_get, bind_read_list.
  rewrite (bind_inr _ _ _ _ (f_equal outcome (to_dicts_run _ _))).
  rewrite to_dicts_run. cbn [trace final outcome app]. rewrite bind_get.
  fold (sync_commands guild w). fold (sync_payload guild w).
  destruct guild as [g|]; cbn [sync_call].
  - set (c := BulkUpsertGuild _ _ _).
    pose proof (attempt_call_run Py.is_HTTPException c w) as Hat.
    destruct (fw_call c w).2 as [e|data] eqn:Hres.
    + destruct (Py.is_HTTPException e) eqn:He.
      * rewrite (bind_inr _ _ _ _ (f_equal outcome Hat)), Hat.
        cbn [trace final outcome app]. unfold after_event, rejected_line.
        destruct (guild_truthy (Some g)); reflexivity.
      * rewrite (bind_inl _ _ _ _ (f_equal outcome Hat)), Hat. reflexivity.
    + rewrite (bind_inr _ _ _ _ (f_equal outcome Hat)), Hat.
      cbn [trace final outcome app]. unfold after_event, synced_line.
      destruct (guild_truthy (Some g)); reflexivity.
  - set (c := BulkUpsertGlobal _ _).
    pose proof (attempt_call_run Py.is_HTTPException c w) as Hat.
    destruct (fw_call c w).2 as [e|data] eqn:Hres.
    + destruct (Py.is_HTTPException e) eqn:He.
      * rewrite (bind_inr _ _ _ _ (f_equal outcome Hat)), Hat. reflexivity.
      * rewrite (bind_inl _ _ _ _ (f_equal outcome Hat)), Hat. reflexivity.
    + rewrite (bind_inr _ _ _ _ (f_equal outcome Hat)), Hat. reflexivity.
Qed.

Lemma diagnose_unmatched sc error_lines (w : world F) :
  Forall (λ line, SLASH_COMMAND_ERROR line = None) error_lines →
  diagnose sc error_lines w = Run [] w (inr error_lines).
Proof.
  induction 1 as [|line rest Hm _ IH]; [reflexivity|].
  cbn [diagnose].
  assert (E : diagnose_line sc line w = Run [] w (inr [line])).
  { unfold diagnose_line, diagnose_try. rewrite Hm. reflexivity. }
  rewrite (bind_inr _ _ _ _ (f_equal outcome E)), E.
  cbn [trace final outcome app].
  rewrite (bind_inr _ _ _ _ (f_equal outcome IH)), IH. reflexivity.
Qed.

(** X5: when the API rejects a sync with an [HTTPException] and no line of
    its text has the known shape, the text is reported as it is: the one
    line handed to the paginator is the warning sign, the target and
    [str(error)], and nothing else happens after the call. *)
Theorem unmatched_error_is_reported_verbatim
    (guild : option Z) (p : pag) (w : world F) (e : Py.exn) :
  (fw_call (sync_call guild w) w).2 = inl e →
  Py.is_HTTPException e = true →
  Forall (λ line, SLASH_COMMAND_ERROR line = None)
         (Py.split "010" (Py.exn_str e)) →
  sync_guild guild p w
  = after_event (Called (sync_call guild w) (inl e))
      (add_line (rejected_line guild (Py.exn_str e)) true p
                (fw_call (sync_call guild w) w).1).
Proof.
  intros Hres He Hun. rewrite sync_guild_run. cbv zeta. rewrite Hres, He.
  pose proof (diagnose_unmatched (sync_commands guild w) _
                (fw_call (sync_call guild w) w).1 Hun) as Hd.
  rewrite (bind_inr _ _ _ _ (f_equal outcome Hd)), Hd.
  cbn [trace final outcome app].
  change nl with (String "010" "").
  rewrite join_split. now destruct (add_line _ _ _ _).
Qed.

(** *** The words of a sync invocation *)

Lemma parse_targets_good ctx targets : ∀ guilds_set (w : world F),
  Forall (λ t, bad_target ctx t = false) targets →
  parse_targets ctx targets guilds_set w
  = Run [] w
        (inr (Some (guilds_set
                    ∪ ⋃ (target_meaning ctx (fw_get GuildCommandKeys w)
                           <$> targets)))).
Proof.
  induction targets as [|target rest IH]; intros guilds_set w Hgood.
  - cbn. now rewrite (right_id_L ∅ (∪)).
  - apply Forall_cons in Hgood as [Hb Hgood].
    cbn [parse_targets]. rewrite fmap_cons, union_list_cons.
    unfold bad_target in Hb. unfold target_meaning at 1.
    destruct (String.eqb target "$").
    { rewrite IH by exact Hgood. now rewrite (assoc_L (∪)). }
    destruct (String.eqb target "*").
    { rewrite bind_get, IH by exact Hgood. now rewrite (assoc_L (∪)). }
    destruct (String.eqb target ".").
    { destruct (guild ctx); [|discriminate].
      rewrite IH by exact Hgood. now rewrite (assoc_L (∪)). }
    destruct (py_int target) as [error|n]; [discriminate|].
    rewrite IH by exact Hgood. now rewrite (assoc_L (∪)).
Qed.

(** X6: when no word of a sync invocation is a stopping one, the parsing
    makes no call, leaves the world as it is and yields the union of what
    the words stand for: [$] the global target, [*] every guild that has
    commands, [.] the guild of the invocation, a number that guild. *)
Theorem sync_words_mean_their_union
    (ctx : ContextA) (targets : list string) (w : world F) :
  Forall (λ t, bad_target ctx t = false) targets →
  parse_targets ctx targets ∅ w
  = Run [] w
        (inr (Some (⋃ (target_meaning ctx (fw_get GuildCommandKeys w)
                         <$> targets)))).
Proof.
  intros Hgood. rewrite parse_targets_good by exact Hgood.
  now rewrite (left_id_L ∅ (∪)).
Qed.

Lemma meanings_same_words ctx keys (targets targets' : list string) :
  (∀ t, t ∈ targets ↔ t ∈ targets') →
  ⋃ (target_meaning ctx keys <$> targets)
  = ⋃ (target_meaning ctx keys <$> targets').
Proof.
  intros H. apply set_eq. intros x. rewrite !elem_of_union_list.
  split; intros (X & HX & Hx); apply list_elem_of_fmap in HX as (t & -> & Ht);
    exists (target_meaning ctx keys t); (split; [|exact Hx]);
    apply list_elem_of_fmap_2, H, Ht.
Qed.

(** X7: the order of the words of a sync invocation and their repetition
    do not matter: two invocations in the same world whose word lists hold
    the same words, none of them a stopping one, run alike, call for call. *)
Theorem sync_ignores_order_and_repeats
    (ctx : ContextA) (targets targets' : list string) (w : world F) :
  (∀ t, t ∈ targets ↔ t ∈ targets') →
  Forall (λ t, bad_target ctx t = false) targets →
  jsk_sync ctx targets w = jsk_sync ctx targets' w.
Proof.
  intros Hsame Hgood.
  assert (Hgood' : Forall (λ t, bad_target ctx t = false) targets').
  { rewrite Forall_forall in Hgood |- *. intros t Ht. apply Hgood, Hsame, Ht. }
  assert (Hf : Py.falsy targets = Py.falsy targets').
  { destruct targets as [|a l], targets' as [|b l']; try reflexivity.
    - pose proof (proj2 (Hsame b) (list_elem_of_here _ _)) as H.
      inversion H.
    - pose proof (proj1 (Hsame a) (list_elem_of_here _ _)) as H.
      inversion H. }
  unfold jsk_sync. destruct (not_allowed ctx); [reflexivity|].
  rewrite !bind_get.
  destruct (application_id_missing _); [reflexivity|].
  rewrite (bind_inr _ _ _ _ (f_equal outcome
             (parse_targets_good ctx targets ∅ w Hgood))).
  rewrite (bind_inr _ _ _ _ (f_equal outcome
             (parse_targets_good ctx targets' ∅ w Hgood'))).
  rewrite !parse_targets_good by assumption.
  rewrite (meanings_same_words ctx _ targets targets' Hsame), Hf.
  reflexivity.
Qed.

(** *** The report of a sync *)

Lemma reading_nil {B} (f : event → option B) (t : list event) :
  Forall (λ ev, omap f [ev] = []) t → omap f t = [].
Proof.
  induction 1 as [|ev t Hev _ IH]; [reflexivity|].
  change (ev :: t) with ([ev] ++ t). now rewrite omap_app, Hev, IH.
Qed.

Lemma silent_trace {R} (m : M F R) w :
  emits_only silent m →
  lines (trace (m w)) = [] ∧ sync_results (trace (m w)) = []
  ∧ sends (trace (m w)) = [].
Proof.
  intros H. specialize (H w). repeat split; apply reading_nil;
    (eapply Forall_impl; [exact H|]); intros ev (? & ? & ?); assumption.
Qed.

Lemma emits_silent_diagnose sc ls :
  emits_only silent (diagnose sc ls : M F _).
Proof.
  induction ls as [|line rest IH]; cbn [diagnose]; [apply emits_ret|].
  unfold diagnose_line, diagnose_try.
  repeat first
    [ emits_step | apply emits_walk
    | apply emits_call; intros; repeat split | split_match ].
Qed.

Lemma sync_results_app t1 t2 :
  sync_results (t1 ++ t2) = sync_results t1 ++ sync_results t2.
Proof. apply omap_app. Qed.

Lemma sync_call_readings guild (w : world F) res t :
  sync_results (Called (sync_call guild w) res :: t)
  = (guild, res) :: sync_results t
  ∧ lines (Called (sync_call guild w) res :: t) = lines t
  ∧ sends (Called (sync_call guild w) res :: t) = sends t
  ∧ handled (Called (sync_call guild w) res)
    = match res with inl e => Py.is_HTTPException e | inr _ => true end.
Proof. destruct guild, res; repeat split. Qed.

Lemma sync_guild_settled guild p (w : world F) :
  settled (trace (sync_guild guild p w)) →
  syncs_reported [guild] p (sync_guild guild p w).
Proof.
  rewrite sync_guild_run. cbv zeta.
  set (c := sync_call guild w). set (res := (fw_call c w).2).
  set (w1 := (fw_call c w).1). unfold after_event, settled, syncs_reported.
  cbn [trace outcome].
  intros Hs. apply Forall_cons in Hs as [Hc Hs].
  pose proof (λ t, sync_call_readings guild w res t) as Hread.
  fold c in Hread. destruct (Hread []) as (_ & _ & _ & Hh).
  rewrite Hh in Hc. clear Hh.
  destruct res as [e|data] eqn:Hres.
  - rewrite Hc in Hs |- *.
    set (diag := diagnose (sync_commands guild w)
                          (Py.split "010" (Py.exn_str e)) w1) in *.
    destruct (silent_trace (diagnose (sync_commands guild w)
                (Py.split "010" (Py.exn_str e))) w1
                (emits_silent_diagnose _ _)) as (Hl & Hr & Hsd).
    fold diag in Hl, Hr, Hsd.
    destruct (outcome diag) as [e'|error_lines] eqn:Ed.
    + rewrite (bind_inl _ _ _ _ Ed) in Hs. cbn [trace] in Hs.
      destruct (within_diagnose (λ _, False) _ _ w1 e' Hs Ed).
    + rewrite (bind_inr _ _ _ _ Ed) in Hs |- *.
      rewrite add_line_run in Hs |- *. cbn [trace outcome] in Hs |- *.
      apply Forall_app in Hs as [_ Hs]. apply Forall_cons in Hs as [Hp _].
      set (l := rejected_line guild (Py.join nl error_lines)) in *.
      destruct (pag_add_line l true p) as [e'|p'] eqn:Hadd;
        [discriminate Hp|].
      fold diag.
      destruct (Hread (trace diag ++ [Line l true (inr ())]))
        as (-> & -> & -> & _).
      rewrite sync_results_app, lines_app, sends_app, Hl, Hr, Hsd.
      cbn. repeat split.
      * repeat constructor. unfold reports_sync. cbn [fst snd].
        destruct (diagnose_interleaved _ _ _ _ Ed) as (extras & Hf & Hx).
        exists extras. split; [exact Hf|].
        subst l. unfold diagnosed_text. now rewrite Hx.
      * exists p'. rewrite Hadd. split; reflexivity.
  - rewrite add_line_run in Hs |- *. cbn [trace outcome] in Hs |- *.
    apply Forall_cons in Hs as [Hp _].
    set (l := synced_line guild (length data)) in *.
    destruct (pag_add_line l true p) as [e'|p'] eqn:Hadd; [discriminate Hp|].
    destruct (Hread [Line l true (inr ())]) as (-> & -> & -> & _).
    cbn. repeat split.
    * repeat constructor.
    * exists p'. rewrite Hadd. split; reflexivity.
Qed.

Lemma add_lines_app ls1 ls2 p :
  add_lines (ls1 ++ ls2) p
  = match add_lines ls1 p with
    | inr p' => add_lines ls2 p'
    | inl e => inl e
    end.
Proof.
  revert p. induction ls1 as [|l ls1 IH]; intros p; cbn; [reflexivity|].
  destruct (pag_add_line l true p); [reflexivity|apply IH].
Qed.

Lemma sync_each_settled guilds : ∀ p (w : world F),
  settled (trace (sync_each guilds p w)) →
  syncs_reported guilds p (sync_each guilds p w).
Proof.
  induction guilds as [|guild rest IH]; intros p w; cbn [sync_each].
  - intros _. repeat split; [constructor|]. exists p. split; reflexivity.
  - destruct (outcome (sync_guild guild p w)) as [e|p1] eqn:E.
    + rewrite (bind_inl _ _ _ _ E). cbn [trace]. intros Hs.
      destruct (sync_guild_settled _ _ _ Hs) as (_ & _ & _ & p' & Ho & _).
      congruence.
    + rewrite (bind_inr _ _ _ _ E). unfold settled, syncs_reported.
      cbn [trace outcome]. intros [Hs1 Hs2]%Forall_app.
      destruct (sync_guild_settled _ _ _ Hs1)
        as (Hg & Hf & Hsd & p' & Ho & Hp).
      assert (p' = p1) as -> by congruence.
      destruct (IH p1 _ Hs2) as (Hg' & Hf' & Hsd' & p2 & Ho' & Hp').
      rewrite sync_results_app, lines_app, sends_app, fmap_app.
      rewrite Hg, Hg', Hsd, Hsd'. repeat split.
      * now apply Forall2_app.
      * exists p2. split; [exact Ho'|]. now rewrite add_lines_app, Hp.
Qed.

Lemma parse_targets_some ctx targets : ∀ acc (w : world F) guilds_set,
  outcome (parse_targets ctx targets acc w) = inr (Some guilds_set) →
  trace (parse_targets ctx targets acc w) = [].
Proof.
  induction targets as [|target rest IH]; intros acc w guilds_set;
    cbn [parse_targets]; [reflexivity|].
  destruct (String.eqb target "$"); [apply IH|].
  destruct (String.eqb target "*"); [rewrite bind_get; apply IH|].
  destruct (String.eqb target ".").
  { destruct (guild ctx); [apply IH|]. rewrite outcome_bind.
    destruct (outcome (call _ w)); discriminate. }
  destruct (py_int target) as [error|n]; [|apply IH].
  destruct (Py.is_ValueError error); discriminate.
Qed.

Lemma send_pages_settled pages (w : world F) :
  settled (trace (send_pages pages w)) →
  sends (trace (send_pages pages w)) = pages
  ∧ lines (trace (send_pages pages w)) = []
  ∧ sync_results (trace (send_pages pages w)) = []
  ∧ outcome (send_pages pages w) = inr tt.
Proof.
  intros Hs.
  assert (Ho : outcome (send_pages pages w) = inr tt).
  { destruct (outcome (send_pages pages w)) as [e|[]] eqn:E; [|reflexivity].
    destruct (within_send_pages (λ _, False) pages w e Hs E). }
  destruct (send_pages_run pages w) as (_ & Hl & _ & Hall).
  split; [apply Hall, Ho|]. split; [exact Hl|]. split; [|exact Ho].
  apply reading_nil.
  apply (emits_send_pages (λ ev, sync_results [ev] = [])). reflexivity.
Qed.

Lemma jsk_sync_reported
    (ctx : ContextA) (targets : list string) (w : world F)
    (guilds_set : target_set) :
  not_allowed ctx = false →
  application_id_missing (fw_get ApplicationId w) = false →
  outcome (parse_targets ctx targets ∅ w) = inr (Some guilds_set) →
  settled (trace (jsk_sync ctx targets w)) →
  (sync_results (trace (jsk_sync ctx targets w))).*1
  = sorted_guilds (if Py.falsy targets then guilds_set ∪ {[ None ]}
                   else guilds_set)
  ∧ Forall2 reports_sync (sync_results (trace (jsk_sync ctx targets w)))
                         (lines (trace (jsk_sync ctx targets w)))
  ∧ (∃ p, add_lines (lines (trace (jsk_sync ctx targets w))) pag_new = inr p
          ∧ sends (trace (jsk_sync ctx targets w)) = pag_pages p)
  ∧ outcome (jsk_sync ctx targets w) = inr tt.
Proof.
  intros Ha Hid Hp. unfold jsk_sync. rewrite Ha, bind_get, Hid.
  rewrite (bind_inr _ _ _ _ Hp), (parse_targets_some _ _ _ _ _ Hp).
  cbn [trace outcome final app].
  set (guilds := sorted_guilds _).
  set (w1 := final (parse_targets ctx targets ∅ w)).
  destruct (outcome (sync_each guilds pag_new w1)) as [e|p] eqn:E.
  - rewrite (bind_inl _ _ _ _ E). cbn [trace]. intros Hs.
    destruct (sync_each_settled _ _ _ Hs) as (_ & _ & _ & p' & Ho & _).
    congruence.
  - rewrite (bind_inr _ _ _ _ E). cbn [trace outcome].
    intros [Hs1 Hs2]%Forall_app.
    destruct (sync_each_settled _ _ _ Hs1) as (Hg & Hf & Hsd & p' & Ho & Hl).
    assert (p' = p) as -> by congruence.
    destruct (send_pages_settled _ _ Hs2) as (Hsp & Hlp & Hrp & Hop).
    rewrite sync_results_app, lines_app, sends_app, Hsp, Hlp, Hrp, Hsd.
    rewrite !app_nil_r. repeat split; [exact Hg|exact Hf| |exact Hop].
    exists p. split; [exact Hl|reflexivity].
Qed.

(** X8: sync reports every target it synced with one line, in the order of
    the syncs: the satellite line with the number of commands the API
    answered with when the upsert went through, the warning line with the
    diagnosed error text when it was rejected (the lines of [str(error)],
    each followed by its diagnosis line when it has the known shape); the
    target is named unless it is the global one.  The messages sent are the
    pages made of these lines, and the command returns.  (For a run in
    which the failures are the ones the handler catches.) *)
Theorem sync_reports_each_target
    (ctx : ContextA) (targets : list string) (w : world F)
    (guilds_set : target_set) :
  not_allowed ctx = false →
  application_id_missing (fw_get ApplicationId w) = false →
  outcome (parse_targets ctx targets ∅ w) = inr (Some guilds_set) →
  settled (trace (jsk_sync ctx targets w)) →
  (sync_results (trace (jsk_sync ctx targets w))).*1
  = sorted_guilds (if Py.falsy targets then guilds_set ∪ {[ None ]}
                   else guilds_set)
  ∧ Forall2 reports_sync (sync_results (trace (jsk_sync ctx targets w)))
                         (lines (trace (jsk_sync ctx targets w)))
  ∧ (∃ p, add_lines (lines (trace (jsk_sync ctx targets w))) pag_new = inr p
          ∧ sends (trace (jsk_sync ctx targets w)) = pag_pages p)
  ∧ outcome (jsk_sync ctx targets w) = inr tt.
Proof. apply jsk_sync_reported. Qed.

(** *** The loops over the extensions, whatever happens *)

Lemma report_step_any {B} (m : ext_method) ext p (k : pag → M F B)
    (w : world F) (r : run F B) :
  let c := method_op m ext in
  let l := report_line (m, ext, (fw_call c w).2) in
  r =
    (attempt Py.is_Exception (call c) ≫= λ r,
       match r with
       | inl exc =>
           add_line (icon_of m +:+ " `" +:+ ext +:+ "`" +:+ nl +:+ "```py"
                     +:+ nl +:+ Py.concat_strings (Py.exn_format exc 1)
                     +:+ nl +:+ "```") true p
       | inr _ => add_line (icon_of m +:+ " `" +:+ ext +:+ "`") true p
       end ≫= k) w →
  (∃ e, trace r = [Called c (fw_call c w).2] ∧ outcome r = inl e)
  ∨ (∃ e, trace r = [Called c (fw_call c w).2; Line l true (inl e)]
          ∧ outcome r = inl e)
  ∨ (∃ p', r = Run (Called c (fw_call c w).2 :: Line l true (inr tt)
                    :: trace (k p' (fw_call c w).1))
                   (final (k p' (fw_call c w).1))
                   (outcome (k p' (fw_call c w).1))).
Proof.
  intros c l ->. subst l.
  pose proof (attempt_call_run Py.is_Exception c w) as Hat.
  destruct (fw_call c w).2 as [e|[]] eqn:Hres.
  - destruct (Py.is_Exception e) eqn:He.
    + rewrite (bind_inr _ _ _ _ (f_equal outcome Hat)), Hat.
      cbn [trace final outcome report_line].
      set (l := icon_of m +:+ _).
      pose proof (add_line_run l true p (fw_call c w).1) as Hal.
      destruct (pag_add_line l true p) as [e'|p'] eqn:Hp.
      * rewrite (bind_inl _ _ _ _ (f_equal outcome Hal)), Hal.
        right. left. exists e'. split; reflexivity.
      * rewrite (bind_inr _ _ _ _ (f_equal outcome Hal)), Hal.
        right. right. exists p'. reflexivity.
    + rewrite (bind_inl _ _ _ _ (f_equal outcome Hat)), Hat.
      left. exists e. split; reflexivity.
  - rewrite (bind_inr _ _ _ _ (f_equal outcome Hat)), Hat.
    cbn [trace final outcome report_line].
    set (l := icon_of m +:+ _).
    pose proof (add_line_run l true p (fw_call c w).1) as Hal.
    destruct (pag_add_line l true p) as [e'|p'] eqn:Hp.
    + rewrite (bind_inl _ _ _ _ (f_equal outcome Hal)), Hal.
      right. left. exists e'. split; reflexivity.
    + rewrite (bind_inr _ _ _ _ (f_equal outcome Hal)), Hal.
      right. right. exists p'. reflexivity.
Qed.

Lemma in_step_cons (allowed : ext_method → Prop) m ext rest p k
    (w : world F) (r : run F pag) :
  allowed m →
  (∀ p' w', in_step allowed rest (k p' w')) →
  r =
    (attempt Py.is_Exception (call (method_op m ext)) ≫= λ r,
       match r with
       | inl exc =>
           add_line (icon_of m +:+ " `" +:+ ext +:+ "`" +:+ nl +:+ "```py"
                     +:+ nl +:+ Py.concat_strings (Py.exn_format exc 1)
                     +:+ nl +:+ "```") true p
       | inr _ => add_line (icon_of m +:+ " `" +:+ ext +:+ "`") true p
       end ≫= k) w →
  in_step allowed (ext :: rest) r.
Proof.
  intros Hm Hk Er.
  destruct (report_step_any m ext p k w r Er)
    as [(e & Ht & Ho)|[(e & Ht & Ho)|(p' & ->)]]; unfold in_step.
  - rewrite Ht, Ho.
    replace (attempts [Called (method_op m ext) (fw_call (method_op m ext) w).2])
      with [(m, ext, (fw_call (method_op m ext) w).2)]
      by (destruct m; reflexivity).
    replace (sends [Called (method_op m ext) (fw_call (method_op m ext) w).2])
      with (@nil string) by (destruct m; reflexivity).
    cbn. repeat split.
    + exists rest. reflexivity.
    + apply prefix_nil.
    + repeat constructor. exact Hm.
    + discriminate.
  - rewrite Ht, Ho.
    rewrite (attempts_step m ext _ _ true (inl e) []).
    rewrite (sends_step m ext _ _ true (inl e) []). cbn. repeat split.
    + exists rest. reflexivity.
    + reflexivity.
    + repeat constructor. exact Hm.
    + discriminate.
  - cbn [trace outcome].
    destruct (Hk p' (fw_call (method_op m ext) w).1)
      as (Hn & Hl & Ha & Hs & Hall).
    rewrite attempts_step, lines_step, sends_step. cbn [fmap list_fmap].
    repeat split.
    + now apply prefix_cons.
    + now apply prefix_cons.
    + constructor; [exact Hm|exact Ha].
    + exact Hs.
    + intros p0 Ho. cbn. f_equal. eapply Hall, Ho.
Qed.

Lemma load_each_in_step names : ∀ p (w : world F),
  in_step (λ m, m ≠ Unload) names (load_each names p w).
Proof.
  induction names as [|ext rest IH]; intros p w.
  - repeat split; cbn; [reflexivity|reflexivity|constructor].
  - remember (load_each (ext :: rest) p w) as r eqn:Er.
    cbn [load_each] in Er. rewrite bind_get in Er.
    destruct (bool_decide (ext ∈ fw_get Extensions w)).
    + apply (in_step_cons _ Reload ext rest p (load_each rest) w r);
        [discriminate|exact IH|exact Er].
    + apply (in_step_cons _ Load ext rest p (load_each rest) w r);
        [discriminate|exact IH|exact Er].
Qed.

Lemma unload_each_in_step names : ∀ p (w : world F),
  in_step (λ m, m = Unload) names (unload_each (icon_of Unload) names p w).
Proof.
  induction names as [|ext rest IH]; intros p w.
  - repeat split; cbn; [reflexivity|reflexivity|constructor].
  - remember (unload_each (icon_of Unload) (ext :: rest) p w) as r eqn:Er.
    cbn [unload_each] in Er.
    apply (in_step_cons _ Unload ext rest p
             (unload_each (icon_of Unload) rest) w r);
      [reflexivity|exact IH|exact Er].
Qed.

Lemma loop_then_send_any allowed names (loop : M F pag) (w : world F) :
  in_step allowed names (loop w) →
  let t := trace ((loop ≫= λ p, send_pages (pag_pages p)) w) in
  attempt_name <$> attempts t `prefix_of` names
  ∧ lines t `prefix_of` (report_line <$> attempts t)
  ∧ Forall (λ a : ext_attempt, allowed a.1.1) (attempts t)
  ∧ (sends t = [] ∨ attempt_name <$> attempts t = names).
Proof.
  intros (Hn & Hl & Ha & Hs & Hall). cbv zeta.
  destruct (outcome (loop w)) as [e|p] eqn:E.
  - rewrite (bind_inl _ _ _ _ E). cbn [trace]. auto.
  - rewrite (bind_inr _ _ _ _ E). cbn [trace].
    destruct (send_pages_run (pag_pages p) (final (loop w)))
      as (Ha' & Hl' & _ & _).
    rewrite attempts_app, lines_app, Ha', Hl', !app_nil_r.
    repeat split; [exact Hn|exact Hl|exact Ha|]. right.
    apply (Hall p eq_refl).
Qed.

(** X9: in every run of load/reload and of unload, cut short or not, the
    extensions are tried in the order of the input without skipping one, a
    report line is added only for an extension that was tried, and nothing
    is sent before the last extension has been tried.  Load/reload never
    unloads and unload never loads or reloads. *)
Theorem extensions_are_tried_in_order
    (ctx : ContextA) (extensions : list (list string)) (w : world F) :
  (attempt_name <$> attempts (trace (jsk_load ctx extensions w))
     `prefix_of` load_names ctx extensions
   ∧ lines (trace (jsk_load ctx extensions w))
       `prefix_of` (report_line
                      <$> attempts (trace (jsk_load ctx extensions w)))
   ∧ Forall (λ a : ext_attempt, a.1.1 ≠ Unload)
            (attempts (trace (jsk_load ctx extensions w)))
   ∧ (sends (trace (jsk_load ctx extensions w)) = []
      ∨ attempt_name <$> attempts (trace (jsk_load ctx extensions w))
        = load_names ctx extensions))
  ∧ (attempt_name <$> attempts (trace (jsk_unload ctx extensions w))
       `prefix_of` concat extensions
     ∧ lines (trace (jsk_unload ctx extensions w))
         `prefix_of` (report_line
                        <$> attempts (trace (jsk_unload ctx extensions w)))
     ∧ Forall (λ a : ext_attempt, a.1.1 = Unload)
              (attempts (trace (jsk_unload ctx extensions w)))
     ∧ (sends (trace (jsk_unload ctx extensions w)) = []
        ∨ attempt_name <$> attempts (trace (jsk_unload ctx extensions w))
          = concat extensions)).
Proof.
  split.
  - unfold jsk_load. destruct (not_allowed ctx).
    { cbn. repeat split; [apply prefix_nil|reflexivity|constructor|now left]. }
    assert (Hn : concat (if String.eqb (invoked_with ctx) "reload"
                            && Py.falsy extensions
                         then [["jishaku"]] else extensions)
                 = load_names ctx extensions).
    { unfold load_names. destruct (_ && _); reflexivity. }
    rewrite Hn.
    apply (loop_then_send_any (λ m, m ≠ Unload) (load_names ctx extensions)
             (load_each (load_names ctx extensions) pag_new) w).
    apply load_each_in_step.
  - unfold jsk_unload. destruct (not_allowed ctx).
    { cbn. repeat split; [apply prefix_nil|reflexivity|constructor|now left]. }
    apply (loop_then_send_any (λ m, m = Unload) (concat extensions)
             (unload_each (icon_of Unload) (concat extensions) pag_new) w).
    apply unload_each_in_step.
Qed.

(** X10: load/reload decides between the two on what the bot has loaded
    when the extension's turn comes: for the first extension, the call made
    is [reload_extension] when its name is among [bot.extensions] and
    [load_extension] when it is not. *)
Theorem loaded_extension_is_reloaded
    (ctx : ContextA) (extensions : list (list string)) (w : world F)
    (name : string) (rest : list string) :
  not_allowed ctx = false →
  load_names ctx extensions = name :: rest →
  let c := if bool_decide (name ∈ fw_get Extensions w)
           then ReloadExtension name else LoadExtension name in
  head (trace (jsk_load ctx extensions w)) = Some (Called c (fw_call c w).2).
Proof.
  intros Ha Hn. unfold jsk_load. rewrite Ha.
  assert (Hn' : concat (if String.eqb (invoked_with ctx) "reload"
                           && Py.falsy extensions
                        then [["jishaku"]] else extensions)
                = name :: rest).
  { rewrite <- Hn. unfold load_names. destruct (_ && _); reflexivity. }
  rewrite Hn'. cbv zeta.
  assert (Hh : head (trace (load_each (name :: rest) pag_new w))
               = Some (Called
                         (if bool_decide (name ∈ fw_get Extensions w)
                          then ReloadExtension name else LoadExtension name)
                         (fw_call
                            (if bool_decide (name ∈ fw_get Extensions w)
                             then ReloadExtension name
                             else LoadExtension name) w).2)).
  { remember (load_each (name :: rest) pag_new w) as r eqn:Er.
    cbn [load_each] in Er. rewrite bind_get in Er.
    destruct (bool_decide (name ∈ fw_get Extensions w)).
    - destruct (report_step_any Reload name pag_new (load_each rest) w r Er)
        as [(e & -> & _)|[(e & -> & _)|(p' & ->)]]; reflexivity.
    - destruct (report_step_any Load name pag_new (load_each rest) w r Er)
        as [(e & -> & _)|[(e & -> & _)|(p' & ->)]]; reflexivity. }
  destruct (outcome (load_each (name :: rest) pag_new w)) as [e|p] eqn:E.
  - rewrite (bind_inl _ _ _ _ E). exact Hh.
  - rewrite (bind_inr _ _ _ _ E). cbn [trace].
    destruct (trace (load_each (name :: rest) pag_new w)); [discriminate Hh|].
    exact Hh.
Qed.

(** X11: shutdown closes the bot only after the announcement went out: the
    one message is always tried, [bot.close()] is called once when the send
    returned and not at all when it raised, and then the send's exception
    is what the command raises. *)
Theorem shutdown_closes_after_announcing (ctx : ContextA) (w : world F) :
  not_allowed ctx = false →
  let announced :=
    fw_call (Send "Logging out now <:bot:1002153704645988372>") w in
  sends (trace (jsk_shutdown ctx w))
  = ["Logging out now <:bot:1002153704645988372>"]
  ∧ match announced.2 with
    | inr _ =>
        closes (trace (jsk_shutdown ctx w)) = 1%nat
        ∧ outcome (jsk_shutdown ctx w) = (fw_call Close announced.1).2
    | inl e =>
        closes (trace (jsk_shutdown ctx w)) = 0%nat
        ∧ outcome (jsk_shutdown ctx w) = inl e
    end.
Proof.
  intros Ha announced. unfold jsk_shutdown. rewrite Ha.
  pose proof (call_run (Send "Logging out now <:bot:1002153704645988372>") w)
    as Hc. fold announced in Hc.
  destruct announced.2 as [e|m] eqn:Hres.
  - rewrite (bind_inl _ _ _ _ (f_equal outcome Hc)), Hc. repeat split.
  - rewrite (bind_inr _ _ _ _ (f_equal outcome Hc)), Hc.
    cbn [trace final outcome]. rewrite call_run. repeat split.
Qed.

(** *** The rounds of rtt *)

Lemma bind_call_step {X B} (c : op X) (k : X → M F B) (w : world F) :
  (call c ≫= k) w
  = match (fw_call c w).2 with
    | inl e => Run [Called c (inl e)] (fw_call c w).1 (inl e)
    | inr x => after_event (Called c (inr x)) (k x (fw_call c w).1)
    end.
Proof.
  unfold mbind, M_bind, bind. rewrite call_run. cbn.
  destruct (fw_call c w).2; reflexivity.
Qed.

Lemma rtt_round n current api ws (w : world F) (r : run F unit) :
  r = rtt_loop (S n) current api ws w →
  all_returned (trace r) →
  ∃ before after ev m' ws' w',
    rtt_request current (rtt_text api +:+ websocket_line ws w) ev m'
    ∧ r = after_event (Called PerfCounter (inr before))
            (after_event ev
               (after_event (Called PerfCounter (inr after))
                  (rtt_loop n (Some m') (api ++ [PrimFloat.sub after before])
                            ws' w'))).
Proof.
  intros Er Hret. cbn [rtt_loop] in Er.
  assert (Et : ∃ K, r = K (rtt_text api +:+ websocket_line ws w) w
    ∧ K = λ text,
        (match current with
         | Some m =>
             before ← call PerfCounter;
             _ ← call (Edit m text);
             after ← call PerfCounter;
             mret (m, api ++ [PrimFloat.sub after before])
         | None =>
             before ← call PerfCounter;
             m ← call (Send text);
             after ← call PerfCounter;
             mret (m, api ++ [PrimFloat.sub after before])
         end ≫= λ sent,
           latency ← get Latency;
           websocket_readings ←
             (if PrimFloat.ltb 0%float latency
              then latency ← get Latency; mret (ws ++ [latency])
              else mret ws);
           rtt_loop n (Some sent.1) sent.2 websocket_readings)).
  { eexists. split; [|reflexivity]. cbv beta. rewrite Er.
    destruct ws as [|x ws'].
    - rewrite bind_assoc, bind_get, bind_ret. reflexivity.
    - rewrite bind_ret. reflexivity. }
  destruct Et as (K & Er' & ->). cbv beta in Er'. clear Er.
  set (text := rtt_text api +:+ websocket_line ws w) in *.
  assert (Htail : ∀ (sent : message * list float) w3,
    ∃ ws',
      (latency ← get Latency;
       websocket_readings ←
         (if PrimFloat.ltb 0%float latency
          then latency ← get Latency; mret (ws ++ [latency])
          else mret ws);
       rtt_loop n (Some sent.1) sent.2 websocket_readings) w3
      = rtt_loop n (Some sent.1) sent.2 ws' w3).
  { intros sent w3. rewrite bind_get.
    destruct (PrimFloat.ltb 0%float (fw_get Latency w3)).
    - rewrite bind_assoc, bind_get, bind_ret. eauto.
    - rewrite bind_ret. eauto. }
  assert (Hbad : ∀ t X (c : op X) e,
            all_returned (t ++ [Called c (inl e)]) → False).
  { intros t X c e [_ H]%Forall_app. apply Forall_cons in H as [H _].
    discriminate H. }
  destruct current as [m|].
  - rewrite bind_assoc, bind_call_step in Er'.
    destruct (fw_call PerfCounter w).2 as [e|before];
      [subst r; destruct (Hbad [] _ _ _ Hret)|].
    set (w1 := (fw_call PerfCounter w).1) in *.
    rewrite bind_assoc, bind_call_step in Er'.
    destruct (fw_call (Edit m text) w1).2 as [e|[]];
      [subst r; destruct (Hbad [_] _ _ _ Hret)|].
    set (w2 := (fw_call (Edit m text) w1).1) in *.
    rewrite bind_assoc, bind_call_step in Er'.
    destruct (fw_call PerfCounter w2).2 as [e|after];
      [subst r; destruct (Hbad [_; _] _ _ _ Hret)|].
    set (w3 := (fw_call PerfCounter w2).1) in *.
    rewrite bind_ret in Er'.
    destruct (Htail (m, api ++ [PrimFloat.sub after before]) w3)
      as [ws' Hws].
    rewrite Hws in Er'. cbn [fst snd] in Er'.
    exists before, after, (Called (Edit m text) (inr tt)), m, ws', w3.
    split; [split; reflexivity|exact Er'].
  - rewrite bind_assoc, bind_call_step in Er'.
    destruct (fw_call PerfCounter w).2 as [e|before];
      [subst r; destruct (Hbad [] _ _ _ Hret)|].
    set (w1 := (fw_call PerfCounter w).1) in *.
    rewrite bind_assoc, bind_call_step in Er'.
    destruct (fw_call (Send text) w1).2 as [e|m];
      [subst r; destruct (Hbad [_] _ _ _ Hret)|].
    set (w2 := (fw_call (Send text) w1).1) in *.
    rewrite bind_assoc, bind_call_step in Er'.
    destruct (fw_call PerfCounter w2).2 as [e|after];
      [subst r; destruct (Hbad [_; _] _ _ _ Hret)|].
    set (w3 := (fw_call PerfCounter w2).1) in *.
    rewrite bind_ret in Er'.
    destruct (Htail (m, api ++ [PrimFloat.sub after before]) w3)
      as [ws' Hws].
    rewrite Hws in Er'. cbn [fst snd] in Er'.
    exists before, after, (Called (Send text) (inr m)), m, ws', w3.
    split; [reflexivity|exact Er'].
Qed.

Lemma rtt_loop_rounds n : ∀ current api ws (w : world F),
  all_returned (trace (rtt_loop n current api ws w)) →
  rtt_rounds n current api (rtt_loop n current api ws w).
Proof.
  induction n as [|n IH]; intros current api ws w Hret.
  - unfold rtt_rounds. cbn. repeat split.
    + intros i text H. destruct i; discriminate H.
    + destruct current; split; reflexivity.
  - destruct (rtt_round n current api ws w _ eq_refl Hret)
      as (before & after & ev & m' & ws' & w' & Hev & Er).
    rewrite Er in Hret |- *. clear Er.
    set (rest := rtt_loop n (Some m') (api ++ [PrimFloat.sub after before])
                          ws' w') in *.
    assert (Hrest : all_returned (trace rest)).
    { cbn [after_event trace] in Hret.
      now apply Forall_cons in Hret
        as [_ [_ [_ Hret]%Forall_cons]%Forall_cons]. }
    destruct (IH _ _ _ _ Hrest)
      as (Ho & Hlen & Hrts & Htexts & Hsent & Hedits).
    fold rest in Ho, Hlen, Hrts, Htexts, Hsent, Hedits. clearbody rest.
    assert (Hshape :
      contents (trace (after_event (Called PerfCounter (inr before))
                  (after_event ev
                     (after_event (Called PerfCounter (inr after)) rest))))
      = (rtt_text api +:+ websocket_line ws w) :: contents (trace rest)
      ∧ sent_messages
          (trace (after_event (Called PerfCounter (inr before))
                    (after_event ev
                       (after_event (Called PerfCounter (inr after)) rest))))
        = match current with Some _ => [] | None => [m'] end
      ∧ edits (trace (after_event (Called PerfCounter (inr before))
                        (after_event ev
                           (after_event (Called PerfCounter (inr after))
                                        rest))))
        = match current with
          | Some m => m :: replicate n m
          | None => replicate n m'
          end
      ∧ round_trips
          (trace (after_event (Called PerfCounter (inr before))
                    (after_event ev
                       (after_event (Called PerfCounter (inr after)) rest))))
        = PrimFloat.sub after before :: round_trips (trace rest)).
    { unfold rtt_request in Hev. destruct current as [m|].
      - destruct Hev as [-> ->]. cbn [after_event trace].
        repeat split; cbn; [exact Hsent|f_equal; exact Hedits].
      - subst ev. cbn [after_event trace].
        repeat split; cbn; [f_equal; exact Hsent|exact Hedits]. }
    destruct Hshape as (Hc & Hs & He & Hrt). unfold rtt_rounds.
    rewrite Hc, Hs, He, Hrt. cbn [after_event outcome]. repeat split.
    + exact Ho.
    + cbn. now rewrite Hlen.
    + cbn. now rewrite Hrts.
    + intros [|i] text Hi.
      * cbn in Hi. injection Hi as <-. cbn [take]. rewrite app_nil_r.
        unfold websocket_line. destruct ws; eexists; reflexivity.
      * cbn in Hi. destruct (Htexts i text Hi) as (latency & ->).
        exists latency. cbn [take]. rewrite <- app_assoc. reflexivity.
    + destruct current as [m|]; [split; reflexivity|eauto].
Qed.

(** X12: when every call returns, rtt sends one message and then edits
    that very message five times, and returns: six requests in all, the
    first of them the send. *)
Theorem rtt_sends_once_and_edits_five_times (ctx : ContextA) (w : world F) :
  not_allowed ctx = false →
  all_returned (trace (jsk_rtt ctx w)) →
  ∃ m, sent_messages (trace (jsk_rtt ctx w)) = [m]
       ∧ edits (trace (jsk_rtt ctx w)) = [m; m; m; m; m]
       ∧ outcome (jsk_rtt ctx w) = inr tt.
Proof.
  intros Ha. unfold jsk_rtt. rewrite Ha. intros Hret.
  destruct (rtt_loop_rounds 6 None [] [] w Hret)
    as (Ho & _ & _ & _ & m & Hs & He).
  exists m. repeat split; assumption.
Qed.


(** *** Which calls a handler makes *)

Ltac emits_with tac :=
  repeat first
    [ tac
    | assumption
    | apply emits_ret | apply emits_raise | apply emits_lift | apply emits_get
    | apply emits_read_list | apply emits_read_cmd | apply emits_alloc_list
    | apply emits_walk | apply emits_attempt
    | apply emits_bind; [|intros ?]
    | apply emits_call; intros; repeat split
    | apply emits_add_line; intros; repeat split
    | apply emits_send_pages; intros; repeat split
    | split_match ].

Ltac emits_any := emits_with fail.

Lemma reading_of_emits {B R} (f : event → option B) (P : event → Prop)
    (m : M F R) w :
  emits_only P m → (∀ ev, P ev → omap f [ev] = []) →
  omap f (trace (m w)) = [].
Proof.
  intros Hm HP. apply reading_nil. eapply Forall_impl; [apply Hm|exact HP].
Qed.

Lemma closes_of_emits {R} (P : event → Prop) (m : M F R) w :
  emits_only P m → (∀ ev, P ev → closes [ev] = 0%nat) →
  closes (trace (m w)) = 0%nat.
Proof.
  intros Hm HP. unfold closes. erewrite reading_of_emits; [reflexivity|exact Hm|].
  intros ev Hev. specialize (HP ev Hev). unfold closes in HP.
  now destruct (omap _ [ev]).
Qed.

Lemma emits_load_each names : ∀ p,
  emits_only no_sync_no_close (load_each names p : M F _).
Proof.
  induction names as [|ext rest IH]; intros p; cbn [load_each].
  - apply emits_ret.
  - apply emits_bind; [apply emits_get|]. intros loaded.
    destruct (bool_decide _); emits_with ltac:(apply IH).
Qed.

Lemma emits_unload_each icon names : ∀ p,
  emits_only no_sync_no_close (unload_each icon names p : M F _).
Proof.
  induction names as [|ext rest IH]; intros p; cbn [unload_each].
  - apply emits_ret.
  - emits_with ltac:(apply IH).
Qed.

Lemma emits_rtt_loop n : ∀ message api ws,
  emits_only plain_event (rtt_loop n message api ws : M F _).
Proof.
  induction n as [|n IH]; intros message api ws; cbn [rtt_loop].
  - apply emits_ret.
  - emits_with ltac:(apply IH).
Qed.

Lemma emits_sync_each guilds : ∀ p,
  emits_only no_ext_no_close (sync_each guilds p : M F _).
Proof.
  induction guilds as [|guild rest IH]; intros p; cbn [sync_each].
  - apply emits_ret.
  - apply emits_bind; [|intros p'; apply IH].
    unfold sync_guild.
    assert (Hd : ∀ sc ls, emits_only no_ext_no_close (diagnose sc ls : M F _)).
    { intros sc ls. induction ls as [|line ls IHl]; cbn [diagnose];
        [apply emits_ret|].
      unfold diagnose_line, diagnose_try. emits_with ltac:(apply IHl). }
    assert (Ht : ∀ cs, emits_only no_ext_no_close (to_dicts cs : M F _)).
    { intros cs w. rewrite to_dicts_run. constructor. }
    emits_with ltac:(first [apply Ht | apply Hd]).
Qed.

Lemma emits_parse_any ctx targets : ∀ acc,
  emits_only no_ext_no_close (parse_targets ctx targets acc : M F _).
Proof.
  induction targets as [|target rest IH]; intros acc; cbn [parse_targets].
  - apply emits_ret.
  - emits_with ltac:(apply IH).
Qed.

(** X14: each handler keeps to its own calls.  Only sync syncs commands,
    only shutdown closes the bot, and only load/reload and unload touch
    extensions: in no run does load/reload, unload, jskinvite or rtt sync or
    close, does shutdown sync or touch an extension, or does sync touch an
    extension or close. *)
Theorem handlers_keep_to_their_calls
    (ctx : ContextA) (extensions : list (list string))
    (perms targets : list string) (w : world F) :
  (upserts (trace (jsk_load ctx extensions w)) = []
   ∧ closes (trace (jsk_load ctx extensions w)) = 0%nat)
  ∧ (upserts (trace (jsk_unload ctx extensions w)) = []
     ∧ closes (trace (jsk_unload ctx extensions w)) = 0%nat)
  ∧ (upserts (trace (jsk_shutdown ctx w)) = []
     ∧ attempts (trace (jsk_shutdown ctx w)) = [])
  ∧ (upserts (trace (jsk_invite ctx perms w)) = []
     ∧ attempts (trace (jsk_invite ctx perms w)) = []
     ∧ closes (trace (jsk_invite ctx perms w)) = 0%nat)
  ∧ (upserts (trace (jsk_rtt ctx w)) = []
     ∧ attempts (trace (jsk_rtt ctx w)) = []
     ∧ closes (trace (jsk_rtt ctx w)) = 0%nat)
  ∧ (attempts (trace (jsk_sync ctx targets w)) = []
     ∧ closes (trace (jsk_sync ctx targets w)) = 0%nat).
Proof.
  assert (Hl : emits_only no_sync_no_close (jsk_load ctx extensions)).
  { unfold jsk_load. emits_with ltac:(apply emits_load_each). }
  assert (Hu : emits_only no_sync_no_close (jsk_unload ctx extensions)).
  { unfold jsk_unload. emits_with ltac:(apply emits_unload_each). }
  assert (Hs : emits_only no_sync_no_ext (jsk_shutdown ctx)).
  { unfold jsk_shutdown. emits_any. }
  assert (Hi : emits_only plain_event (jsk_invite ctx perms)).
  { unfold jsk_invite. emits_any. }
  assert (Hr : emits_only plain_event (jsk_rtt ctx)).
  { unfold jsk_rtt. emits_with ltac:(apply emits_rtt_loop). }
  assert (Hy : emits_only no_ext_no_close (jsk_sync ctx targets)).
  { unfold jsk_sync.
    emits_with ltac:(first [apply emits_parse_any | apply emits_sync_each]). }
  repeat split.
  - apply (reading_of_emits _ _ _ _ Hl). now intros ev [].
  - apply (closes_of_emits _ _ _ Hl). now intros ev [].
  - apply (reading_of_emits _ _ _ _ Hu). now intros ev [].
  - apply (closes_of_emits _ _ _ Hu). now intros ev [].
  - apply (reading_of_emits _ _ _ _ Hs). now intros ev [].
  - apply (reading_of_emits _ _ _ _ Hs). now intros ev [].
  - apply (reading_of_emits _ _ _ _ Hi). now intros ev (? & ? & ?).
  - apply (reading_of_emits _ _ _ _ Hi). now intros ev (? & ? & ?).
  - apply (closes_of_emits _ _ _ Hi). now intros ev (? & ? & ?).
  - apply (reading_of_emits _ _ _ _ Hr). now intros ev (? & ? & ?).
  - apply (reading_of_emits _ _ _ _ Hr). now intros ev (? & ? & ?).
  - apply (closes_of_emits _ _ _ Hr). now intros ev (? & ? & ?).
  - apply (reading_of_emits _ _ _ _ Hy). now intros ev [].
  - apply (closes_of_emits _ _ _ Hy). now intros ev [].
Qed.

(** *** What leaves a handler as an exception *)

Lemma settled_absorbed (t : list event) : settled t → all_absorbed t.
Proof.
  intros Hs. eapply Forall_impl; [exact Hs|].
  intros [X c r|l b r] H; cbn in H |- *; [|exact H].
  rewrite H. apply orb_true_r.
Qed.

Lemma emits_parse_quiet ctx targets : ∀ acc,
  emits_only (λ ev, sync_results [ev] = [] ∧ lines [ev] = [])
             (parse_targets ctx targets acc : M F _).
Proof.
  induction targets as [|target rest IH]; intros acc; cbn [parse_targets].
  - apply emits_ret.
  - emits_with ltac:(apply IH).
Qed.

Lemma jsk_sync_settled ctx targets (w : world F) :
  settled (trace (jsk_sync ctx targets w)) →
  (outcome (jsk_sync ctx targets w) = inr tt
   ∧ Forall2 reports_sync (sync_results (trace (jsk_sync ctx targets w)))
                          (lines (trace (jsk_sync ctx targets w)))
   ∧ (sync_results (trace (jsk_sync ctx targets w)) ≠ [] →
      ∃ p, add_lines (lines (trace (jsk_sync ctx targets w))) pag_new = inr p
           ∧ sends (trace (jsk_sync ctx targets w)) = pag_pages p))
  ∨ ∃ e, outcome (jsk_sync ctx targets w) = inl e
         ∧ bad_argument_for targets e.
Proof.
  intros Hs.
  destruct (outcome (jsk_sync ctx targets w)) as [e|[]] eqn:E.
  { right. exists e. split; [reflexivity|]. revert w e Hs E.
    change (raises_within (bad_argument_for targets) (jsk_sync ctx targets)).
    unfold jsk_sync.
    repeat first
      [ within_step | apply within_parse_targets | apply within_sync_each
      | split_match ]. }
  left. split; [reflexivity|].
  destruct (not_allowed ctx) eqn:Ha.
  { unfold jsk_sync. rewrite Ha. cbn. split; [constructor|congruence]. }
  destruct (application_id_missing (fw_get ApplicationId w)) eqn:Hid.
  { assert (Hq : sync_results (trace (jsk_sync ctx targets w)) = []
                 ∧ lines (trace (jsk_sync ctx targets w)) = []).
    { unfold jsk_sync. rewrite Ha, bind_get, Hid.
      unfold mbind, M_bind, bind. rewrite call_run. cbn [outcome trace].
      destruct (fw_call _ w).2; split; reflexivity. }
    destruct Hq as [-> ->]. split; [constructor|congruence]. }
  destruct (outcome (parse_targets ctx targets ∅ w)) as [e|[S|]] eqn:Hp.
  - exfalso. unfold jsk_sync in E.
    rewrite Ha, bind_get, Hid, (bind_inl _ _ _ _ Hp) in E. discriminate E.
  - destruct (jsk_sync_reported ctx targets w S Ha Hid Hp Hs)
      as (_ & Hf & Hpg & _).
    split; [exact Hf|]. intros _. exact Hpg.
  - assert (Hq : sync_results (trace (jsk_sync ctx targets w)) = []
                 ∧ lines (trace (jsk_sync ctx targets w)) = []).
    { unfold jsk_sync. rewrite Ha, bind_get, Hid, (bind_inr _ _ _ _ Hp).
      cbn [trace mret M_ret ret]. rewrite app_nil_r.
      split; apply (reading_of_emits _ _ _ _ (emits_parse_quiet ctx targets ∅));
        now intros ev []. }
    destruct Hq as [-> ->]. split; [constructor|congruence].
Qed.

(** C2 (amended): a handler raises only in two situations.  One is a
    failure that no [except] clause of the file stands around: a failure of
    sending, editing, closing, fetching the application info or reading the
    clock, a line the paginator refuses, a failure of an extension operation
    or of an inspection that is not an [Exception], a failure of a bulk
    upsert that is not an [HTTPException].  The other is a sync target that
    [int] refuses, for which sync raises [BadArgument].  In every run where
    all events are handled, load/reload, unload, shutdown, jskinvite and rtt
    return, and sync returns or raises that [BadArgument]; and what was
    caught is reported as chat text: load/reload and unload, for an
    authorized user, hand the paginator one line per extension, the failure
    line with the formatted exception for a failed one, sync hands it one
    line per sync, the warning line with the diagnosed error text for a
    rejected one, and the messages sent are the pages made of these
    lines. *)
Theorem handlers_raise_only_what_is_not_caught
    (ctx : ContextA) (extensions : list (list string))
    (perms targets : list string) (w : world F) :
  (settled (trace (jsk_load ctx extensions w)) →
   outcome (jsk_load ctx extensions w) = inr tt
   ∧ (not_allowed ctx = false →
      report_sent (load_names ctx extensions) (jsk_load ctx extensions w)))
  ∧ (settled (trace (jsk_unload ctx extensions w)) →
     outcome (jsk_unload ctx extensions w) = inr tt
     ∧ (not_allowed ctx = false →
        report_sent (concat extensions) (jsk_unload ctx extensions w)))
  ∧ (settled (trace (jsk_shutdown ctx w)) →
     outcome (jsk_shutdown ctx w) = inr tt)
  ∧ (settled (trace (jsk_invite ctx perms w)) →
     outcome (jsk_invite ctx perms w) = inr tt)
  ∧ (settled (trace (jsk_rtt ctx w)) → outcome (jsk_rtt ctx w) = inr tt)
  ∧ (settled (trace (jsk_sync ctx targets w)) →
     (outcome (jsk_sync ctx targets w) = inr tt
      ∧ Forall2 reports_sync
                (sync_results (trace (jsk_sync ctx targets w)))
                (lines (trace (jsk_sync ctx targets w)))
      ∧ (sync_results (trace (jsk_sync ctx targets w)) ≠ [] →
         ∃ p, add_lines (lines (trace (jsk_sync ctx targets w))) pag_new
              = inr p
              ∧ sends (trace (jsk_sync ctx targets w)) = pag_pages p))
     ∨ ∃ e, outcome (jsk_sync ctx targets w) = inl e
            ∧ bad_argument_for targets e).
Proof.
  split; [|split; [|split; [|split; [|split]]]].
  - intros Hs. split.
    + revert Hs. apply quiet_returns. unfold jsk_load.
      repeat first [within_step | apply within_load_each | split_match].
    + intros Ha. apply jsk_load_run; [exact Ha|apply settled_absorbed, Hs].
  - intros Hs. split.
    + revert Hs. apply quiet_returns. unfold jsk_unload.
      repeat first [within_step | apply within_unload_each | split_match].
    + intros Ha. apply jsk_unload_run; [exact Ha|apply settled_absorbed, Hs].
  - apply quiet_returns. unfold jsk_shutdown.
    repeat first [within_step | split_match].
  - apply quiet_returns. unfold jsk_invite.
    repeat first [within_step | split_match].
  - apply quiet_returns. unfold jsk_rtt.
    repeat first [within_step | apply within_rtt_loop | split_match].
  - apply jsk_sync_settled.
Qed.

End MoreProperties.

(** ** The further properties at work on the demo bot *)

Section MoreOnTheDemoBot.
#[local] Existing Instance Demo.framework.
#[local] Existing Instance Demo.paginator.
#[local] Existing Instance Demo.numerics.
#[local] Existing Instance Demo.interpreter.

Lemma handlers_raise_only_what_is_not_caught_demo :
  outcome (jsk_load Demo.owner [["cogs.music"; "cogs.broken"]] Demo.world0)
  = inr tt
  ∧ (not_allowed Demo.owner = false →
     report_sent (load_names Demo.owner [["cogs.music"; "cogs.broken"]])
       (jsk_load Demo.owner [["cogs.music"; "cogs.broken"]] Demo.world0)).
Proof.
  pose proof (handlers_raise_only_what_is_not_caught
                Demo.owner [["cogs.music"; "cogs.broken"]] [] []
                Demo.world0) as (H & _).
  apply H. vm_compute. repeat constructor.
Defined.

Lemma slash_error_group_follows_In_demo :
  ∃ text rest digits letters more,
    "In 0.options.1.name: Invalid" = "In " +:+ text
    ∧ text = "0.options.1.name" +:+ rest
    ∧ (re_digits text).1 = digits ∧ digits ≠ ""
    ∧ letters ≠ "" ∧ all_chars Py.is_lower letters = true
    ∧ "0.options.1.name" = digits +:+ "." +:+ letters +:+ more.
Proof.
  apply (slash_error_group_follows_In "In 0.options.1.name: Invalid"
                                      "0.options.1.name").
  vm_compute. reflexivity.
Defined.

Lemma walk_ends_on_a_command_demo :
  is_Some (Some 2%nat, "config set ").1.
Proof.
  apply (walk_ends_on_a_command ["0"; "0"] (Some 0%nat) None ""
           Demo.world0 (Some 2%nat, "config set ")).
  - discriminate.
  - vm_compute. reflexivity.
Defined.

Lemma diagnosis_interleaves_demo :
  ∃ extras,
    Forall2 diagnosed ["400 Bad Request"; "In 1.options.5.name: bad"] extras
    ∧ ["400 Bad Request"; "In 1.options.5.name: bad";
       couldnt_determine Py.IndexError]
      = concat (zip_with cons
                  ["400 Bad Request"; "In 1.options.5.name: bad"] extras).
Proof.
  apply (diagnosis_interleaves 0%nat
           ["400 Bad Request"; "In 1.options.5.name: bad"] Demo.world0).
  vm_compute. reflexivity.
Defined.

Lemma diagnosis_names_the_command_demo :
  outcome (diagnose_line 0%nat "In 0.options.0.name: bad" Demo.world0)
  = inr ["In 0.options.0.name: bad";
         MAGNET +:+ " This is likely caused by: `config set ` at "
         +:+ "cogs/config.py:10-20"].
Proof.
  pose proof (diagnosis_names_the_command
                0%nat "In 0.options.0.name: bad" "0.options.0.name"
                Demo.world0 2%nat "config set ") as H.
  vm_compute in H |- *. apply H; reflexivity.
Defined.

Lemma unmatched_error_is_reported_verbatim_demo :
  lines (trace (sync_guild None pag_new
                  (Demo.world_rejecting "400 Bad Request")))
  = [WARNING_SIGN +:+ " Global: 400 Bad Request"].
Proof.
  rewrite (unmatched_error_is_reported_verbatim
             None pag_new (Demo.world_rejecting "400 Bad Request")
             (Demo.ApiError "400 Bad Request")).
  - vm_compute. reflexivity.
  - vm_compute. reflexivity.
  - reflexivity.
  - vm_compute. repeat constructor.
Defined.

Lemma sync_words_mean_their_union_demo :
  parse_targets Demo.owner demo_words ∅ Demo.world0
  = Run [] Demo.world0
        (inr (Some (⋃ (target_meaning Demo.owner
                         (fw_get GuildCommandKeys Demo.world0)
                         <$> demo_words)))).
Proof.
  apply (sync_words_mean_their_union Demo.owner demo_words Demo.world0).
  unfold demo_words. repeat (constructor; [vm_compute; reflexivity|]).
  constructor.
Defined.

Lemma sync_ignores_order_and_repeats_demo :
  jsk_sync Demo.owner ["5"; "$"; "5"] Demo.world0
  = jsk_sync Demo.owner ["$"; "5"] Demo.world0.
Proof.
  apply sync_ignores_order_and_repeats.
  - intros t. rewrite !elem_of_cons, !elem_of_nil. tauto.
  - repeat (constructor; [vm_compute; reflexivity|]). constructor.
Defined.

Lemma sync_reports_each_target_demo :
  Forall2 reports_sync
    (sync_results
       (trace (jsk_sync Demo.owner ["$"]
                        (Demo.world_rejecting demo_rejection))))
    (lines (trace (jsk_sync Demo.owner ["$"]
                            (Demo.world_rejecting demo_rejection)))).
Proof.
  destruct (sync_reports_each_target
              Demo.owner ["$"] (Demo.world_rejecting demo_rejection)
              {[ None ]})
    as (_ & H & _).
  - vm_compute. reflexivity.
  - vm_compute. reflexivity.
  - vm_compute. reflexivity.
  - vm_compute. repeat constructor.
  - exact H.
Defined.

Lemma loaded_extension_is_reloaded_demo :
  head (trace (jsk_load Demo.owner [["cogs.music"]] Demo.world0))
  = Some (Called (ReloadExtension "cogs.music") (inr tt)).
Proof.
  pose proof (loaded_extension_is_reloaded
                Demo.owner [["cogs.music"]] Demo.world0 "cogs.music" [])
    as H.
  vm_compute in H |- *. apply H; reflexivity.
Defined.

Lemma shutdown_closes_after_announcing_demo :
  sends (trace (jsk_shutdown Demo.owner Demo.world0))
  = ["Logging out now <:bot:1002153704645988372>"].
Proof.
  destruct (shutdown_closes_after_announcing Demo.owner Demo.world0)
    as [H _].
  - vm_compute. reflexivity.
  - exact H.
Defined.

Lemma rtt_sends_once_and_edits_five_times_demo :
  ∃ m, sent_messages (trace (jsk_rtt Demo.owner Demo.world0)) = [m]
       ∧ edits (trace (jsk_rtt Demo.owner Demo.world0)) = [m; m; m; m; m]
       ∧ outcome (jsk_rtt Demo.owner Demo.world0) = inr tt.
Proof.
  apply rtt_sends_once_and_edits_five_times.
  - vm_compute. reflexivity.
  - vm_compute. repeat constructor.
Defined.


End MoreOnTheDemoBot.
